(** * Batch acquisition and checkpoint/resume engine of the Play Store scraper

    A shallow embedding of [src/scraping/batch_scraper.py]
    (class [AdvancedPlayStoreScraper]) and the properties of its retry,
    discovery, batch-running, checkpointing and merging code.

    Conventions of the embedding.
    - Python values handled opaquely by the scraper (detail payloads,
      reviews) are terms of [pyval]; a Python [dict] is an association list
      in insertion order.
    - The upstream source ([google_play_scraper.app], [search], [reviews])
      is an oracle indexed by the number of calls issued so far, so that a
      call may fail at one moment and succeed later.
    - The checkpoint file, the error log and the other files of the output
      directory are fields of the [World].  A file of records is represented
      by the document it holds, a CSV projection by its text; the checkpoint
      file holds the text [json.dump] writes, which [json.load] parses.
      Writes to the file system are taken to succeed.
    - Time is a millisecond clock.  Every primitive operation takes a
      non-negative amount of time chosen by the environment ([elapsed]);
      [time.sleep d] takes the requested duration in addition.
    - Methods are state-passing functions [World -> result A * World]; the
      exceptions of the model are the [ZeroDivisionError] of
      [(idx + 1) % save_interval], the [JSONDecodeError] of [json.load]
      on a file that is not a JSON document, and the [KeyError] of a
      checkpoint without ['scraped_app_ids']. *)

From Stdlib Require Import ZArith Ascii String List Lia.
From stdpp Require Import base option list list_numbers gmap sets strings pretty.

#[local] Set Warnings "-notation-for-abbreviation".

Local Open Scope string_scope.
Local Open Scope list_scope.
Local Open Scope Z_scope.

(** ** Python values *)

#[warnings="-register-all"]
Inductive pyval : Type :=
| PNone
| PBool (b : bool)
| PInt (n : Z)
| PFloat (bits : Z)
| PStr (s : string)
| PDatetime (t : Z)
| PList (items : list pyval)
| PDict (entries : list (string * pyval)).

Definition dict : Type := list (string * pyval).

(** [d[key]] read, as [dict.get(key)]: the first (only) binding of [key]. *)
Fixpoint dict_get (key : string) (d : dict) : option pyval :=
  match d with
  | [] => None
  | (k, v) :: rest => if String.eqb k key then Some v else dict_get key rest
  end.

(** [d[key] = v]: replaces the binding in place, or appends a new one. *)
Fixpoint dict_set (key : string) (v : pyval) (d : dict) : dict :=
  match d with
  | [] => [(key, v)]
  | (k, x) :: rest =>
      if String.eqb k key then (k, v) :: rest else (k, x) :: dict_set key v rest
  end.

(** The identifier a stored record is about: its ['appId'] field. *)
Definition record_id (r : pyval) : option string :=
  match r with
  | PDict d => match dict_get "appId" d with
               | Some (PStr s) => Some s
               | _ => None
               end
  | _ => None
  end.

Definition is_record_for (x : string) (r : pyval) : bool :=
  match record_id r with
  | Some s => String.eqb s x
  | None => false
  end.

(** The review list attached to a stored record, if any. *)
Definition record_reviews (r : pyval) : option pyval :=
  match r with
  | PDict d => dict_get "scraped_reviews" d
  | _ => None
  end.

(** Values that JSON can hold as they are: everything but a [datetime]. *)
Fixpoint json_native (v : pyval) : bool :=
  match v with
  | PDatetime _ => false
  | PList l => forallb json_native l
  | PDict d => forallb (fun kv => let '(_, value) := kv in json_native value) d
  | _ => true
  end.

(** Number of records about identifier [x] in a document. *)
Definition records_for (x : string) (data : list pyval) : nat :=
  length (List.filter (is_record_for x) data).

(** ** Checkpoint, upstream source, world *)

(** The checkpoint dictionary
    [{'scraped_app_ids': [...], 'failed_app_ids': [...]}]. *)
Record Checkpoint : Type := mkCheckpoint {
  scraped_app_ids : list string;
  failed_app_ids : list string
}.

(** One hit of [search]: its ['appId'] and the rest of the dictionary. *)
Record search_hit : Type := mkHit {
  appId : string;
  hit_fields : dict
}.

(** Outcome of one call to the upstream source: a value, or an exception
    carrying [str(e)]. *)
Inductive outcome (A : Type) : Type :=
| Returns (a : A)
| Throws (msg : string).
Arguments Returns {A} a.
Arguments Throws {A} msg.

(** The upstream source; the first argument is the number of calls issued
    before this one. *)
Record Upstream : Type := mkUpstream {
  app : nat -> string -> outcome dict;
  search : nat -> string -> Z -> outcome (list search_hit);
  reviews : nat -> string -> Z -> outcome (list pyval)
}.

(** What a method does to the outside, in order: upstream calls (with
    whether they returned), waits in milliseconds, error reports, JSON
    documents and CSV projections written to the output directory,
    checkpoints persisted. *)
Inductive event : Type :=
| EvApp (app_id : string) (ok : bool)
| EvSearch (query : string) (n_hits : Z) (ok : bool)
| EvReviews (app_id : string) (count : Z) (ok : bool)
| EvSleep (ms : Z)
| EvLogError (message : string)
| EvWriteJson (filename : string) (data : list pyval)
| EvWriteCsv (filename : string) (text : string)
| EvSaveCheckpoint (cp : Checkpoint).

(** A file of the output directory other than the checkpoint and the error
    log: a JSON document holding a list of records, or the text of a CSV
    projection. *)
Inductive file : Type :=
| JsonFile (data : list pyval)
| CsvFile (text : string).

(** The state outside the process: the clock (milliseconds), the numbers
    of primitive operations and of upstream calls so far, the checkpoint
    file ([scraping_checkpoint.json]) if there is one, given by the
    checkpoint whose [json.dump] it holds, the lines of the error log
    ([scraping_errors.log]), the other files of the output directory by
    name, and the events so far. *)
Record World : Type := mkWorld {
  clock : Z;
  nticks : nat;
  ncalls : nat;
  checkpoint_file : option Checkpoint;
  error_log_file : list string;
  output_dir : gmap string file;
  trace : list event
}.

(** ** The monad of methods *)

(** Exceptions that escape a method. *)
Inductive exn : Type :=
| ZeroDivisionError
| JSONDecodeError
| KeyError.

Inductive result (A : Type) : Type :=
| Ok (a : A)
| Raise (e : exn).
Arguments Ok {A} a.
Arguments Raise {A} e.

Definition M (A : Type) : Type := World -> result A * World.

Definition ret {A} (a : A) : M A := fun w => (Ok a, w).

Definition bind {A B} (m : M A) (f : A -> M B) : M B :=
  fun w => match m w with
           | (Ok a, w1) => f a w1
           | (Raise e, w1) => (Raise e, w1)
           end.

Definition raise {A} (e : exn) : M A := fun w => (Raise e, w).

Declare Scope py_scope.
Delimit Scope py_scope with py.
Notation "x <- m ;; k" := (bind m (fun x => k))
  (at level 100, m at next level, right associativity) : py_scope.
Notation "m ;;; k" := (bind m (fun _ => k))
  (at level 100, right associativity) : py_scope.
Local Open Scope py_scope.

(** The world a method leaves behind, and what it returns. *)
Definition exec {A} (m : M A) (w : World) : World := snd (m w).
Definition eval {A} (m : M A) (w : World) : result A := fst (m w).

(** Events a method appended to the trace of [w]. *)
Definition emitted {A} (m : M A) (w : World) : list event :=
  drop (length (trace w)) (trace (exec m w)).

(** ** The checkpoint file as JSON text *)

(** The text of a file, character by character. *)
Definition text : Type := list ascii.

Definition quote : ascii := "034"%char.
Definition backslash : ascii := "092"%char.
Definition newline : ascii := "010"%char.

Definition chars (s : string) : text := list_ascii_of_string s.

Definition hex_digit (n : nat) : ascii :=
  ascii_of_nat (if n <? 10 then 48 + n else 87 + n)%nat.

(** One character of a string as [json.dump] writes it (with
    [ensure_ascii], the default): the two-character escapes, [\u00xx] for
    the other characters outside the printable ASCII range, the character
    itself otherwise. *)
Definition escape_char (c : ascii) : text :=
  let n := nat_of_ascii c in
  if Ascii.eqb c quote then [backslash; quote]
  else if Ascii.eqb c backslash then [backslash; backslash]
  else if Ascii.eqb c newline then [backslash; "n"%char]
  else if Ascii.eqb c "013"%char then [backslash; "r"%char]
  else if Ascii.eqb c "009"%char then [backslash; "t"%char]
  else if Ascii.eqb c "008"%char then [backslash; "b"%char]
  else if Ascii.eqb c "012"%char then [backslash; "f"%char]
  else if (n <? 32)%nat || (126 <? n)%nat
       then [backslash; "u"%char; "0"%char; "0"%char;
             hex_digit (n / 16); hex_digit (n mod 16)]
       else [c].

Definition json_string (s : string) : text :=
  quote :: flat_map escape_char (chars s) ++ [quote].

(** The items of an array after the first one, then the closing bracket,
    at the indentation of the checkpoint's lists. *)
Fixpoint json_items (l : list string) : text :=
  match l with
  | [] => newline :: chars "  ]"
  | x :: rest => chars "," ++ newline :: chars "    " ++ json_string x ++ json_items rest
  end.

Definition json_array (l : list string) : text :=
  match l with
  | [] => chars "[]"
  | x :: rest => chars "[" ++ newline :: chars "    " ++ json_string x ++ json_items rest
  end.

(** [json.dump(checkpoint, f, indent=2)] *)
Definition json_dump (checkpoint : Checkpoint) : text :=
  chars "{" ++ newline :: chars "  " ++
  json_string "scraped_app_ids" ++ chars ": " ++
  json_array (scraped_app_ids checkpoint) ++
  chars "," ++ newline :: chars "  " ++
  json_string "failed_app_ids" ++ chars ": " ++
  json_array (failed_app_ids checkpoint) ++
  newline :: chars "}".

(** [json.load], that is [json.loads] of the text of the file, for
    documents that are an object of arrays of strings. *)

Definition is_ws (c : ascii) : bool :=
  Ascii.eqb c " "%char || Ascii.eqb c newline || Ascii.eqb c "013"%char
  || Ascii.eqb c "009"%char.

Fixpoint skip_ws (s : text) : text :=
  match s with
  | c :: r => if is_ws c then skip_ws r else s
  | [] => []
  end.

Definition hex_value (c : ascii) : option nat :=
  let n := nat_of_ascii c in
  if (48 <=? n)%nat && (n <=? 57)%nat then Some (n - 48)%nat
  else if (97 <=? n)%nat && (n <=? 102)%nat then Some (n - 87)%nat
  else if (65 <=? n)%nat && (n <=? 70)%nat then Some (n - 55)%nat
  else None.

(** The character after a backslash, for the two-character escapes. *)
Definition simple_escape (e : ascii) : option ascii :=
  if Ascii.eqb e quote then Some quote
  else if Ascii.eqb e backslash then Some backslash
  else if Ascii.eqb e "/"%char then Some "/"%char
  else if Ascii.eqb e "b"%char then Some "008"%char
  else if Ascii.eqb e "f"%char then Some "012"%char
  else if Ascii.eqb e "n"%char then Some newline
  else if Ascii.eqb e "r"%char then Some "013"%char
  else if Ascii.eqb e "t"%char then Some "009"%char
  else None.

(** [\uXXXX]; the strings of the model hold the code points below 256. *)
Definition code_point (h1 h2 h3 h4 : ascii) : option ascii :=
  match hex_value h1, hex_value h2, hex_value h3, hex_value h4 with
  | Some a, Some b, Some c, Some d =>
      let n := (((a * 16 + b) * 16 + c) * 16 + d)%nat in
      if (n <? 256)%nat then Some (ascii_of_nat n) else None
  | _, _, _, _ => None
  end.

Definition push {A} (c : A) (o : option (list A * text)) : option (list A * text) :=
  match o with
  | Some (content, rest) => Some (c :: content, rest)
  | None => None
  end.

(** The content of a string, read from after its opening quote, and the
    text after its closing quote. *)
Fixpoint scan_string (s : text) : option (text * text) :=
  match s with
  | [] => None
  | c :: r =>
      if Ascii.eqb c quote then Some ([], r)
      else if Ascii.eqb c backslash then
        match r with
        | e :: r1 =>
            match simple_escape e with
            | Some c' => push c' (scan_string r1)
            | None =>
                if Ascii.eqb e "u"%char then
                  match r1 with
                  | h1 :: h2 :: h3 :: h4 :: r2 =>
                      match code_point h1 h2 h3 h4 with
                      | Some c' => push c' (scan_string r2)
                      | None => None
                      end
                  | _ => None
                  end
                else None
            end
        | [] => None
        end
      else if (nat_of_ascii c <? 32)%nat then None
      else push c (scan_string r)
  end.

(** A string, from its opening quote. *)
Definition parse_string (s : text) : option (string * text) :=
  match s with
  | c :: r =>
      if Ascii.eqb c quote
      then match scan_string r with
           | Some (content, rest) => Some (string_of_list_ascii content, rest)
           | None => None
           end
      else None
  | [] => None
  end.

(** The rest of an array after an item. *)
Fixpoint parse_items (fuel : nat) (s : text) : option (list string * text) :=
  match fuel with
  | O => None
  | S fuel =>
      match skip_ws s with
      | c :: r =>
          if Ascii.eqb c "]"%char then Some ([], r)
          else if Ascii.eqb c ","%char then
            match parse_string (skip_ws r) with
            | Some (item, r1) => push item (parse_items fuel r1)
            | None => None
            end
          else None
      | [] => None
      end
  end.

(** An array of strings, from its opening bracket. *)
Definition parse_array (fuel : nat) (s : text) : option (list string * text) :=
  match s with
  | c :: r =>
      if Ascii.eqb c "["%char then
        match skip_ws r with
        | c1 :: r1 =>
            if Ascii.eqb c1 "]"%char then Some ([], r1)
            else match parse_string (c1 :: r1) with
                 | Some (item, r2) => push item (parse_items fuel r2)
                 | None => None
                 end
        | [] => None
        end
      else None
  | [] => None
  end.

(** One member of the object, from the quote of its key. *)
Definition parse_member (fuel : nat) (s : text)
  : option ((string * list string) * text) :=
  match parse_string s with
  | Some (key, r) =>
      match skip_ws r with
      | c :: r1 =>
          if Ascii.eqb c ":"%char then
            match parse_array fuel (skip_ws r1) with
            | Some (items, r2) => Some ((key, items), r2)
            | None => None
            end
          else None
      | [] => None
      end
  | None => None
  end.

(** The rest of the object after a member. *)
Fixpoint parse_members (fuel n : nat) (s : text)
  : option (list (string * list string) * text) :=
  match fuel with
  | O => None
  | S fuel =>
      match skip_ws s with
      | c :: r =>
          if Ascii.eqb c "}"%char then Some ([], r)
          else if Ascii.eqb c ","%char then
            match parse_member n (skip_ws r) with
            | Some (member, r1) => push member (parse_members fuel n r1)
            | None => None
            end
          else None
      | [] => None
      end
  end.

Definition parse_object (n : nat) (s : text)
  : option (list (string * list string) * text) :=
  match s with
  | c :: r =>
      if Ascii.eqb c "{"%char then
        match skip_ws r with
        | c1 :: r1 =>
            if Ascii.eqb c1 "}"%char then Some ([], r1)
            else match parse_member n (c1 :: r1) with
                 | Some (member, r2) => push member (parse_members n n r2)
                 | None => None
                 end
        | [] => None
        end
      else None
  | [] => None
  end.

(** The whole document: one object, with nothing but white space around
    it.  The length of the text bounds the number of members and items. *)
Definition json_loads (t : text) : option (list (string * list string)) :=
  match parse_object (length t) (skip_ws t) with
  | Some (members, rest) =>
      match skip_ws rest with
      | [] => Some members
      | _ :: _ => None
      end
  | None => None
  end.

(** [d[key]] on the loaded object: of two members with the same key, the
    last one counts. *)
Definition member (key : string) (members : list (string * list string))
  : option (list string) :=
  foldl (fun found kv => if String.eqb kv.1 key then Some kv.2 else found)
        None members.

(** The text of the checkpoint file, if there is one. *)
Definition checkpoint_text (w : World) : option text :=
  json_dump <$> checkpoint_file w.

(** What the methods read in a checkpoint file:
    [checkpoint['scraped_app_ids']] and
    [checkpoint.get('failed_app_ids', [])]. *)
Definition read_checkpoint (t : text) : result Checkpoint :=
  match json_loads t with
  | None => Raise JSONDecodeError
  | Some members =>
      match member "scraped_app_ids" members with
      | None => Raise KeyError
      | Some ids =>
          Ok (mkCheckpoint ids (default [] (member "failed_app_ids" members)))
      end
  end.

(** ** Reading a trace *)

Definition is_call (e : event) : bool :=
  match e with
  | EvApp _ _ | EvSearch _ _ _ | EvReviews _ _ _ => true
  | _ => false
  end.

(** Number of upstream calls in a trace. *)
Definition calls_in (evs : list event) : nat :=
  length (List.filter is_call evs).

(** Durations of the [time.sleep] calls of a trace, in order. *)
Definition sleeps (evs : list event) : list Z :=
  omap (fun e => match e with EvSleep ms => Some ms | _ => None end) evs.

(** Total time slept, in milliseconds. *)
Definition slept (evs : list event) : Z := foldr Z.add 0 (sleeps evs).

(** Detail fetches of a trace: identifier and whether the call returned. *)
Definition app_calls (evs : list event) : list (string * bool) :=
  omap (fun e => match e with EvApp i ok => Some (i, ok) | _ => None end) evs.

(** Reviews fetches of a trace. *)
Definition reviews_calls (evs : list event) : list (string * Z * bool) :=
  omap (fun e => match e with EvReviews i c ok => Some (i, c, ok) | _ => None end) evs.

(** Messages handed to [log_error]. *)
Definition logged (evs : list event) : list string :=
  omap (fun e => match e with EvLogError m => Some m | _ => None end) evs.

(** JSON documents written to the output directory: name and content. *)
Definition json_writes (evs : list event) : list (string * list pyval) :=
  omap (fun e => match e with EvWriteJson f d => Some (f, d) | _ => None end) evs.

(** CSV projections written to the output directory: name and text. *)
Definition csv_writes (evs : list event) : list (string * string) :=
  omap (fun e => match e with EvWriteCsv f t => Some (f, t) | _ => None end) evs.

(** Files written to the output directory, of either kind, in order. *)
Definition file_writes (evs : list event) : list (string * file) :=
  omap (fun e => match e with
                 | EvWriteJson f d => Some (f, JsonFile d)
                 | EvWriteCsv f t => Some (f, CsvFile t)
                 | _ => None
                 end) evs.

(** The JSON document of records held under a name of the output
    directory: empty when there is no such document. *)
Definition document (w : World) (f : string) : list pyval :=
  match output_dir w !! f with
  | Some (JsonFile data) => data
  | _ => []
  end.

(** Checkpoints persisted. *)
Definition saved (evs : list event) : list Checkpoint :=
  omap (fun e => match e with EvSaveCheckpoint cp => Some cp | _ => None end) evs.

(** The failed attempts numbered [a], [a+1], ..., [a+k-1] (counting from 0)
    of a detail fetch, each followed by its wait. *)
Definition failed_attempts (app_id : string) (a : Z) (k : nat) : list event :=
  flat_map (fun attempt => [EvApp app_id false; EvSleep (1000 * 2 ^ attempt)])
           (seqZ a (Z.of_nat k)).

(** The message logged when the last attempt of a detail fetch fails. *)
Definition failure_message (app_id e : string) : string :=
  "Failed to scrape " +:+ app_id +:+ ": " +:+ e.

(** Events of fetching one identifier: upstream calls for it, waits and
    error reports, but no file written. *)
Definition fetch_event (app_id : string) (e : event) : Prop :=
  match e with
  | EvApp i _ => i = app_id
  | EvReviews i _ _ => i = app_id
  | EvSleep ms => 0 <= ms
  | EvLogError _ => True
  | _ => False
  end.

(** What [scrape_reviews_safely] hands back and emits, from the outcome of
    its single upstream call. *)
Definition reviews_result (o : outcome (list pyval)) : list pyval :=
  match o with Returns result => result | Throws _ => [] end.

Definition reviews_failure_message (app_id e : string) : string :=
  "Failed to scrape reviews for " +:+ app_id +:+ ": " +:+ e.

Definition reviews_events (app_id : string) (count : Z) (o : outcome (list pyval))
  : list event :=
  match o with
  | Returns _ => [EvReviews app_id count true]
  | Throws e => [EvReviews app_id count false;
                 EvLogError (reviews_failure_message app_id e)]
  end.

(** The reviews stage of one iteration of the batch loop. *)
Definition reviews_stage (include_reviews : bool) (app_id : string) (count : Z)
    (o : outcome (list pyval)) : list event :=
  if include_reviews then reviews_events app_id count o else [].

Definition with_reviews (include_reviews : bool) (o : outcome (list pyval))
    (payload : dict) : dict :=
  if include_reviews
  then dict_set "scraped_reviews" (PList (reviews_result o)) payload
  else payload.

Definition nonempty_document (fd : string * list pyval) : Prop := fd.2 <> [].

(** Sizes of the documents written, in order. *)
Definition batch_sizes (evs : list event) : list nat :=
  (fun fd => length fd.2) <$> json_writes evs.

(** Number of detail fetches that returned. *)
Definition successes (evs : list event) : nat :=
  length (List.filter snd (app_calls evs)).

(** Cutting [n] items into runs of [interval]: the sizes of the full runs,
    then the size of the rest if there is one. *)
Definition cadence (interval n : Z) : list nat :=
  replicate (Z.to_nat (n / interval)) (Z.to_nat interval) ++
  (if n mod interval =? 0 then [] else [Z.to_nat (n mod interval)]).

(** The upstream source answers every detail fetch of the identifiers
    [ids] with a populated payload, whenever it is asked. *)
Definition always_populated (up : Upstream) (ids : list string) : Prop :=
  forall n app_id, app_id ∈ ids ->
    exists entry entries, app up n app_id = Returns (entry :: entries).

(** A line of the error log carrying [message]. *)
Definition is_log_line (line message : string) : Prop :=
  exists timestamp, line = "[" +:+ timestamp +:+ "] " +:+ message.

(** How a world relates to an earlier one, given the events in between. *)
Record evolves (w : World) (evs : list event) (w' : World) : Prop := mkEvolves {
  ev_trace : trace w' = trace w ++ evs;
  ev_ncalls : ncalls w' = (ncalls w + calls_in evs)%nat;
  ev_clock : clock w + slept evs <= clock w';
  ev_checkpoint :
    checkpoint_file w' = foldl (fun _ cp => Some cp) (checkpoint_file w) (saved evs);
  ev_dir :
    output_dir w' = foldl (fun d fw => <[fw.1 := fw.2]> d) (output_dir w) (file_writes evs);
  ev_log : exists lines, error_log_file w' = error_log_file w ++ lines /\
                         Forall2 is_log_line lines (logged evs)
}.

(** [m] run in [w] returns [r], leaves [w'] and emits [evs]. *)
Definition runs {A} (m : M A) (w : World) (r : result A) (w' : World)
    (evs : list event) : Prop :=
  m w = (r, w') /\ evolves w evs w'.

(** ** Primitive operations *)

Section Scraper.

(** The environment of a run: the upstream source, the time each primitive
    operation takes, the two library renderings of time stamps
    ([datetime.strftime] with a format, [datetime.isoformat]), and the CSV
    text [pandas] makes of a list of records
    ([pd.json_normalize(all_data, max_level=1)] then [to_csv]), or the
    exception it raises. *)
Variable upstream : Upstream.
Variable elapsed : nat -> N.
Variable strftime : string -> Z -> string.
Variable isoformat : Z -> string.
Variable to_csv : list pyval -> outcome string.

Definition tick (w : World) : World :=
  mkWorld (clock w + Z.of_N (elapsed (nticks w))) (S (nticks w)) (ncalls w)
          (checkpoint_file w) (error_log_file w) (output_dir w) (trace w).

Definition log_event (e : event) (w : World) : World :=
  mkWorld (clock w) (nticks w) (ncalls w)
          (checkpoint_file w) (error_log_file w) (output_dir w) (trace w ++ [e]).

(** [datetime.now()], in whole seconds. *)
Definition now (w : World) : Z := clock w / 1000.

(** [time.sleep], duration in milliseconds. *)
Definition sleep (ms : Z) : M unit := fun w =>
  let w1 := tick w in
  (Ok tt, log_event (EvSleep ms)
            (mkWorld (clock w1 + ms) (nticks w1) (ncalls w1) (checkpoint_file w1)
                     (error_log_file w1) (output_dir w1) (trace w1))).

Definition is_ok {A} (o : outcome A) : bool :=
  match o with Returns _ => true | Throws _ => false end.

Definition issue {A} (o : nat -> outcome A) (ev : bool -> event) : M (outcome A) :=
  fun w =>
    let w1 := tick w in
    let r := o (ncalls w1) in
    (Ok r, log_event (ev (is_ok r))
             (mkWorld (clock w1) (nticks w1) (S (ncalls w1)) (checkpoint_file w1)
                      (error_log_file w1) (output_dir w1) (trace w1))).

(** [app(app_id, lang='en', country='us')] *)
Definition call_app (app_id : string) : M (outcome dict) :=
  issue (fun n => app upstream n app_id) (EvApp app_id).

(** [search(category, lang='en', country='us', n_hits=...)] *)
Definition call_search (query : string) (n_hits : Z) : M (outcome (list search_hit)) :=
  issue (fun n => search upstream n query n_hits) (EvSearch query n_hits).

(** [reviews(app_id, lang='en', country='us', sort=sort, count=count)];
    the continuation token of the pair is dropped by the caller. *)
Definition call_reviews (app_id : string) (count : Z) : M (outcome (list pyval)) :=
  issue (fun n => reviews upstream n app_id count) (EvReviews app_id count).

(** Writing a JSON document of records under a name of the output
    directory (mode ['w']: an existing file of that name is replaced).
    The write is taken to succeed: an error of the file system or of the
    encoder is outside the model. *)
Definition write_json (filename : string) (data : list pyval) : M unit := fun w =>
  let w1 := tick w in
  (Ok tt, log_event (EvWriteJson filename data)
            (mkWorld (clock w1) (nticks w1) (ncalls w1) (checkpoint_file w1)
                     (error_log_file w1) (<[filename := JsonFile data]> (output_dir w1))
                     (trace w1))).

(** Writing the text of a CSV projection under a name of the output
    directory, whatever file had that name. *)
Definition write_csv (filename : string) (text : string) : M unit := fun w =>
  let w1 := tick w in
  (Ok tt, log_event (EvWriteCsv filename text)
            (mkWorld (clock w1) (nticks w1) (ncalls w1) (checkpoint_file w1)
                     (error_log_file w1) (<[filename := CsvFile text]> (output_dir w1))
                     (trace w1))).

(** ** Methods of [AdvancedPlayStoreScraper] *)

(** [load_checkpoint]: [json.load] of the checkpoint file when it exists. *)
Definition load_checkpoint : M Checkpoint := fun w =>
  match checkpoint_text w with
  | Some t => (read_checkpoint t, w)
  | None => (Ok (mkCheckpoint [] []), w)
  end.

(** [save_checkpoint]: the file is replaced by [json.dump] of the
    checkpoint. *)
Definition save_checkpoint (checkpoint : Checkpoint) : M unit := fun w =>
  let w1 := tick w in
  (Ok tt, log_event (EvSaveCheckpoint checkpoint)
            (mkWorld (clock w1) (nticks w1) (ncalls w1) (Some checkpoint)
                     (error_log_file w1) (output_dir w1) (trace w1))).

(** [log_error]: appends the line [[timestamp] message] to the error log. *)
Definition log_error (message : string) : M unit := fun w =>
  let w1 := tick w in
  let timestamp := strftime "%Y-%m-%d %H:%M:%S" (now w1) in
  (Ok tt, log_event (EvLogError message)
            (mkWorld (clock w1) (nticks w1) (ncalls w1) (checkpoint_file w1)
                     (error_log_file w1 ++ ["[" +:+ timestamp +:+ "] " +:+ message])
                     (output_dir w1) (trace w1))).

(** The body of [for attempt in range(retries)], over the attempts still
    to be made. *)
Fixpoint scrape_attempts (app_id : string) (retries : Z) (attempts : list Z)
  : M (option dict) :=
  match attempts with
  | [] => ret None
  | attempt :: rest =>
      r <- call_app app_id ;;
      match r with
      | Returns result => ret (Some result)
      | Throws e =>
          if attempt =? retries - 1
          then (log_error (failure_message app_id e) ;;;
                ret None)
          else (sleep (1000 * 2 ^ attempt) ;;;
                scrape_attempts app_id retries rest)
      end
  end.

Definition scrape_app_safely (app_id : string) (retries : Z) : M (option dict) :=
  scrape_attempts app_id retries (seqZ 0 retries).

Definition scrape_reviews_safely (app_id : string) (count : Z) : M (list pyval) :=
  r <- call_reviews app_id count ;;
  match r with
  | Returns result => ret result
  | Throws e =>
      log_error (reviews_failure_message app_id e) ;;;
      ret []
  end.

(** [for result in results: all_app_ids.add(result['appId'])] *)
Definition add_hits (results : list search_hit) (all_app_ids : gset string)
  : gset string :=
  foldl (fun s result => s ∪ {[ appId result ]}) all_app_ids results.

Fixpoint discover_categories (categories : list string) (apps_per_category : Z)
    (all_app_ids : gset string) : M (gset string) :=
  match categories with
  | [] => ret all_app_ids
  | category :: rest =>
      r <- call_search category apps_per_category ;;
      match r with
      | Returns results =>
          sleep 1000 ;;;
          discover_categories rest apps_per_category (add_hits results all_app_ids)
      | Throws e =>
          log_error ("Search failed for '" +:+ category +:+ "': " +:+ e) ;;;
          discover_categories rest apps_per_category all_app_ids
      end
  end.

Definition discover_apps_by_categories (categories : list string)
    (apps_per_category : Z) : M (list string) :=
  all_app_ids <- discover_categories categories apps_per_category ∅ ;;
  ret (elements all_app_ids).

(** The state of the loop of [batch_scrape_apps]: the accumulator, the set
    of completed identifiers and the (mutated) checkpoint dictionary. *)
Record run_state : Type := mkRun {
  scraped_data : list pyval;
  scraped_ids : gset string;
  checkpoint : Checkpoint
}.

Fixpoint _make_serializable (obj : pyval) : pyval :=
  match obj with
  | PDatetime t => PStr (isoformat t)
  | PDict d => PDict (map (fun kv => let '(key, value) := kv in
                                     (key, _make_serializable value)) d)
  | PList l => PList (map _make_serializable l)
  | _ => obj
  end.

Definition batch_filename (timestamp : string) : string :=
  "apps_batch_" +:+ timestamp +:+ ".json".

(** The name of a batch file stamped at second [s]. *)
Definition stamped_filename (s : Z) : string :=
  batch_filename (strftime "%Y%m%d_%H%M%S" s).

(** [_save_batch]: [data] is a list, so [_make_serializable(data)] is the
    list of the converted items. *)
Definition _save_batch (data : list pyval) : M unit :=
  match data with
  | [] => ret tt
  | _ :: _ => fun w =>
      let timestamp := strftime "%Y%m%d_%H%M%S" (now w) in
      write_json (batch_filename timestamp) (map _make_serializable data) w
  end.

(** [a % b] on Python integers. *)
Definition py_mod (a b : Z) : M Z :=
  if b =? 0 then raise ZeroDivisionError else ret (a mod b).

(** One iteration of [for idx, app_id in enumerate(remaining_ids)].
    [if app_data:] holds for a non-empty dict only. *)
Definition scrape_one (include_reviews : bool) (reviews_per_app save_interval : Z)
    (idx : Z) (app_id : string) (st : run_state) : M run_state :=
  app_data <- scrape_app_safely app_id 3 ;;
  st' <- match app_data with
         | Some (entry :: entries) =>
             app_data <- (if include_reviews
                          then (app_reviews <- scrape_reviews_safely app_id reviews_per_app ;;
                                ret (dict_set "scraped_reviews" (PList app_reviews)
                                              (entry :: entries)))
                          else ret (entry :: entries)) ;;
             let data := scraped_data st ++ [PDict app_data] in
             let ids := scraped_ids st ∪ {[ app_id ]} in
             m <- py_mod (idx + 1) save_interval ;;
             if m =? 0
             then (_save_batch data ;;;
                   let cp := mkCheckpoint (elements ids)
                                          (failed_app_ids (checkpoint st)) in
                   save_checkpoint cp ;;;
                   ret (mkRun [] ids cp))
             else ret (mkRun data ids (checkpoint st))
         | _ => ret st
         end ;;
  sleep 1200 ;;;
  ret st'.

Fixpoint scrape_loop (include_reviews : bool) (reviews_per_app save_interval : Z)
    (idx : Z) (remaining_ids : list string) (st : run_state) : M run_state :=
  match remaining_ids with
  | [] => ret st
  | app_id :: rest =>
      st' <- scrape_one include_reviews reviews_per_app save_interval idx app_id st ;;
      scrape_loop include_reviews reviews_per_app save_interval (idx + 1) rest st'
  end.

Definition remaining (app_ids : list string) (scraped : gset string) : list string :=
  filter (fun aid => aid ∉ scraped) app_ids.

Definition batch_scrape_apps (app_ids : list string) (include_reviews : bool)
    (reviews_per_app save_interval : Z) : M unit :=
  loaded <- load_checkpoint ;;
  let st0 := mkRun [] (list_to_set (scraped_app_ids loaded)) loaded in
  let remaining_ids := remaining app_ids (scraped_ids st0) in
  match remaining_ids with
  | [] => ret tt
  | _ :: _ =>
      st <- scrape_loop include_reviews reviews_per_app save_interval 0
                        remaining_ids st0 ;;
      (match scraped_data st with
       | [] => ret tt
       | _ :: _ => _save_batch (scraped_data st)
       end) ;;;
      save_checkpoint (mkCheckpoint (elements (scraped_ids st))
                                    (failed_app_ids (checkpoint st)))
  end.

(** [os.listdir(self.output_dir)], without the checkpoint file and the error
    log, which are fields of their own and whose names do not start with
    [apps_batch_]; the order of the listing is whatever the map
    enumerates. *)
Definition os_listdir (w : World) : list string := (map_to_list (output_dir w)).*1.

Definition is_batch_file (f : string) : bool := String.prefix "apps_batch_" f.

(** [json.load] of a file of the output directory; a CSV text is not a
    JSON document. *)
Definition json_load (w : World) (f : string) : result (list pyval) :=
  match output_dir w !! f with
  | Some (JsonFile data) => Ok data
  | _ => Raise JSONDecodeError
  end.

(** The loop of [merge_batches] over the batch files:
    [data = json.load(f)] then [all_data.extend(data)]. *)
Fixpoint load_batches (w : World) (batch_files : list string) (all_data : list pyval)
  : result (list pyval) :=
  match batch_files with
  | [] => Ok all_data
  | batch_file :: rest =>
      match json_load w batch_file with
      | Ok data => load_batches w rest (all_data ++ data)
      | Raise e => Raise e
      end
  end.

(** [output_path.replace('.json', '.csv')]: every occurrence, from the
    left.  The path of the output directory holds no ['.json'] (it is
    ['../data/raw'] unless configured), so the replacement acts on the file
    name. *)
Fixpoint csv_path (output_path : string) : string :=
  match output_path with
  | String "."%char (String "j"%char (String "s"%char (String "o"%char
      (String "n"%char rest)))) => ".csv" +:+ csv_path rest
  | String c rest => String c (csv_path rest)
  | EmptyString => EmptyString
  end.

(** The names of the checkpoint file and of the error log.  A merge under
    one of them would replace that file by the merged document, which the
    fields [checkpoint_file] and [error_log_file] cannot hold: the
    properties of [merge_batches] are stated for the other names. *)
Definition is_reserved (f : string) : bool :=
  String.eqb f "scraping_checkpoint.json" || String.eqb f "scraping_errors.log".

(** [merge_batches]: the merged JSON document, then the CSV projection,
    which is best effort (its exceptions are caught and reported on the
    console). *)
Definition merge_batches (output_filename : string) : M unit := fun w =>
  let batch_files := List.filter is_batch_file (os_listdir w) in
  match batch_files with
  | [] => (Ok tt, w)
  | _ :: _ =>
      match load_batches w batch_files [] with
      | Raise e => (Raise e, w)
      | Ok all_data =>
          (write_json output_filename (map _make_serializable all_data) ;;;
           match to_csv all_data with
           | Returns text => write_csv (csv_path output_filename) text
           | Throws _ => ret tt
           end) w
      end
  end.

(** The list [all_data] built by [merge_batches] when every batch file is
    a JSON document. *)
Definition merged_data (w : World) : list pyval :=
  foldl (fun all_data batch_file => all_data ++ document w batch_file) []
        (List.filter is_batch_file (os_listdir w)).

Record statistics : Type := mkStats {
  total_scraped : nat;
  failed : nat
}.

Definition get_statistics : M statistics :=
  loaded <- load_checkpoint ;;
  ret (mkStats (length (scraped_app_ids loaded))
               (length (failed_app_ids loaded))).

(** The identifiers the upstream source lets discover: the hits of the
    queries that are answered, the first query being call number [call]. *)
Fixpoint discovered (call : nat) (categories : list string) (n_hits : Z) : gset string :=
  match categories with
  | [] => ∅
  | category :: rest =>
      match search upstream call category n_hits with
      | Returns results => list_to_set (appId <$> results)
      | Throws _ => ∅
      end ∪ discovered (S call) rest n_hits
  end.

(** ** The Retry Policy of the specification

    [execute(operation, max_attempts)] as the specification words it
    (section 4.2), for comparison with the code: up to [max_attempts]
    invocations, every failure reported, a wait of [2^k] seconds between
    attempts [k] and [k+1], failure handed back after the last attempt. *)
Fixpoint spec_execute {A} (operation : M (outcome A)) (report : string -> M unit)
    (k : Z) (attempts_left : nat) : M (option A) :=
  match attempts_left with
  | O => ret None
  | S n =>
      r <- operation ;;
      match r with
      | Returns a => ret (Some a)
      | Throws e =>
          report e ;;;
          match n with
          | O => ret None
          | S _ => sleep (1000 * 2 ^ k) ;;; spec_execute operation report (k + 1) n
          end
      end
  end.

(** The reviews fetch, were it run under that policy; a failure is merged
    in as an empty review list. *)
Definition spec_reviews_under_retry_policy (max_attempts : nat) (app_id : string)
    (count : Z) : M (list pyval) :=
  r <- spec_execute (call_reviews app_id count)
                    (fun e => log_error (reviews_failure_message app_id e))
                    1 max_attempts ;;
  ret (default [] r).

(** ** The batch loop as a step relation

    One iteration of the loop of [batch_scrape_apps], by cases on the
    detail fetch and on the position [idx]; [s] is the second at which a
    flushed batch is stamped. *)
Variant iteration (include_reviews : bool) (reviews_per_app save_interval idx : Z)
    (app_id : string) (st : run_state) (w : World)
  : result run_state -> World -> list event -> Prop :=
| iter_failed r w1 fetch w' :
    runs (scrape_app_safely app_id 3) w (Ok r) w1 fetch ->
    Forall (fetch_event app_id) fetch ->
    r = None \/ r = Some [] ->
    clock w <= clock w' ->
    iteration include_reviews reviews_per_app save_interval idx app_id st w
              (Ok st) w' (fetch ++ [EvSleep 1200])
| iter_crashed entry entries w1 fetch w' :
    runs (scrape_app_safely app_id 3) w (Ok (Some (entry :: entries))) w1 fetch ->
    Forall (fetch_event app_id) fetch ->
    save_interval = 0 ->
    clock w <= clock w' ->
    iteration include_reviews reviews_per_app save_interval idx app_id st w
              (Raise ZeroDivisionError) w'
              (fetch ++ reviews_stage include_reviews app_id reviews_per_app
                                      (reviews upstream (ncalls w1) app_id reviews_per_app))
| iter_kept entry entries w1 fetch w' :
    runs (scrape_app_safely app_id 3) w (Ok (Some (entry :: entries))) w1 fetch ->
    Forall (fetch_event app_id) fetch ->
    save_interval <> 0 ->
    (idx + 1) mod save_interval <> 0 ->
    clock w <= clock w' ->
    let o := reviews upstream (ncalls w1) app_id reviews_per_app in
    iteration include_reviews reviews_per_app save_interval idx app_id st w
              (Ok (mkRun (scraped_data st ++
                            [PDict (with_reviews include_reviews o (entry :: entries))])
                         (scraped_ids st ∪ {[ app_id ]}) (checkpoint st)))
              w'
              (fetch ++ reviews_stage include_reviews app_id reviews_per_app o ++
               [EvSleep 1200])
| iter_flushed entry entries w1 fetch w' s :
    runs (scrape_app_safely app_id 3) w (Ok (Some (entry :: entries))) w1 fetch ->
    Forall (fetch_event app_id) fetch ->
    save_interval <> 0 ->
    (idx + 1) mod save_interval = 0 ->
    now w <= s -> s < now w' ->
    let o := reviews upstream (ncalls w1) app_id reviews_per_app in
    let data := scraped_data st ++
                [PDict (with_reviews include_reviews o (entry :: entries))] in
    let cp := mkCheckpoint (elements (scraped_ids st ∪ {[ app_id ]}))
                           (failed_app_ids (checkpoint st)) in
    iteration include_reviews reviews_per_app save_interval idx app_id st w
              (Ok (mkRun [] (scraped_ids st ∪ {[ app_id ]}) cp))
              w'
              (fetch ++ reviews_stage include_reviews app_id reviews_per_app o ++
               [EvWriteJson (batch_filename (strftime "%Y%m%d_%H%M%S" s))
                            (map _make_serializable data);
                EvSaveCheckpoint cp;
                EvSleep 1200]).

(** The loop over the remaining identifiers, from position [idx]. *)
Inductive looping (include_reviews : bool) (reviews_per_app save_interval : Z)
  : Z -> list string -> run_state -> World ->
    result run_state -> World -> list event -> Prop :=
| loop_done idx st w :
    looping include_reviews reviews_per_app save_interval idx [] st w (Ok st) w []
| loop_step idx app_id rest st w st1 w1 evs1 res w2 evs2 :
    iteration include_reviews reviews_per_app save_interval idx app_id st w
              (Ok st1) w1 evs1 ->
    looping include_reviews reviews_per_app save_interval (idx + 1) rest st1 w1
            res w2 evs2 ->
    looping include_reviews reviews_per_app save_interval idx (app_id :: rest) st w
            res w2 (evs1 ++ evs2)
| loop_raise idx app_id rest st w e w1 evs1 :
    iteration include_reviews reviews_per_app save_interval idx app_id st w
              (Raise e) w1 evs1 ->
    looping include_reviews reviews_per_app save_interval idx (app_id :: rest) st w
            (Raise e) w1 evs1.

(** Second [s] lies between the times of two worlds. *)
Definition in_window (w w' : World) (s : Z) : Prop := now w <= s /\ s < now w'.

(** The flush after the loop, stamped at second [s]. *)
Definition final_flush (s : Z) (st : run_state) : list event :=
  match scraped_data st with
  | [] => []
  | _ :: _ => [EvWriteJson (batch_filename (strftime "%Y%m%d_%H%M%S" s))
                           (map _make_serializable (scraped_data st))]
  end.

(** The checkpoint persisted when the loop is over. *)
Definition final_checkpoint (st : run_state) : Checkpoint :=
  mkCheckpoint (elements (scraped_ids st)) (failed_app_ids (checkpoint st)).

(** The state in which the loop starts, from the checkpoint file. *)
Definition loaded_checkpoint (w : World) : Checkpoint :=
  default (mkCheckpoint [] []) (checkpoint_file w).

Definition initial_state (w : World) : run_state :=
  mkRun [] (list_to_set (scraped_app_ids (loaded_checkpoint w))) (loaded_checkpoint w).

(** ** The pipeline and further readings of a run *)

(** Search queries of a trace: query, cap and whether the call returned. *)
Definition search_calls (evs : list event) : list (string * Z * bool) :=
  omap (fun e => match e with EvSearch q n ok => Some (q, n, ok) | _ => None end) evs.

(** [record] is what the batch loop stores for [app_id]: a populated
    payload returned by the upstream source for it, with the outcome of a
    reviews fetch merged in when reviews are requested. *)
Definition fetched_record (include_reviews : bool) (reviews_per_app : Z)
    (app_id : string) (record : pyval) : Prop :=
  exists n m entry entries,
    app upstream n app_id = Returns (entry :: entries) /\
    record = PDict (with_reviews include_reviews
                                 (reviews upstream m app_id reviews_per_app)
                                 (entry :: entries)).

(** Every detail fetch is answered with a payload whose ['appId'] is the
    identifier asked for. *)
Definition answers_with_identifier (up : Upstream) : Prop :=
  forall n app_id, exists payload,
    app up n app_id = Returns payload /\
    dict_get "appId" payload = Some (PStr app_id).

(** The categories of the [__main__] block. *)
Definition categories : list string :=
  ["social media"; "messaging"; "puzzle games"; "action games";
   "productivity"; "business"; "education"; "learning";
   "fitness"; "health"; "music"; "video streaming";
   "photo editor"; "camera"; "shopping"; "food delivery";
   "travel"; "navigation"; "news"; "weather";
   "finance"; "banking"; "books"; "comics"].

(** The [__main__] block: discovery, batch scraping with reviews, merge,
    statistics. *)
Definition main : M statistics :=
  app_ids <- discover_apps_by_categories categories 30 ;;
  batch_scrape_apps app_ids true 50 20 ;;;
  merge_batches "play_store_apps_complete.json" ;;;
  get_statistics.

End Scraper.

(** ** Sample environments and worlds

    Concrete upstream sources, used to run the model on explicit inputs. *)

Definition sample_payload (app_id : string) : dict :=
  [("appId", PStr app_id); ("title", PStr ("Title of " +:+ app_id)); ("score", PInt 4)].

Definition sample_review (app_id : string) : pyval :=
  PDict [("reviewId", PStr ("r-" +:+ app_id)); ("score", PInt 5); ("at", PDatetime 1700000000)].

(** Every call fails. *)
Definition always_failing : Upstream :=
  mkUpstream (fun _ _ => Throws "HTTP 503")
             (fun _ _ _ => Throws "HTTP 503")
             (fun _ _ _ => Throws "HTTP 503").

(** Every call answers. *)
Definition always_answering : Upstream :=
  mkUpstream (fun _ app_id => Returns (sample_payload app_id))
             (fun _ query _ => Returns [mkHit "com.example.app" []; mkHit ("com." +:+ query) []])
             (fun _ app_id _ => Returns [sample_review app_id]).

(** The very first call fails, every later one answers. *)
Definition failing_once : Upstream :=
  mkUpstream (fun n app_id => match n with O => Throws "timeout" | _ => Returns (sample_payload app_id) end)
             (fun n query _ => match n with O => Throws "timeout" | _ => Returns [mkHit ("com." +:+ query) []] end)
             (fun n app_id _ => match n with O => Throws "timeout" | _ => Returns [sample_review app_id] end).

(** Details always answer; the reviews call fails the first time it is
    issued (call number 1, right after the first detail call). *)
Definition reviews_failing_once : Upstream :=
  mkUpstream (fun _ app_id => Returns (sample_payload app_id))
             (fun _ _ _ => Returns [])
             (fun n app_id _ => match n with 1%nat => Throws "timeout" | _ => Returns [sample_review app_id] end).

(** Details answer, reviews never do. *)
Definition reviews_failing : Upstream :=
  mkUpstream (fun _ app_id => Returns (sample_payload app_id))
             (fun _ _ _ => Returns [])
             (fun _ _ _ => Throws "HTTP 429").

(** The detail fetch of ["com.broken"] always fails, the others answer. *)
Definition one_broken : Upstream :=
  mkUpstream (fun _ app_id => if String.eqb app_id "com.broken" then Throws "HTTP 404"
                              else Returns (sample_payload app_id))
             (fun _ _ _ => Returns [])
             (fun _ app_id _ => Returns [sample_review app_id]).

Definition no_delay : nat -> N := fun _ => 0%N.
Definition decimal_time : string -> Z -> string := fun _ t => pretty t.
Definition decimal_iso : Z -> string := fun t => pretty t.

(** A fresh output directory at time 0. *)
Definition empty_world : World := mkWorld 0 0 0 None [] ∅ [].

(** An output directory holding two batch artifacts, both with a record
    for ["com.example.app"], and a file that is not a batch. *)
Definition two_batches : World :=
  mkWorld 0 0 0 None []
    (<["apps_batch_20240101_120000.json" :=
         JsonFile [PDict (sample_payload "com.example.app")]]>
     (<["apps_batch_20240102_120000.json" :=
          JsonFile [PDict [("appId", PStr "com.example.app");
                           ("title", PStr "Refetched")];
                    PDict (sample_payload "com.other")]]>
      (<["notes.json" := JsonFile [PStr "not a batch"]]> ∅))) [].

(** The CSV projection always succeeds, or always fails. *)
Definition csv_of_length : list pyval -> outcome string :=
  fun data => Returns ("rows: " +:+ pretty (length data)).
Definition csv_failing : list pyval -> outcome string :=
  fun _ => Throws "cannot normalize".

(** [n] distinct identifiers. *)
Definition sample_ids (n : nat) : list string :=
  (fun i => "com.app" +:+ pretty i) <$> seq 0 n.

(** * Properties *)

(** ** Traces and the evolution of the world *)

Lemma calls_in_app evs1 evs2 :
  calls_in (evs1 ++ evs2) = (calls_in evs1 + calls_in evs2)%nat.
Proof. unfold calls_in. by rewrite List.filter_app, length_app. Qed.

Lemma sleeps_app evs1 evs2 : sleeps (evs1 ++ evs2) = sleeps evs1 ++ sleeps evs2.
Proof. apply omap_app. Qed.

Lemma slept_app evs1 evs2 : slept (evs1 ++ evs2) = slept evs1 + slept evs2.
Proof.
  unfold slept. rewrite sleeps_app.
  induction (sleeps evs1) as [|ms l IH]; simpl; [done | lia].
Qed.

Lemma app_calls_app evs1 evs2 :
  app_calls (evs1 ++ evs2) = app_calls evs1 ++ app_calls evs2.
Proof. apply omap_app. Qed.

Lemma reviews_calls_app evs1 evs2 :
  reviews_calls (evs1 ++ evs2) = reviews_calls evs1 ++ reviews_calls evs2.
Proof. apply omap_app. Qed.

Lemma logged_app evs1 evs2 : logged (evs1 ++ evs2) = logged evs1 ++ logged evs2.
Proof. apply omap_app. Qed.

Lemma json_writes_app evs1 evs2 :
  json_writes (evs1 ++ evs2) = json_writes evs1 ++ json_writes evs2.
Proof. apply omap_app. Qed.

Lemma saved_app evs1 evs2 : saved (evs1 ++ evs2) = saved evs1 ++ saved evs2.
Proof. apply omap_app. Qed.

Lemma csv_writes_app evs1 evs2 :
  csv_writes (evs1 ++ evs2) = csv_writes evs1 ++ csv_writes evs2.
Proof. apply omap_app. Qed.

Lemma file_writes_app evs1 evs2 :
  file_writes (evs1 ++ evs2) = file_writes evs1 ++ file_writes evs2.
Proof. apply omap_app. Qed.

(** A JSON document as a file of the directory. *)
Definition as_json (fd : string * list pyval) : string * file := (fd.1, JsonFile fd.2).

(** Without a CSV projection, the files written are the JSON documents. *)
Lemma file_writes_json evs :
  csv_writes evs = [] -> file_writes evs = as_json <$> json_writes evs.
Proof.
  induction evs as [|e evs IH]; [done|].
  destruct e; simpl; try done. intros H. by rewrite IH.
Qed.

Lemma evolves_refl w : evolves w [] w.
Proof.
  split; simpl; try done.
  - by rewrite app_nil_r.
  - unfold slept; simpl; lia.
  - exists []. by rewrite app_nil_r.
Qed.

Lemma evolves_trans w evs1 w1 evs2 w2 :
  evolves w evs1 w1 -> evolves w1 evs2 w2 -> evolves w (evs1 ++ evs2) w2.
Proof.
  intros [T1 N1 C1 K1 D1 (l1 & L1 & F1)] [T2 N2 C2 K2 D2 (l2 & L2 & F2)].
  split.
  - by rewrite T2, T1, app_assoc.
  - rewrite N2, N1, calls_in_app. lia.
  - rewrite slept_app. lia.
  - by rewrite K2, K1, saved_app, foldl_app.
  - by rewrite D2, D1, file_writes_app, foldl_app.
  - exists (l1 ++ l2). split.
    + by rewrite L2, L1, app_assoc.
    + rewrite logged_app. by apply Forall2_app.
Qed.

Lemma runs_eval {A} (m : M A) w r w' evs : runs m w r w' evs -> eval m w = r.
Proof. intros [E _]. unfold eval. by rewrite E. Qed.

Lemma runs_exec {A} (m : M A) w r w' evs : runs m w r w' evs -> exec m w = w'.
Proof. intros [E _]. unfold exec. by rewrite E. Qed.

Lemma runs_emitted {A} (m : M A) w r w' evs : runs m w r w' evs -> emitted m w = evs.
Proof.
  intros [E V]. unfold emitted, exec. rewrite E; simpl.
  rewrite (ev_trace _ _ _ V). by rewrite drop_app_length.
Qed.

Lemma runs_ret {A} (a : A) w : runs (ret a) w (Ok a) w [].
Proof. split; [done | apply evolves_refl]. Qed.

Lemma runs_raise {A} e w : runs (@raise A e) w (Raise e) w [].
Proof. split; [done | apply evolves_refl]. Qed.

Lemma runs_bind {A B} (m : M A) (f : A -> M B) w a w1 evs1 r w2 evs2 :
  runs m w (Ok a) w1 evs1 -> runs (f a) w1 r w2 evs2 ->
  runs (bind m f) w r w2 (evs1 ++ evs2).
Proof.
  intros [E1 V1] [E2 V2]. split.
  - unfold bind. by rewrite E1.
  - by eapply evolves_trans.
Qed.

Lemma runs_cast {A} (m : M A) w r w' evs evs' :
  runs m w r w' evs -> evs = evs' -> runs m w r w' evs'.
Proof. by intros ? <-. Qed.

Lemma runs_ncalls {A} (m : M A) w r w' evs :
  runs m w r w' evs -> ncalls w' = (ncalls w + calls_in evs)%nat.
Proof. intros [_ V]. apply (ev_ncalls _ _ _ V). Qed.

Lemma seqZ_S a n : seqZ a (Z.of_nat (S n)) = a :: seqZ (a + 1) (Z.of_nat n).
Proof.
  rewrite seqZ_cons by lia.
  replace (Z.pred (Z.of_nat (S n))) with (Z.of_nat n) by lia.
  by replace (Z.succ a) with (a + 1) by lia.
Qed.

Lemma runs_bind_raise {A B} (m : M A) (f : A -> M B) w e w1 evs1 :
  runs m w (Raise e) w1 evs1 -> runs (bind m f) w (Raise e) w1 evs1.
Proof.
  intros [E1 V1]. split; [|done]. unfold bind. by rewrite E1.
Qed.

(** ** The checkpoint file: what is written is what is read *)

Lemma scan_escape_char c rest :
  scan_string (escape_char c ++ rest) = push c (scan_string rest).
Proof. destruct c as [[] [] [] [] [] [] [] []]; reflexivity. Qed.

Lemma scan_escape s rest :
  scan_string (flat_map escape_char s ++ quote :: rest) = Some (s, rest).
Proof.
  induction s as [|c s IH]; [done|].
  simpl flat_map. rewrite <- app_assoc, scan_escape_char, IH. done.
Qed.

Lemma parse_json_string s rest :
  parse_string (json_string s ++ rest) = Some (s, rest).
Proof.
  unfold json_string, parse_string. simpl.
  rewrite <- app_assoc. simpl. rewrite scan_escape.
  unfold chars. by rewrite string_of_list_ascii_of_string.
Qed.

Lemma skip_ws_json_string s rest :
  skip_ws (json_string s ++ rest) = json_string s ++ rest.
Proof. reflexivity. Qed.

Lemma json_array_head l rest :
  skip_ws (json_array l ++ rest) = json_array l ++ rest.
Proof. by destruct l. Qed.

#[local] Arguments json_string : simpl never.
#[local] Arguments json_array : simpl never.

Lemma parse_items_next fuel s :
  parse_items (S fuel) (chars "," ++ newline :: chars "    " ++ s)
  = match parse_string (skip_ws s) with
    | Some (item, r1) => push item (parse_items fuel r1)
    | None => None
    end.
Proof. reflexivity. Qed.

Lemma parse_array_first fuel s :
  parse_array fuel (chars "[" ++ newline :: chars "    " ++ s)
  = match skip_ws s with
    | c1 :: r1 =>
        if Ascii.eqb c1 "]"%char then Some ([], r1)
        else match parse_string (c1 :: r1) with
             | Some (item, r2) => push item (parse_items fuel r2)
             | None => None
             end
    | [] => None
    end.
Proof. reflexivity. Qed.

Lemma parse_object_first n s :
  parse_object n (skip_ws (chars "{" ++ newline :: chars "  " ++ s))
  = match skip_ws s with
    | c1 :: r1 =>
        if Ascii.eqb c1 "}"%char then Some ([], r1)
        else match parse_member n (c1 :: r1) with
             | Some (member, r2) => push member (parse_members n n r2)
             | None => None
             end
    | [] => None
    end.
Proof. reflexivity. Qed.

Lemma parse_members_next fuel n s :
  parse_members (S fuel) n (chars "," ++ newline :: chars "  " ++ s)
  = match parse_member n (skip_ws s) with
    | Some (member, r1) => push member (parse_members fuel n r1)
    | None => None
    end.
Proof. reflexivity. Qed.

Lemma parse_members_end fuel n :
  parse_members (S fuel) n (newline :: chars "}") = Some ([], []).
Proof. reflexivity. Qed.

Lemma json_string_quote s rest :
  json_string s ++ rest = quote :: (flat_map escape_char (chars s) ++ [quote]) ++ rest.
Proof. reflexivity. Qed.

Lemma json_items_cons x l :
  json_items (x :: l)
  = chars "," ++ newline :: chars "    " ++ json_string x ++ json_items l.
Proof. reflexivity. Qed.

Lemma json_array_cons x l :
  json_array (x :: l)
  = chars "[" ++ newline :: chars "    " ++ json_string x ++ json_items l.
Proof. reflexivity. Qed.

Ltac normalize_text := repeat (rewrite <- app_assoc || rewrite <- app_comm_cons).

Lemma parse_json_items l :
  forall fuel rest, (length l < fuel)%nat ->
    parse_items fuel (json_items l ++ rest) = Some (l, rest).
Proof.
  induction l as [|x l IH]; intros fuel rest Hfuel.
  - destruct fuel; [lia|]. reflexivity.
  - destruct fuel; [simpl in Hfuel; lia|].
    rewrite json_items_cons. normalize_text.
    rewrite parse_items_next, skip_ws_json_string, parse_json_string.
    rewrite IH by (simpl in Hfuel; lia). done.
Qed.

Lemma parse_json_array l fuel rest :
  (length l < fuel)%nat ->
  parse_array fuel (json_array l ++ rest) = Some (l, rest).
Proof.
  intros Hfuel. destruct l as [|x l]; [done|].
  rewrite json_array_cons. normalize_text.
  rewrite parse_array_first, skip_ws_json_string.
  rewrite json_string_quote at 1. cbv iota.
  change (Ascii.eqb quote "]") with false. cbv iota.
  rewrite <- json_string_quote.
  rewrite parse_json_string, parse_json_items by (simpl in Hfuel; lia). done.
Qed.

Lemma parse_json_member key l fuel rest :
  (length l < fuel)%nat ->
  parse_member fuel (json_string key ++ chars ": " ++ json_array l ++ rest)
  = Some ((key, l), rest).
Proof.
  intros Hfuel. unfold parse_member. rewrite parse_json_string.
  change (skip_ws (chars ": " ++ ?s)) with (":"%char :: " "%char :: s).
  cbv iota. change (Ascii.eqb ":" ":") with true. cbv iota.
  change (skip_ws (" "%char :: ?s)) with (skip_ws s).
  by rewrite json_array_head, parse_json_array.
Qed.

Lemma length_json_items l : (length l <= length (json_items l))%nat.
Proof.
  induction l as [|x l IH]; simpl; [lia|].
  rewrite !length_app. simpl. lia.
Qed.

Lemma length_json_array l : (length l <= length (json_array l))%nat.
Proof.
  destruct l as [|x l]; unfold json_array; simpl; [lia|].
  rewrite !length_app. pose proof (length_json_items l). simpl. lia.
Qed.

(** What [json.load] reads in a file that [json.dump] wrote is the
    checkpoint that was written. *)
Lemma read_checkpoint_json_dump cp : read_checkpoint (json_dump cp) = Ok cp.
Proof.
  destruct cp as [ids failed]. unfold read_checkpoint, json_loads.
  set (n := length (json_dump (mkCheckpoint ids failed))).
  assert (Hn : (length ids + length failed + 2 <= n)%nat).
  { unfold n, json_dump. simpl. rewrite !length_app. simpl. rewrite !length_app.
    pose proof (length_json_array ids). pose proof (length_json_array failed).
    simpl. lia. }
  clearbody n.
  unfold json_dump. cbn [scraped_app_ids failed_app_ids]. normalize_text.
  rewrite parse_object_first, skip_ws_json_string.
  rewrite json_string_quote at 1. cbv iota.
  change (Ascii.eqb quote "}") with false. cbv iota.
  rewrite <- json_string_quote.
  rewrite parse_json_member by lia. unfold push at 1.
  destruct n as [|[|n]]; [lia | lia |].
  rewrite parse_members_next, skip_ws_json_string.
  rewrite parse_json_member by lia.
  rewrite parse_members_end. reflexivity.
Qed.

Section Properties.

Variable upstream : Upstream.
Variable elapsed : nat -> N.
Variable strftime : string -> Z -> string.
Variable isoformat : Z -> string.
Variable to_csv : list pyval -> outcome string.

Notation sleep := (sleep elapsed).
Notation call_app := (call_app upstream elapsed).
Notation call_search := (call_search upstream elapsed).
Notation call_reviews := (call_reviews upstream elapsed).
Notation write_json := (write_json elapsed).
Notation write_csv := (write_csv elapsed).
Notation save_checkpoint := (save_checkpoint elapsed).
Notation log_error := (log_error elapsed strftime).
Notation scrape_attempts := (scrape_attempts upstream elapsed strftime).
Notation scrape_app_safely := (scrape_app_safely upstream elapsed strftime).
Notation scrape_reviews_safely := (scrape_reviews_safely upstream elapsed strftime).
Notation discover_categories := (discover_categories upstream elapsed strftime).
Notation discover_apps_by_categories :=
  (discover_apps_by_categories upstream elapsed strftime).
Notation _make_serializable := (_make_serializable isoformat).
Notation _save_batch := (_save_batch elapsed strftime isoformat).
Notation scrape_one := (scrape_one upstream elapsed strftime isoformat).
Notation scrape_loop := (scrape_loop upstream elapsed strftime isoformat).
Notation batch_scrape_apps := (batch_scrape_apps upstream elapsed strftime isoformat).
Notation merge_batches := (merge_batches elapsed isoformat to_csv).
Notation iteration := (iteration upstream elapsed strftime isoformat).
Notation looping := (looping upstream elapsed strftime isoformat).
Notation final_flush := (final_flush strftime isoformat).
Notation stamped_filename := (stamped_filename strftime).
Notation discovered := (discovered upstream).
Notation fetched_record := (fetched_record upstream).
Notation main := (main upstream elapsed strftime isoformat to_csv).
Notation get_statistics := (get_statistics).

(** ** Primitive operations *)

Ltac prim_evolves :=
  split; simpl; unfold calls_in, slept; simpl;
  first [ done | lia | by (exists []; rewrite app_nil_r)
        | by (eexists [_]; split; [reflexivity|]; repeat constructor; eexists) ].

Lemma sleep_runs ms w :
  exists w', runs (sleep ms) w (Ok tt) w' [EvSleep ms] /\
             clock w + ms <= clock w'.
Proof.
  eexists. split; [split; [reflexivity|]|]; [prim_evolves | simpl; lia].
Qed.

Lemma call_app_runs app_id w :
  exists w', runs (call_app app_id) w (Ok (app upstream (ncalls w) app_id)) w'
                  [EvApp app_id (is_ok (app upstream (ncalls w) app_id))].
Proof. eexists. split; [reflexivity|]. prim_evolves. Qed.

Lemma call_search_runs q n w :
  exists w', runs (call_search q n) w (Ok (search upstream (ncalls w) q n)) w'
                  [EvSearch q n (is_ok (search upstream (ncalls w) q n))].
Proof. eexists. split; [reflexivity|]. prim_evolves. Qed.

Lemma call_reviews_runs app_id count w :
  exists w', runs (call_reviews app_id count) w
                  (Ok (reviews upstream (ncalls w) app_id count)) w'
                  [EvReviews app_id count (is_ok (reviews upstream (ncalls w) app_id count))].
Proof. eexists. split; [reflexivity|]. prim_evolves. Qed.

Lemma write_json_runs f data w :
  exists w', runs (write_json f data) w (Ok tt) w' [EvWriteJson f data].
Proof. eexists. split; [reflexivity|]. prim_evolves. Qed.

Lemma save_checkpoint_runs cp w :
  exists w', runs (save_checkpoint cp) w (Ok tt) w' [EvSaveCheckpoint cp].
Proof. eexists. split; [reflexivity|]. prim_evolves. Qed.

Lemma log_error_runs message w :
  exists w', runs (log_error message) w (Ok tt) w' [EvLogError message].
Proof. eexists. split; [reflexivity|]. prim_evolves. Qed.

Lemma load_checkpoint_runs w :
  runs load_checkpoint w
       (Ok (default (mkCheckpoint [] []) (checkpoint_file w))) w [].
Proof.
  split; [|apply evolves_refl].
  unfold load_checkpoint, checkpoint_text.
  destruct (checkpoint_file w) as [cp|]; [|done]. simpl.
  by rewrite read_checkpoint_json_dump.
Qed.

(** ** The retry loop of [scrape_app_safely] *)

Lemma failed_attempts_S app_id a k :
  failed_attempts app_id a (S k) =
  EvApp app_id false :: EvSleep (1000 * 2 ^ a) :: failed_attempts app_id (a + 1) k.
Proof. unfold failed_attempts. by rewrite seqZ_S. Qed.

Ltac step R := eapply runs_bind; [exact R|]; cbv beta iota.

(** The first [k] attempts fail and the next one returns. *)
Lemma scrape_attempts_success app_id retries d (k : nat) :
  forall (n : nat) (a : Z) w,
    a + Z.of_nat n = retries -> (k < n)%nat ->
    (forall j, (j < k)%nat -> is_ok (app upstream (ncalls w + j) app_id) = false) ->
    app upstream (ncalls w + k) app_id = Returns d ->
    exists w', runs (scrape_attempts app_id retries (seqZ a (Z.of_nat n))) w
                    (Ok (Some d)) w'
                    (failed_attempts app_id a k ++ [EvApp app_id true]).
Proof.
  induction k as [|k IH]; intros n a w Ha Hk Hfail Hok;
    (destruct n as [|n]; [lia|]); rewrite seqZ_S;
    destruct (call_app_runs app_id w) as (w1 & R1).
  - rewrite Nat.add_0_r in Hok. rewrite Hok in R1.
    exists w1. eapply runs_cast; [step R1; apply runs_ret | done].
  - pose proof (Hfail 0%nat ltac:(lia)) as H0. rewrite Nat.add_0_r in H0.
    destruct (app upstream (ncalls w) app_id) as [d0|e] eqn:E0; [done|].
    destruct (sleep_runs (1000 * 2 ^ a) w1) as (w2 & R2 & _).
    assert (N2 : ncalls w2 = S (ncalls w)).
    { rewrite (runs_ncalls _ _ _ _ _ R2), (runs_ncalls _ _ _ _ _ R1).
      unfold calls_in; simpl. lia. }
    destruct (IH n (a + 1) w2) as (w3 & R3); [lia | lia | | |].
    + intros j Hj. rewrite N2.
      replace (S (ncalls w) + j)%nat with (ncalls w + S j)%nat by lia.
      apply Hfail. lia.
    + rewrite N2.
      by replace (S (ncalls w) + k)%nat with (ncalls w + S k)%nat by lia.
    + exists w3. eapply runs_cast.
      * step R1. simpl scrape_attempts.
        replace (a =? retries - 1) with false by (symmetry; apply Z.eqb_neq; lia).
        step R2. exact R3.
      * by rewrite failed_attempts_S.
Qed.

(** All the attempts fail; [e] is the message of the last failure. *)
Lemma scrape_attempts_exhausted app_id retries e :
  forall (n : nat) (a : Z) w,
    a + Z.of_nat (S n) = retries ->
    (forall j, (j < S n)%nat -> is_ok (app upstream (ncalls w + j) app_id) = false) ->
    app upstream (ncalls w + n) app_id = Throws e ->
    exists w', runs (scrape_attempts app_id retries (seqZ a (Z.of_nat (S n)))) w
                    (Ok None) w'
                    (failed_attempts app_id a n ++
                     [EvApp app_id false; EvLogError (failure_message app_id e)]).
Proof.
  induction n as [|n IH]; intros a w Ha Hfail Hlast; rewrite seqZ_S;
    destruct (call_app_runs app_id w) as (w1 & R1).
  - rewrite Nat.add_0_r in Hlast. rewrite Hlast in R1.
    destruct (log_error_runs (failure_message app_id e) w1) as (w2 & R2).
    exists w2. eapply runs_cast.
    + step R1. simpl scrape_attempts.
      replace (a =? retries - 1) with true by (symmetry; apply Z.eqb_eq; lia).
      step R2. apply runs_ret.
    + done.
  - pose proof (Hfail 0%nat ltac:(lia)) as H0. rewrite Nat.add_0_r in H0.
    destruct (app upstream (ncalls w) app_id) as [d0|e0] eqn:E0; [done|].
    destruct (sleep_runs (1000 * 2 ^ a) w1) as (w2 & R2 & _).
    assert (N2 : ncalls w2 = S (ncalls w)).
    { rewrite (runs_ncalls _ _ _ _ _ R2), (runs_ncalls _ _ _ _ _ R1).
      unfold calls_in; simpl. lia. }
    destruct (IH (a + 1) w2) as (w3 & R3); [lia | | |].
    + intros j Hj. rewrite N2.
      replace (S (ncalls w) + j)%nat with (ncalls w + S j)%nat by lia.
      apply Hfail. lia.
    + rewrite N2.
      by replace (S (ncalls w) + n)%nat with (ncalls w + S n)%nat by lia.
    + exists w3. eapply runs_cast.
      * step R1. simpl scrape_attempts.
        replace (a =? retries - 1) with false by (symmetry; apply Z.eqb_neq; lia).
        step R2. exact R3.
      * by rewrite failed_attempts_S.
Qed.

(** Whatever the upstream source does, the retry loop returns normally
    and only fetches. *)
Lemma scrape_attempts_total app_id retries attempts :
  forall w, exists r w' evs,
    runs (scrape_attempts app_id retries attempts) w (Ok r) w' evs /\
    Forall (fetch_event app_id) evs /\
    reviews_calls evs = [] /\
    match r with
    | Some d => exists j, (j < length attempts)%nat /\
                          app upstream (ncalls w + j) app_id = Returns d
    | None => True
    end /\
    match attempts with
    | [] => evs = []
    | _ :: _ => exists rest,
        evs = EvApp app_id (is_ok (app upstream (ncalls w) app_id)) :: rest
    end.
Proof.
  induction attempts as [|attempt rest IH]; intros w.
  - exists None, w, []. split; [apply runs_ret | done].
  - destruct (call_app_runs app_id w) as (w1 & R1).
    destruct (app upstream (ncalls w) app_id) as [d|e] eqn:E0.
    + exists (Some d), w1, [EvApp app_id true]. split; [|split; [|split; [|split]]].
      * eapply runs_cast; [step R1; apply runs_ret | done].
      * by repeat constructor.
      * done.
      * exists 0%nat. rewrite Nat.add_0_r. split; [simpl; lia | done].
      * by eexists.
    + simpl scrape_attempts. destruct (attempt =? retries - 1) eqn:Elast.
      * destruct (log_error_runs (failure_message app_id e) w1) as (w2 & R2).
        exists None, w2, [EvApp app_id false; EvLogError (failure_message app_id e)].
        split; [|split; [|split; [|split]]];
          [| by repeat constructor | done | done | by eexists].
        eapply runs_cast; [step R1; step R2; apply runs_ret | done].
      * destruct (sleep_runs (1000 * 2 ^ attempt) w1) as (w2 & R2 & _).
        destruct (IH w2) as (r & w3 & evs & R3 & F3 & V3 & D3 & _).
        exists r, w3, ([EvApp app_id false] ++ [EvSleep (1000 * 2 ^ attempt)] ++ evs).
        split; [|split; [|split; [|split]]].
        -- step R1. step R2. exact R3.
        -- repeat constructor; [simpl; lia | done].
        -- done.
        -- destruct r as [d|]; [|done]. destruct D3 as (j & Hj & D3).
           exists (S j). split; [simpl; lia|].
           rewrite (runs_ncalls _ _ _ _ _ R2), (runs_ncalls _ _ _ _ _ R1) in D3.
           unfold calls_in in D3; simpl in D3. rewrite <- D3. f_equal. lia.
        -- by eexists.
Qed.

Lemma scrape_attempts_starts app_id retries :
  forall (k n : nat) (a : Z) w,
    a + Z.of_nat n = retries -> (k < n)%nat ->
    (forall j, (j < k)%nat -> is_ok (app upstream (ncalls w + j) app_id) = false) ->
    exists r w' ok rest,
      runs (scrape_attempts app_id retries (seqZ a (Z.of_nat n))) w (Ok r) w'
           (failed_attempts app_id a k ++ EvApp app_id ok :: rest).
Proof.
  induction k as [|k IH]; intros n a w Ha Hk Hfail;
    (destruct n as [|n]; [lia|]).
  - destruct (scrape_attempts_total app_id retries (seqZ a (Z.of_nat (S n))) w)
      as (r & w' & evs & R & _ & _ & _ & S).
    rewrite seqZ_S in *. destruct S as (rest & ->). eexists r, w', _, rest. exact R.
  - rewrite seqZ_S. destruct (call_app_runs app_id w) as (w1 & R1).
    pose proof (Hfail 0%nat ltac:(lia)) as H0. rewrite Nat.add_0_r in H0.
    destruct (app upstream (ncalls w) app_id) as [d0|e] eqn:E0; [done|].
    destruct (sleep_runs (1000 * 2 ^ a) w1) as (w2 & R2 & _).
    assert (N2 : ncalls w2 = S (ncalls w)).
    { rewrite (runs_ncalls _ _ _ _ _ R2), (runs_ncalls _ _ _ _ _ R1).
      unfold calls_in; simpl. lia. }
    destruct (IH n (a + 1) w2) as (r & w3 & ok & rest & R3); [lia | lia | |].
    + intros j Hj. rewrite N2.
      replace (S (ncalls w) + j)%nat with (ncalls w + S j)%nat by lia.
      apply Hfail. lia.
    + exists r, w3, ok, rest. eapply runs_cast.
      * step R1. simpl scrape_attempts.
        replace (a =? retries - 1) with false by (symmetry; apply Z.eqb_neq; lia).
        step R2. exact R3.
      * by rewrite failed_attempts_S.
Qed.

Lemma length_failed_attempts app_id k :
  forall a, length (failed_attempts app_id a k) = (2 * k)%nat.
Proof.
  induction k as [|k IH]; intros a; [done|].
  rewrite failed_attempts_S. simpl. rewrite IH. lia.
Qed.

Lemma failed_attempts_snoc app_id k :
  forall a, failed_attempts app_id a (S k) =
            failed_attempts app_id a k ++
            [EvApp app_id false; EvSleep (1000 * 2 ^ (a + Z.of_nat k))].
Proof.
  induction k as [|k IH]; intros a.
  - rewrite failed_attempts_S. simpl. by rewrite Z.add_0_r.
  - rewrite failed_attempts_S, IH, failed_attempts_S. simpl.
    by replace (a + 1 + Z.of_nat k) with (a + Z.of_nat (S k)) by lia.
Qed.

Lemma sleeps_failed_attempts app_id k :
  forall a, sleeps (failed_attempts app_id a k) =
            (fun attempt => 1000 * 2 ^ attempt) <$> seqZ a (Z.of_nat k).
Proof.
  induction k as [|k IH]; intros a; [done|].
  rewrite failed_attempts_S, seqZ_S. simpl. by rewrite <- IH.
Qed.

Lemma logged_failed_attempts app_id k :
  forall a, logged (failed_attempts app_id a k) = [].
Proof.
  induction k as [|k IH]; intros a; [done|].
  rewrite failed_attempts_S. simpl. apply IH.
Qed.

Lemma app_calls_failed_attempts app_id k :
  forall a, app_calls (failed_attempts app_id a k) = replicate k (app_id, false).
Proof.
  induction k as [|k IH]; intros a; [done|].
  rewrite failed_attempts_S. simpl. by rewrite IH.
Qed.

Lemma evolves_log_nil w evs w' :
  evolves w evs w' -> logged evs = [] -> error_log_file w' = error_log_file w.
Proof.
  intros V E. destruct (ev_log _ _ _ V) as (lines & -> & F).
  rewrite E in F. apply Forall2_nil_inv_r in F. subst. by rewrite app_nil_r.
Qed.

Lemma evolves_log_one w evs w' message :
  evolves w evs w' -> logged evs = [message] ->
  exists line, error_log_file w' = error_log_file w ++ [line] /\
               is_log_line line message.
Proof.
  intros V E. destruct (ev_log _ _ _ V) as (lines & -> & F).
  rewrite E in F. apply Forall2_cons_inv_r in F as (line & l' & L & F & ->).
  apply Forall2_nil_inv_r in F. subst. by exists line.
Qed.

(** C5 (amended): for every attempt index [k] with [1 <= k < retries]
    (attempts counted from 1), when the first [k] attempts of
    [scrape_app_safely] fail, the event that follows the [k]-th failed call
    and precedes the call of attempt [k+1] is a wait of [2^(k-1)] seconds
    (1 second after the first failure, 2 after the second, ...). *)
Theorem backoff_between_attempts app_id retries (k : nat) w :
  (1 <= k)%nat -> Z.of_nat k < retries ->
  (forall j, (j < k)%nat -> is_ok (app upstream (ncalls w + j) app_id) = false) ->
  let evs := emitted (scrape_app_safely app_id retries) w in
  evs !! (2 * k - 2)%nat = Some (EvApp app_id false) /\
  evs !! (2 * k - 1)%nat = Some (EvSleep (1000 * 2 ^ (Z.of_nat k - 1))) /\
  (exists ok, evs !! (2 * k)%nat = Some (EvApp app_id ok)) /\
  sleeps evs !! (k - 1)%nat = Some (1000 * 2 ^ (Z.of_nat k - 1)).
Proof.
  intros Hk1 Hk Hfail evs.
  destruct (scrape_attempts_starts app_id retries k (Z.to_nat retries) 0 w)
    as (r & w' & ok & rest & R); [lia | lia | done |].
  replace (Z.of_nat (Z.to_nat retries)) with retries in R by lia.
  assert (E : evs = failed_attempts app_id 0 k ++ EvApp app_id ok :: rest).
  { subst evs. by apply (runs_emitted _ _ _ _ _ R). }
  clearbody evs. subst evs.
  destruct k as [|k]; [lia|].
  rewrite failed_attempts_snoc, <- app_assoc. simpl app.
  pose proof (length_failed_attempts app_id k 0) as L.
  replace (Z.of_nat (S k) - 1) with (0 + Z.of_nat k) by lia.
  repeat split.
  - rewrite lookup_app_r by lia. by replace (2 * S k - 2 - _)%nat with 0%nat by lia.
  - rewrite lookup_app_r by lia. by replace (2 * S k - 1 - _)%nat with 1%nat by lia.
  - exists ok. rewrite lookup_app_r by lia.
    by replace (2 * S k - _)%nat with 2%nat by lia.
  - rewrite sleeps_app, sleeps_failed_attempts. simpl.
    rewrite lookup_app_r; rewrite length_fmap, length_seqZ; [|lia].
    by replace (S k - 1 - _)%nat with 0%nat by lia.
Qed.

(** C6 (amended): [scrape_app_safely] never raises.  A failed attempt that
    is not the last one is followed by a wait and reported nowhere: when an
    attempt returns after [k] failures the error log is unchanged.  Only
    when all the [retries] attempts fail is one line, carrying the message
    of the last failure, appended to the error log, and the method returns
    [None]. *)
Theorem error_log_on_final_failure_only app_id retries w :
  let m := scrape_app_safely app_id retries in
  (exists r, eval m w = Ok r) /\
  (forall (k : nat) d, Z.of_nat k < retries ->
     (forall j, (j < k)%nat -> is_ok (app upstream (ncalls w + j) app_id) = false) ->
     app upstream (ncalls w + k) app_id = Returns d ->
     eval m w = Ok (Some d) /\
     app_calls (emitted m w) = replicate k (app_id, false) ++ [(app_id, true)] /\
     logged (emitted m w) = [] /\
     error_log_file (exec m w) = error_log_file w) /\
  (forall (n : nat) e, retries = Z.of_nat (S n) ->
     (forall j, (j < S n)%nat -> is_ok (app upstream (ncalls w + j) app_id) = false) ->
     app upstream (ncalls w + n) app_id = Throws e ->
     eval m w = Ok None /\
     app_calls (emitted m w) = replicate (S n) (app_id, false) /\
     logged (emitted m w) = [failure_message app_id e] /\
     exists line, error_log_file (exec m w) = error_log_file w ++ [line] /\
                  is_log_line line (failure_message app_id e)).
Proof.
  intros m. split; [|split].
  - destruct (scrape_attempts_total app_id retries (seqZ 0 retries) w)
      as (r & w' & evs & R & _).
    exists r. apply (runs_eval _ _ _ _ _ R).
  - intros k d Hk Hfail Hok.
    destruct (scrape_attempts_success app_id retries d k (Z.to_nat retries) 0 w)
      as (w' & R); [lia | lia | done | done |].
    replace (Z.of_nat (Z.to_nat retries)) with retries in R by lia.
    fold (scrape_app_safely app_id retries) in R. fold m in R.
    rewrite (runs_eval _ _ _ _ _ R), (runs_emitted _ _ _ _ _ R), (runs_exec _ _ _ _ _ R).
    assert (L : logged (failed_attempts app_id 0 k ++ [EvApp app_id true]) = []).
    { by rewrite logged_app, logged_failed_attempts. }
    repeat split; [| done |].
    + by rewrite app_calls_app, app_calls_failed_attempts.
    + by apply (evolves_log_nil _ _ _ (proj2 R)).
  - intros n e -> Hfail Hlast.
    destruct (scrape_attempts_exhausted app_id (Z.of_nat (S n)) e n 0 w)
      as (w' & R); [lia | done | done |].
    fold (scrape_app_safely app_id (Z.of_nat (S n))) in R. fold m in R.
    rewrite (runs_eval _ _ _ _ _ R), (runs_emitted _ _ _ _ _ R), (runs_exec _ _ _ _ _ R).
    assert (L : logged (failed_attempts app_id 0 n ++
                        [EvApp app_id false; EvLogError (failure_message app_id e)])
                = [failure_message app_id e]).
    { by rewrite logged_app, logged_failed_attempts. }
    repeat split; [| done |].
    + rewrite app_calls_app, app_calls_failed_attempts. simpl.
      change [(app_id, false)] with (replicate 1 (app_id, false)).
      rewrite <- replicate_add. by replace (n + 1)%nat with (S n) by lia.
    + by apply (evolves_log_one _ _ _ _ (proj2 R)).
Qed.

(** ** One iteration of the batch loop *)

Lemma scrape_reviews_safely_runs app_id count w :
  let o := reviews upstream (ncalls w) app_id count in
  exists w', runs (scrape_reviews_safely app_id count) w (Ok (reviews_result o)) w'
                  (reviews_events app_id count o).
Proof.
  intros o. destruct (call_reviews_runs app_id count w) as (w1 & R1).
  fold o in R1. destruct o as [result|e]; simpl in *.
  - exists w1. eapply runs_cast; [step R1; apply runs_ret | done].
  - destruct (log_error_runs (reviews_failure_message app_id e) w1) as (w2 & R2).
    exists w2. eapply runs_cast; [step R1; step R2; apply runs_ret | done].
Qed.

Lemma _save_batch_nil w : _save_batch [] w = (Ok tt, w).
Proof. done. Qed.

Lemma _save_batch_runs data w :
  data <> [] ->
  exists w', runs (_save_batch data) w (Ok tt) w'
                  [EvWriteJson (batch_filename (strftime "%Y%m%d_%H%M%S" (now w)))
                               (map _make_serializable data)].
Proof.
  intros Hne. destruct data as [|item data]; [done|].
  apply write_json_runs.
Qed.

Lemma slept_fetch_nonneg app_id evs : Forall (fetch_event app_id) evs -> 0 <= slept evs.
Proof.
  unfold slept. induction 1 as [|e evs He _ IH]; simpl; [done|].
  destruct e; simpl in *; try done. lia.
Qed.

Lemma slept_reviews_stage include_reviews app_id count o :
  slept (reviews_stage include_reviews app_id count o) = 0.
Proof. by destruct include_reviews, o. Qed.

Lemma now_mono w w' : clock w <= clock w' -> now w <= now w'.
Proof. intros H. unfold now. apply Z.div_le_mono; lia. Qed.

Lemma now_after_pause w w' : clock w + 1200 <= clock w' -> now w < now w'.
Proof.
  intros H. unfold now.
  assert (clock w / 1000 + 1 <= clock w' / 1000); [|lia].
  replace (clock w / 1000 + 1) with ((clock w + 1 * 1000) / 1000)
    by (rewrite Z.div_add by lia; lia).
  apply Z.div_le_mono; lia.
Qed.

Lemma runs_clock {A} (m : M A) w r w' evs :
  runs m w r w' evs -> clock w + slept evs <= clock w'.
Proof. intros [_ V]. apply (ev_clock _ _ _ V). Qed.

Lemma reviews_stage_runs (include_reviews : bool) app_id count payload w :
  let o := reviews upstream (ncalls w) app_id count in
  exists w',
    runs (if include_reviews
          then (app_reviews <- scrape_reviews_safely app_id count ;;
                ret (dict_set "scraped_reviews" (PList app_reviews) payload))
          else ret payload) w
         (Ok (with_reviews include_reviews o payload)) w'
         (reviews_stage include_reviews app_id count o).
Proof.
  intros o. destruct include_reviews; simpl.
  - destruct (scrape_reviews_safely_runs app_id count w) as (w' & R).
    exists w'. eapply runs_cast; [step R; apply runs_ret | by rewrite app_nil_r].
  - exists w. apply runs_ret.
Qed.

Lemma scrape_one_iteration include_reviews reviews_per_app save_interval idx app_id st w :
  exists res w' evs,
    runs (scrape_one include_reviews reviews_per_app save_interval idx app_id st)
         w res w' evs /\
    iteration include_reviews reviews_per_app save_interval idx app_id st w res w' evs.
Proof.
  destruct (scrape_attempts_total app_id 3 (seqZ 0 3) w)
    as (r & w1 & fetch & R1 & F1 & _).
  fold (scrape_app_safely app_id 3) in R1.
  pose proof (slept_fetch_nonneg _ _ F1) as S1.
  pose proof (runs_clock _ _ _ _ _ R1) as C1.
  assert (Hskip : r = None \/ r = Some [] ->
    exists res w' evs,
      runs (scrape_one include_reviews reviews_per_app save_interval idx app_id st)
           w res w' evs /\
      iteration include_reviews reviews_per_app save_interval idx app_id st w res w' evs).
  { intros Hr. destruct (sleep_runs 1200 w1) as (w2 & R2 & C2).
    exists (Ok st), w2, (fetch ++ [EvSleep 1200]). split.
    - eapply runs_cast.
      + unfold scrape_one. step R1.
        eapply runs_bind; [instantiate (3 := st); instantiate (2 := w1);
                           instantiate (1 := []);
                           destruct Hr as [-> | ->]; apply runs_ret|].
        cbv beta iota. step R2. apply runs_ret.
      + done.
    - eapply iter_failed; eauto. lia. }
  destruct r as [[|entry entries]|]; [apply Hskip; by right | | apply Hskip; by left].
  clear Hskip.
  set (o := reviews upstream (ncalls w1) app_id reviews_per_app).
  destruct (reviews_stage_runs include_reviews app_id reviews_per_app
                               (entry :: entries) w1) as (w2 & R2).
  fold o in R2.
  pose proof (runs_clock _ _ _ _ _ R2) as C2.
  rewrite slept_reviews_stage in C2.
  destruct (Z.eq_dec save_interval 0) as [Hz | Hnz].
  { exists (Raise ZeroDivisionError), w2,
      (fetch ++ reviews_stage include_reviews app_id reviews_per_app o).
    split.
    - unfold scrape_one. step R1.
      eapply runs_cast.
      + eapply runs_bind_raise. step R2.
        unfold py_mod. replace (save_interval =? 0) with true
          by (symmetry; by apply Z.eqb_eq).
        eapply runs_bind_raise. apply runs_raise.
      + by rewrite app_nil_r.
    - eapply iter_crashed; eauto. lia. }
  assert (Rmod : runs (py_mod (idx + 1) save_interval) w2
                      (Ok ((idx + 1) mod save_interval)) w2 []).
  { unfold py_mod. replace (save_interval =? 0) with false
      by (symmetry; by apply Z.eqb_neq).
    apply runs_ret. }
  destruct (Z.eq_dec ((idx + 1) mod save_interval) 0) as [Hdue | Hnot].
  - set (data := scraped_data st ++
                 [PDict (with_reviews include_reviews o (entry :: entries))]).
    set (cp := mkCheckpoint (elements (scraped_ids st ∪ {[ app_id ]}))
                            (failed_app_ids (checkpoint st))).
    destruct (_save_batch_runs data w2) as (w3 & R3).
    { unfold data. by destruct (scraped_data st). }
    destruct (save_checkpoint_runs cp w3) as (w4 & R4).
    destruct (sleep_runs 1200 w4) as (w5 & R5 & C5).
    pose proof (runs_clock _ _ _ _ _ R3) as C3.
    pose proof (runs_clock _ _ _ _ _ R4) as C4.
    unfold slept in C3, C4; simpl in C3, C4.
    exists (Ok (mkRun [] (scraped_ids st ∪ {[ app_id ]}) cp)), w5,
      (fetch ++ reviews_stage include_reviews app_id reviews_per_app o ++
       [EvWriteJson (batch_filename (strftime "%Y%m%d_%H%M%S" (now w2)))
                    (map _make_serializable data);
        EvSaveCheckpoint cp; EvSleep 1200]).
    split.
    + unfold scrape_one. step R1. eapply runs_cast.
      * eapply runs_bind.
        -- step R2. step Rmod. rewrite Hdue. simpl.
           step R3. step R4. apply runs_ret.
        -- cbv beta iota. step R5. apply runs_ret.
      * simpl. by rewrite <- !app_assoc.
    + eapply iter_flushed; eauto.
      * apply now_mono. lia.
      * apply now_after_pause. lia.
  - destruct (sleep_runs 1200 w2) as (w3 & R3 & C3).
    eexists (Ok (mkRun _ _ _)), w3,
      (fetch ++ reviews_stage include_reviews app_id reviews_per_app o ++ [EvSleep 1200]).
    split.
    + unfold scrape_one. step R1. eapply runs_cast.
      * eapply runs_bind.
        -- step R2. step Rmod.
           replace ((idx + 1) mod save_interval =? 0) with false
             by (symmetry; by apply Z.eqb_neq).
           apply runs_ret.
        -- cbv beta iota. step R3. apply runs_ret.
      * simpl. by rewrite <- ?app_assoc, ?app_nil_r.
    + eapply iter_kept; eauto. lia.
Qed.

Lemma scrape_loop_looping include_reviews reviews_per_app save_interval remaining_ids :
  forall idx st w, exists res w' evs,
    runs (scrape_loop include_reviews reviews_per_app save_interval idx remaining_ids st)
         w res w' evs /\
    looping include_reviews reviews_per_app save_interval idx remaining_ids st w
            res w' evs.
Proof.
  induction remaining_ids as [|app_id rest IH]; intros idx st w.
  - exists (Ok st), w, []. split; [apply runs_ret | constructor].
  - destruct (scrape_one_iteration include_reviews reviews_per_app save_interval
                                   idx app_id st w) as (res & w1 & evs1 & R1 & I1).
    destruct res as [st1|e].
    + destruct (IH (idx + 1) st1 w1) as (res & w2 & evs2 & R2 & L2).
      exists res, w2, (evs1 ++ evs2). split.
      * simpl. step R1. exact R2.
      * eapply loop_step; eauto.
    + exists (Raise e), w1, evs1. split.
      * simpl. by apply runs_bind_raise.
      * by eapply loop_raise.
Qed.

(** ** A whole run of [batch_scrape_apps] *)

Lemma final_flush_runs st w :
  exists w', runs (match scraped_data st with
                   | [] => ret tt
                   | _ :: _ => _save_batch (scraped_data st)
                   end) w (Ok tt) w' (final_flush (now w) st).
Proof.
  unfold final_flush. destruct (scraped_data st) as [|item data] eqn:E.
  - exists w. apply runs_ret.
  - by apply _save_batch_runs.
Qed.

Lemma batch_scrape_apps_noop app_ids include_reviews reviews_per_app save_interval w :
  remaining app_ids (scraped_ids (initial_state w)) = [] ->
  batch_scrape_apps app_ids include_reviews reviews_per_app save_interval w = (Ok tt, w).
Proof.
  intros Hrem. unfold batch_scrape_apps, bind.
  rewrite (proj1 (load_checkpoint_runs w)).
  unfold initial_state, loaded_checkpoint in Hrem. simpl in *. by rewrite Hrem.
Qed.

Lemma batch_scrape_apps_looping app_ids include_reviews reviews_per_app save_interval w :
  remaining app_ids (scraped_ids (initial_state w)) <> [] ->
  exists res w1 evs,
    looping include_reviews reviews_per_app save_interval 0
            (remaining app_ids (scraped_ids (initial_state w))) (initial_state w) w
            res w1 evs /\
    match res with
    | Raise e =>
        runs (batch_scrape_apps app_ids include_reviews reviews_per_app save_interval)
             w (Raise e) w1 evs
    | Ok st =>
        exists w', runs (batch_scrape_apps app_ids include_reviews reviews_per_app
                                           save_interval)
                        w (Ok tt) w'
                        (evs ++ final_flush (now w1) st ++
                         [EvSaveCheckpoint (final_checkpoint st)])
    end.
Proof.
  intros Hrem.
  destruct (scrape_loop_looping include_reviews reviews_per_app save_interval
              (remaining app_ids (scraped_ids (initial_state w))) 0 (initial_state w) w)
    as (res & w1 & evs & R & L).
  exists res, w1, evs. split; [done|].
  pose proof (load_checkpoint_runs w) as R0. fold (loaded_checkpoint w) in R0.
  destruct res as [st|e].
  - destruct (final_flush_runs st w1) as (w2 & R2).
    destruct (save_checkpoint_runs (final_checkpoint st) w2) as (w3 & R3).
    exists w3. eapply runs_cast.
    + unfold batch_scrape_apps. step R0.
      fold (initial_state w).
      destruct (remaining app_ids (scraped_ids (initial_state w))) as [|x l] eqn:E;
        [done|].
      step R. step R2. exact R3.
    + done.
  - eapply runs_cast.
    + unfold batch_scrape_apps. step R0.
      fold (initial_state w).
      destruct (remaining app_ids (scraped_ids (initial_state w))) as [|x l] eqn:E;
        [done|].
      eapply runs_bind_raise. exact R.
    + done.
Qed.

Lemma emitted_noop {A} (m : M A) w r : m w = (r, w) -> emitted m w = [].
Proof.
  intros E. unfold emitted, exec. rewrite E. simpl. by rewrite drop_all.
Qed.

(** ** Files written by a run *)

Lemma json_writes_fetch app_id evs :
  Forall (fetch_event app_id) evs -> json_writes evs = [].
Proof.
  induction 1 as [|e evs He _ IH]; [done|]. by destruct e.
Qed.

Lemma saved_fetch app_id evs : Forall (fetch_event app_id) evs -> saved evs = [].
Proof.
  induction 1 as [|e evs He _ IH]; [done|]. by destruct e.
Qed.

Lemma json_writes_reviews_stage include_reviews app_id count o :
  json_writes (reviews_stage include_reviews app_id count o) = [].
Proof. by destruct include_reviews, o. Qed.

Lemma saved_reviews_stage include_reviews app_id count o :
  saved (reviews_stage include_reviews app_id count o) = [].
Proof. by destruct include_reviews, o. Qed.

Lemma csv_writes_fetch app_id evs :
  Forall (fetch_event app_id) evs -> csv_writes evs = [].
Proof.
  induction 1 as [|e evs He _ IH]; [done|]. by destruct e.
Qed.

Lemma csv_writes_reviews_stage include_reviews app_id count o :
  csv_writes (reviews_stage include_reviews app_id count o) = [].
Proof. by destruct include_reviews, o. Qed.

(** The batch loop writes no CSV projection. *)
Lemma iteration_csv_writes include_reviews reviews_per_app save_interval idx app_id
    st w res w' evs :
  iteration include_reviews reviews_per_app save_interval idx app_id st w res w' evs ->
  csv_writes evs = [].
Proof.
  destruct 1; by rewrite ?csv_writes_app, ?(csv_writes_fetch _ _ H0),
                         ?csv_writes_reviews_stage.
Qed.

Lemma looping_csv_writes include_reviews reviews_per_app save_interval idx ids
    st w res w' evs :
  looping include_reviews reviews_per_app save_interval idx ids st w res w' evs ->
  csv_writes evs = [].
Proof.
  induction 1 as [| ? ? ? ? ? ? ? ? ? ? ? I L IH | ? ? ? ? ? ? ? ? I].
  - done.
  - by rewrite csv_writes_app, (iteration_csv_writes _ _ _ _ _ _ _ _ _ _ I), IH.
  - by apply (iteration_csv_writes _ _ _ _ _ _ _ _ _ _ I).
Qed.

(** The documents written by one iteration: none, or the accumulator
    extended by the record just fetched. *)
Lemma iteration_json_writes include_reviews reviews_per_app save_interval idx app_id
    st w res w' evs :
  iteration include_reviews reviews_per_app save_interval idx app_id st w res w' evs ->
  json_writes evs = [] \/
  exists f record, json_writes evs =
                   [(f, map _make_serializable (scraped_data st ++ [record]))].
Proof.
  destruct 1; rewrite ?json_writes_app, ?(json_writes_fetch _ _ H0),
                ?json_writes_reviews_stage; simpl; eauto.
Qed.

Lemma looping_writes_nonempty include_reviews reviews_per_app save_interval idx ids
    st w res w' evs :
  looping include_reviews reviews_per_app save_interval idx ids st w res w' evs ->
  Forall nonempty_document (json_writes evs).
Proof.
  induction 1 as [| ? ? ? ? ? ? ? ? ? ? ? I L IH | ? ? ? ? ? ? ? ? I].
  - constructor.
  - rewrite json_writes_app. apply Forall_app. split; [|done].
    destruct (iteration_json_writes _ _ _ _ _ _ _ _ _ _ I) as [-> | (f & r & ->)];
      repeat constructor.
    unfold nonempty_document. simpl. by destruct (scraped_data st).
  - destruct (iteration_json_writes _ _ _ _ _ _ _ _ _ _ I) as [-> | (f & r & ->)];
      repeat constructor.
    unfold nonempty_document. simpl. by destruct (scraped_data st).
Qed.

(** C9: flushing an empty accumulator is a no-op ([_save_batch] returns
    without writing when given empty data), and every batch artifact
    written by a run of the Batch Runner holds at least one record. *)
Theorem no_empty_batch_artifact app_ids (include_reviews : bool) reviews_per_app
    save_interval w :
  (forall w0, _save_batch [] w0 = (Ok tt, w0)) /\
  Forall (fun fd => fd.2 <> [])
         (json_writes (emitted (batch_scrape_apps app_ids include_reviews
                                                  reviews_per_app save_interval) w)).
Proof.
  split; [done|].
  destruct (decide (remaining app_ids (scraped_ids (initial_state w)) = []))
    as [Hrem | Hrem].
  - rewrite (emitted_noop _ _ _ (batch_scrape_apps_noop _ _ _ _ _ Hrem)). constructor.
  - destruct (batch_scrape_apps_looping app_ids include_reviews reviews_per_app
                                        save_interval w Hrem)
      as (res & w1 & evs & L & R).
    pose proof (looping_writes_nonempty _ _ _ _ _ _ _ _ _ _ L) as F.
    destruct res as [st|e].
    + destruct R as (w' & R). rewrite (runs_emitted _ _ _ _ _ R).
      rewrite !json_writes_app. apply Forall_app. split; [done|].
      apply Forall_app. split; [|constructor].
      unfold final_flush. destruct (scraped_data st); by repeat constructor.
    + by rewrite (runs_emitted _ _ _ _ _ R).
Qed.

(** ** Resumption *)

Lemma runs_det {A} (m : M A) w r1 w1 evs1 r2 w2 evs2 :
  runs m w r1 w1 evs1 -> runs m w r2 w2 evs2 -> r1 = r2 /\ w1 = w2 /\ evs1 = evs2.
Proof.
  intros [E1 V1] [E2 V2]. rewrite E1 in E2. inversion E2; subst.
  repeat split. apply (app_inv_head (trace w)).
  by rewrite <- (ev_trace _ _ _ V1), <- (ev_trace _ _ _ V2).
Qed.

Lemma app_calls_fetch app_id evs :
  Forall (fetch_event app_id) evs ->
  forall i ok, (i, ok) ∈ app_calls evs -> i = app_id.
Proof.
  induction 1 as [|e evs He _ IH]; intros i ok Hin; [by apply elem_of_nil in Hin|].
  destruct e; simpl in *; try by apply IH in Hin.
  apply elem_of_cons in Hin as [Heq | Hin]; [by inversion Heq | by apply IH in Hin].
Qed.

Lemma app_calls_reviews_stage include_reviews app_id count o :
  app_calls (reviews_stage include_reviews app_id count o) = [].
Proof. by destruct include_reviews, o. Qed.

Lemma iteration_app_calls include_reviews reviews_per_app save_interval idx app_id
    st w res w' evs :
  iteration include_reviews reviews_per_app save_interval idx app_id st w res w' evs ->
  forall i ok, (i, ok) ∈ app_calls evs -> i = app_id.
Proof.
  destruct 1; intros i ok; rewrite ?app_calls_app, ?app_calls_reviews_stage; simpl;
    rewrite ?app_nil_r; by apply app_calls_fetch.
Qed.

Lemma looping_app_calls include_reviews reviews_per_app save_interval idx ids
    st w res w' evs :
  looping include_reviews reviews_per_app save_interval idx ids st w res w' evs ->
  forall i ok, (i, ok) ∈ app_calls evs -> i ∈ ids.
Proof.
  induction 1 as [| ? ? ? ? ? ? ? ? ? ? ? I L IH | ? ? ? ? ? ? ? ? I]; intros i ok Hin.
  - by apply elem_of_nil in Hin.
  - rewrite app_calls_app in Hin. apply elem_of_app in Hin as [Hin | Hin].
    + rewrite (iteration_app_calls _ _ _ _ _ _ _ _ _ _ I _ _ Hin). by left.
    + right. by eapply IH.
  - rewrite (iteration_app_calls _ _ _ _ _ _ _ _ _ _ I _ _ Hin). by left.
Qed.

Lemma elem_of_remaining app_ids (completed : gset string) x :
  x ∈ remaining app_ids completed <-> x ∈ app_ids /\ x ∉ completed.
Proof. unfold remaining. by rewrite list_elem_of_filter, (comm and). Qed.

Lemma remaining_nil app_ids (completed : gset string) :
  (forall x, x ∈ app_ids -> x ∈ completed) -> remaining app_ids completed = [].
Proof.
  intros H. destruct (remaining app_ids completed) as [|x l] eqn:E; [done|].
  assert (Hx : x ∈ remaining app_ids completed) by (rewrite E; by left).
  apply elem_of_remaining in Hx as [Hx Hn]. by apply H in Hx.
Qed.

(** With a populated answer at hand, the detail fetch returns it at the
    first attempt. *)
Lemma scrape_app_safely_first app_id w d :
  app upstream (ncalls w) app_id = Returns d ->
  exists w', runs (scrape_app_safely app_id 3) w (Ok (Some d)) w' [EvApp app_id true].
Proof.
  intros H.
  destruct (scrape_attempts_success app_id 3 d 0 3 0 w) as (w' & R);
    [lia | lia | intros; lia | by rewrite Nat.add_0_r |].
  by exists w'.
Qed.

Lemma iteration_succeeds include_reviews reviews_per_app save_interval idx app_id
    st w res w' evs :
  iteration include_reviews reviews_per_app save_interval idx app_id st w res w' evs ->
  save_interval <> 0 ->
  always_populated upstream [app_id] ->
  exists st', res = Ok st' /\ scraped_ids st' = scraped_ids st ∪ {[ app_id ]} /\
              failed_app_ids (checkpoint st') = failed_app_ids (checkpoint st).
Proof.
  intros I Hsi Hall.
  destruct (Hall (ncalls w) app_id) as (entry & entries & Hd); [by left|].
  destruct (scrape_app_safely_first _ _ _ Hd) as (w0 & R0).
  destruct I as [r w1 fetch w' R _ Hr _ | ? ? ? ? ? _ _ Hz _ | ? ? ? ? ? R | ? ? ? ? ? ? R].
  - destruct (runs_det _ _ _ _ _ _ _ _ R R0) as (Heq & _).
    destruct Hr as [-> | ->]; by inversion Heq.
  - done.
  - by eexists.
  - by eexists.
Qed.

Lemma always_populated_cons up app_id rest :
  always_populated up (app_id :: rest) ->
  always_populated up [app_id] /\ always_populated up rest.
Proof.
  intros H. split; intros n i Hi; apply H.
  - apply list_elem_of_singleton in Hi as ->. by left.
  - by right.
Qed.

Lemma looping_succeeds include_reviews reviews_per_app save_interval idx ids
    st w res w' evs :
  looping include_reviews reviews_per_app save_interval idx ids st w res w' evs ->
  save_interval <> 0 ->
  always_populated upstream ids ->
  exists st', res = Ok st' /\ scraped_ids st' = scraped_ids st ∪ list_to_set ids /\
              failed_app_ids (checkpoint st') = failed_app_ids (checkpoint st).
Proof.
  induction 1 as [| ? ? ? ? ? ? ? ? ? ? ? I L IH | ? ? ? ? ? ? ? ? I];
    intros Hsi Hall.
  - exists st. repeat split. simpl. by rewrite (right_id_L ∅ (∪)).
  - apply always_populated_cons in Hall as [H1 H2].
    destruct (iteration_succeeds _ _ _ _ _ _ _ _ _ _ I Hsi H1) as (st' & E & S1 & F1).
    inversion E; subst st'.
    destruct (IH Hsi H2) as (st2 & -> & S2 & F2).
    exists st2. repeat split; [|congruence]. rewrite S2, S1. simpl.
    by rewrite (assoc_L (∪)).
  - apply always_populated_cons in Hall as [H1 H2].
    by destruct (iteration_succeeds _ _ _ _ _ _ _ _ _ _ I Hsi H1) as (st' & E & _).
Qed.

Lemma runs_checkpoint_saved {A} (m : M A) w r w' evs cp :
  runs m w r w' (evs ++ [EvSaveCheckpoint cp]) -> checkpoint_file w' = Some cp.
Proof.
  intros [_ V]. rewrite (ev_checkpoint _ _ _ V), saved_app, foldl_app. done.
Qed.

(** C3: the Batch Runner fetches only the identifiers of
    [identifiers - completed], where [completed] is read from the loaded
    checkpoint; when nothing remains it returns at once and changes
    nothing; hence, after a run in which no fetch fails, a second run with
    the same identifiers issues no fetch and leaves the checkpoint, and the
    whole world, as the first run left them. *)
Theorem batch_runner_resumable_idempotent app_ids (include_reviews : bool)
    reviews_per_app save_interval w :
  let run := batch_scrape_apps app_ids include_reviews reviews_per_app save_interval in
  let completed : gset string := list_to_set (scraped_app_ids (loaded_checkpoint w)) in
  (forall app_id ok, (app_id, ok) ∈ app_calls (emitted run w) ->
     app_id ∈ app_ids /\ app_id ∉ completed) /\
  ((forall app_id, app_id ∈ app_ids -> app_id ∈ completed) -> run w = (Ok tt, w)) /\
  (save_interval <> 0 -> always_populated upstream app_ids ->
     eval run w = Ok tt /\
     (forall app_id, app_id ∈ app_ids ->
        app_id ∈ scraped_app_ids (loaded_checkpoint (exec run w))) /\
     run (exec run w) = (Ok tt, exec run w) /\
     emitted run (exec run w) = []).
Proof.
  intros run completed. split; [|split].
  - intros app_id ok Hin.
    destruct (decide (remaining app_ids (scraped_ids (initial_state w)) = []))
      as [Hrem | Hrem].
    { unfold run in Hin.
      rewrite (emitted_noop _ _ _ (batch_scrape_apps_noop _ _ _ _ _ Hrem)) in Hin.
      by apply elem_of_nil in Hin. }
    destruct (batch_scrape_apps_looping app_ids include_reviews reviews_per_app
                                        save_interval w Hrem)
      as (res & w1 & evs & L & R).
    apply elem_of_remaining.
    eapply (looping_app_calls _ _ _ _ _ _ _ _ _ _ L _ ok).
    destruct res as [st|e].
    + destruct R as (w' & R). unfold run in Hin.
      rewrite (runs_emitted _ _ _ _ _ R), !app_calls_app in Hin.
      unfold final_flush in Hin. destruct (scraped_data st); simpl in Hin;
        by rewrite app_nil_r in Hin.
    + unfold run in Hin. by rewrite (runs_emitted _ _ _ _ _ R) in Hin.
  - intros Hall. apply batch_scrape_apps_noop. by apply remaining_nil.
  - intros Hsi Hall.
    assert (Hdone : eval run w = Ok tt /\
                    forall app_id, app_id ∈ app_ids ->
                      app_id ∈ scraped_app_ids (loaded_checkpoint (exec run w))).
    { destruct (decide (remaining app_ids (scraped_ids (initial_state w)) = []))
        as [Hrem | Hrem].
      - pose proof (batch_scrape_apps_noop app_ids include_reviews reviews_per_app
                                           save_interval w Hrem) as E.
        fold run in E. unfold eval, exec. rewrite E. split; [done|].
        intros app_id Hin. simpl.
        destruct (decide (app_id ∈ completed)) as [Hc | Hc].
        + unfold completed in Hc. by apply elem_of_list_to_set in Hc.
        + assert (Hx : app_id ∈ remaining app_ids (scraped_ids (initial_state w)))
            by by apply elem_of_remaining.
          rewrite Hrem in Hx. by apply elem_of_nil in Hx.
      - destruct (batch_scrape_apps_looping app_ids include_reviews reviews_per_app
                                            save_interval w Hrem)
          as (res & w1 & evs & L & R).
        destruct (looping_succeeds _ _ _ _ _ _ _ _ _ _ L Hsi) as (st' & -> & S & _).
        { intros n i Hi. apply Hall. by apply elem_of_remaining in Hi as [? _]. }
        destruct R as (w' & R). fold run in R.
        rewrite (runs_eval _ _ _ _ _ R), (runs_exec _ _ _ _ _ R). split; [done|].
        intros app_id Hin. rewrite app_assoc in R.
        unfold loaded_checkpoint. rewrite (runs_checkpoint_saved _ _ _ _ _ _ R).
        simpl. apply elem_of_elements. rewrite S.
        destruct (decide (app_id ∈ completed)) as [Hc | Hc].
        + apply elem_of_union. by left.
        + apply elem_of_union. right. apply elem_of_list_to_set.
          by apply elem_of_remaining. }
    destruct Hdone as [Hev Hall'].
    assert (E : run (exec run w) = (Ok tt, exec run w)).
    { apply batch_scrape_apps_noop. apply remaining_nil. intros x Hx.
      simpl. apply elem_of_list_to_set. by apply Hall'. }
    repeat split; try done. by apply (emitted_noop _ _ _ E).
Qed.

(** ** Flush cadence *)

Lemma succ_div_mod idx si :
  0 < si ->
  ((idx + 1) mod si = 0 /\ idx mod si = si - 1 /\ (idx + 1) / si = idx / si + 1) \/
  ((idx + 1) mod si <> 0 /\ (idx + 1) mod si = idx mod si + 1 /\
   (idx + 1) / si = idx / si).
Proof.
  intros Hsi.
  pose proof (Z.div_mod idx si ltac:(lia)) as E.
  pose proof (Z.mod_pos_bound idx si Hsi) as B.
  destruct (Z.eq_dec (idx mod si + 1) si) as [Heq | Hne].
  - left.
    assert (E1 : idx + 1 = si * (idx / si + 1) + 0) by lia.
    assert (B1 : 0 <= 0 < si) by lia.
    rewrite <- (Z.mod_unique_pos _ _ _ _ B1 E1).
    rewrite <- (Z.div_unique_pos _ _ _ _ B1 E1). lia.
  - right.
    assert (E1 : idx + 1 = si * (idx / si) + (idx mod si + 1)) by lia.
    assert (B1 : 0 <= idx mod si + 1 < si) by lia.
    rewrite <- (Z.mod_unique_pos _ _ _ _ B1 E1).
    rewrite <- (Z.div_unique_pos _ _ _ _ B1 E1). lia.
Qed.

Lemma batch_sizes_app evs1 evs2 :
  batch_sizes (evs1 ++ evs2) = batch_sizes evs1 ++ batch_sizes evs2.
Proof. unfold batch_sizes. by rewrite json_writes_app, fmap_app. Qed.

(** An iteration whose detail fetch is answered with a populated payload
    either keeps the record or flushes, according to its position. *)
Lemma iteration_populated include_reviews reviews_per_app save_interval idx app_id
    st w res w' evs :
  iteration include_reviews reviews_per_app save_interval idx app_id st w res w' evs ->
  save_interval <> 0 ->
  always_populated upstream [app_id] ->
  exists record,
    ((idx + 1) mod save_interval <> 0 /\
     res = Ok (mkRun (scraped_data st ++ [record]) (scraped_ids st ∪ {[ app_id ]})
                     (checkpoint st)) /\
     batch_sizes evs = []) \/
    ((idx + 1) mod save_interval = 0 /\
     (exists cp, res = Ok (mkRun [] (scraped_ids st ∪ {[ app_id ]}) cp)) /\
     batch_sizes evs = [S (length (scraped_data st))]).
Proof.
  intros I Hsi Hall.
  destruct (Hall (ncalls w) app_id) as (entry & entries & Hd); [by left|].
  destruct (scrape_app_safely_first _ _ _ Hd) as (w0 & R0).
  destruct I as [r w1 fetch w' R _ Hr _ | ? ? ? ? ? _ _ Hz _
                 | e0 es0 w1 fetch w' R F _ Hnz _ o
                 | e0 es0 w1 fetch w' s R F _ Hz _ _ o data cp].
  - destruct (runs_det _ _ _ _ _ _ _ _ R R0) as (Heq & _).
    destruct Hr as [-> | ->]; by inversion Heq.
  - done.
  - exists (PDict (with_reviews include_reviews o (e0 :: es0))).
    left. repeat split; [done|].
    unfold batch_sizes.
    by rewrite !json_writes_app, (json_writes_fetch _ _ F), json_writes_reviews_stage.
  - exists PNone. right. repeat split; [done | by eexists |].
    unfold batch_sizes.
    rewrite !json_writes_app, (json_writes_fetch _ _ F), json_writes_reviews_stage.
    simpl. rewrite length_map. unfold data. rewrite length_app. simpl.
    f_equal. lia.
Qed.

Lemma looping_sizes include_reviews reviews_per_app save_interval idx ids
    st w res w' evs :
  looping include_reviews reviews_per_app save_interval idx ids st w res w' evs ->
  0 < save_interval ->
  always_populated upstream ids ->
  Z.of_nat (length (scraped_data st)) = idx mod save_interval ->
  exists st',
    res = Ok st' /\
    batch_sizes evs =
      replicate (Z.to_nat ((idx + Z.of_nat (length ids)) / save_interval
                           - idx / save_interval))
                (Z.to_nat save_interval) /\
    Z.of_nat (length (scraped_data st')) =
      (idx + Z.of_nat (length ids)) mod save_interval.
Proof.
  induction 1 as [| idx app_id rest st w st1 w1 evs1 res w2 evs2 I L IH
                  | idx app_id rest st w e w1 evs1 I];
    intros Hsi Hall Hacc.
  - exists st. simpl. rewrite Z.add_0_r, Z.sub_diag. by repeat split.
  - apply always_populated_cons in Hall as [H1 H2].
    destruct (iteration_populated _ _ _ _ _ _ _ _ _ _ I ltac:(lia) H1)
      as (record & [(Hnz & E & B) | (Hz & (cp & E) & B)]);
      inversion E; subst st1; clear E;
      destruct (succ_div_mod idx save_interval Hsi)
        as [(Hz' & Hm & Hd) | (Hnz' & Hm & Hd)]; try done.
    + destruct (IH Hsi H2) as (st' & -> & B2 & A2).
      { simpl. rewrite length_app. simpl. lia. }
      exists st'. rewrite batch_sizes_app, B, B2. simpl length.
      replace (idx + Z.of_nat (S (length rest)))
        with (idx + 1 + Z.of_nat (length rest)) by lia.
      by rewrite Hd.
    + destruct (IH Hsi H2) as (st' & -> & B2 & A2).
      { simpl. lia. }
      exists st'. rewrite batch_sizes_app, B, B2. simpl length.
      replace (idx + Z.of_nat (S (length rest)))
        with (idx + 1 + Z.of_nat (length rest)) by lia.
      repeat split; [|done].
      assert (Hle : (idx + 1) / save_interval
                    <= (idx + 1 + Z.of_nat (length rest)) / save_interval)
        by (apply Z.div_le_mono; lia).
      replace (S (length (scraped_data st))) with (Z.to_nat save_interval) by lia.
      rewrite Hd in *.
      replace (Z.to_nat ((idx + 1 + Z.of_nat (length rest)) / save_interval
                         - idx / save_interval))
        with (S (Z.to_nat ((idx + 1 + Z.of_nat (length rest)) / save_interval
                           - (idx / save_interval + 1)))) by lia.
      done.
  - apply always_populated_cons in Hall as [H1 H2].
    by destruct (iteration_populated _ _ _ _ _ _ _ _ _ _ I ltac:(lia) H1)
      as (record & [(_ & E & _) | (_ & (cp & E) & _)]).
Qed.

(** ** Names of the batch files of one run *)

Lemma string_length_app s t :
  String.length (s +:+ t) = (String.length s + String.length t)%nat.
Proof. induction s as [|a s IH]; [done|]. cbn. by rewrite <- IH. Qed.

Lemma string_app_inj_l s1 s2 t : s1 +:+ t = s2 +:+ t -> s1 = s2.
Proof.
  revert s2. induction s1 as [|a s1 IH]; intros [|b s2] E; try done.
  - apply (f_equal String.length) in E.
    rewrite !string_length_app in E. cbn in E. lia.
  - apply (f_equal String.length) in E.
    rewrite !string_length_app in E. cbn in E. lia.
  - cbn in E. injection E as -> E. f_equal. by apply IH.
Qed.

Lemma batch_filename_inj t1 t2 : batch_filename t1 = batch_filename t2 -> t1 = t2.
Proof.
  unfold batch_filename. intros E.
  apply (inj (String.app "apps_batch_")) in E. by apply string_app_inj_l in E.
Qed.

Lemma iteration_stamps include_reviews reviews_per_app save_interval idx app_id
    st w res w' evs :
  iteration include_reviews reviews_per_app save_interval idx app_id st w res w' evs ->
  exists stamps,
    (json_writes evs).*1 = stamped_filename <$> stamps /\
    Forall (in_window w w') stamps /\ NoDup stamps /\ now w <= now w'.
Proof.
  destruct 1 as [r w1 fetch w' R F Hr C | e0 es0 w1 fetch w' R F Hz C
                 | e0 es0 w1 fetch w' R F _ Hnz C o
                 | e0 es0 w1 fetch w' s R F _ Hz C1 C2 o data cp];
    rewrite ?json_writes_app, (json_writes_fetch _ _ F), ?json_writes_reviews_stage;
    simpl.
  - exists []. repeat split; try constructor. by apply now_mono.
  - exists []. repeat split; try constructor. by apply now_mono.
  - exists []. repeat split; try constructor. by apply now_mono.
  - exists [s]. repeat split; try lia.
    + by repeat constructor.
    + apply NoDup_singleton.
Qed.

Lemma in_window_weaken w w1 w2 w3 s :
  now w <= now w1 -> now w2 <= now w3 -> in_window w1 w2 s -> in_window w w3 s.
Proof. unfold in_window. lia. Qed.

Lemma looping_stamps include_reviews reviews_per_app save_interval idx ids
    st w res w' evs :
  looping include_reviews reviews_per_app save_interval idx ids st w res w' evs ->
  exists stamps,
    (json_writes evs).*1 = stamped_filename <$> stamps /\
    Forall (in_window w w') stamps /\ NoDup stamps /\ now w <= now w'.
Proof.
  induction 1 as [| idx app_id rest st w st1 w1 evs1 res w2 evs2 I L IH
                  | idx app_id rest st w e w1 evs1 I].
  - exists []. repeat split; try constructor. lia.
  - destruct (iteration_stamps _ _ _ _ _ _ _ _ _ _ I) as (l1 & E1 & W1 & N1 & M1).
    destruct IH as (l2 & E2 & W2 & N2 & M2).
    exists (l1 ++ l2). rewrite json_writes_app, !fmap_app, E1, E2.
    repeat split; [| |lia].
    + apply Forall_app. split.
      * eapply Forall_impl; [exact W1|]. intros s. apply in_window_weaken; lia.
      * eapply Forall_impl; [exact W2|]. intros s. apply in_window_weaken; lia.
    + apply NoDup_app. repeat split; [done | | done].
      intros s H1 H2.
      rewrite Forall_forall in W1, W2.
      specialize (W1 s H1). specialize (W2 s H2). unfold in_window in *. lia.
  - by apply (iteration_stamps _ _ _ _ _ _ _ _ _ _ I).
Qed.

(** The batch files written by one run bear pairwise distinct stamps. *)
Lemma batch_scrape_apps_stamps app_ids (include_reviews : bool) reviews_per_app
    save_interval w :
  exists stamps,
    (json_writes (emitted (batch_scrape_apps app_ids include_reviews reviews_per_app
                                             save_interval) w)).*1
    = stamped_filename <$> stamps /\ NoDup stamps.
Proof.
  destruct (decide (remaining app_ids (scraped_ids (initial_state w)) = []))
    as [Hrem | Hrem].
  { rewrite (emitted_noop _ _ _ (batch_scrape_apps_noop _ _ _ _ _ Hrem)).
    exists []. split; [done | constructor]. }
  destruct (batch_scrape_apps_looping app_ids include_reviews reviews_per_app
                                      save_interval w Hrem)
    as (res & w1 & evs & L & R).
  destruct (looping_stamps _ _ _ _ _ _ _ _ _ _ L) as (stamps & E & W & N & _).
  destruct res as [st|e].
  - destruct R as (w' & R). rewrite (runs_emitted _ _ _ _ _ R).
    rewrite !json_writes_app, !fmap_app, E. unfold final_flush.
    destruct (scraped_data st) as [|item data]; simpl.
    + exists stamps. by rewrite app_nil_r.
    + exists (stamps ++ [now w1]). rewrite fmap_app. split; [done|].
      apply NoDup_app. repeat split; [done | | apply NoDup_singleton].
      intros s H1 H2. apply list_elem_of_singleton in H2 as ->.
      rewrite Forall_forall in W. specialize (W _ H1). unfold in_window in W. lia.
  - rewrite (runs_emitted _ _ _ _ _ R). by exists stamps.
Qed.

Lemma size_foldl_insert {V} (l : list (string * V)) :
  forall m : gmap string V,
    NoDup l.*1 -> (forall f, f ∈ l.*1 -> m !! f = None) ->
    size (foldl (fun d fd => <[fd.1 := fd.2]> d) m l) = (size m + length l)%nat.
Proof.
  induction l as [|[f data] l IH]; intros m N Hfresh; simpl; [lia|].
  apply NoDup_cons in N as [Hnotin N].
  rewrite IH; [| done |].
  - rewrite map_size_insert_None; [lia|]. apply Hfresh. by left.
  - intros g Hg. rewrite lookup_insert_ne.
    + apply Hfresh. by right.
    + simpl. intros ->. done.
Qed.

Lemma batch_scrape_apps_runs app_ids (include_reviews : bool) reviews_per_app
    save_interval w :
  exists res w' evs,
    runs (batch_scrape_apps app_ids include_reviews reviews_per_app save_interval)
         w res w' evs.
Proof.
  destruct (decide (remaining app_ids (scraped_ids (initial_state w)) = []))
    as [Hrem | Hrem].
  - exists (Ok tt), w, []. split; [by apply batch_scrape_apps_noop | apply evolves_refl].
  - destruct (batch_scrape_apps_looping app_ids include_reviews reviews_per_app
                                        save_interval w Hrem)
      as (res & w1 & evs & L & R).
    destruct res as [st|e]; [destruct R as (w' & R)|]; eauto.
Qed.

Lemma fst_as_json (l : list (string * list pyval)) : (as_json <$> l).*1 = l.*1.
Proof. by rewrite <- list_fmap_compose. Qed.

(** A run writes JSON documents only: the directory it leaves is the one
    it found, with the documents it wrote. *)
Lemma batch_scrape_apps_dir app_ids (include_reviews : bool) reviews_per_app
    save_interval w :
  let run := batch_scrape_apps app_ids include_reviews reviews_per_app save_interval in
  csv_writes (emitted run w) = [] /\
  output_dir (exec run w)
  = foldl (fun d fw => <[fw.1 := fw.2]> d) (output_dir w)
          (as_json <$> json_writes (emitted run w)).
Proof.
  intros run. subst run.
  assert (C : csv_writes (emitted (batch_scrape_apps app_ids include_reviews
                                     reviews_per_app save_interval) w) = []).
  { destruct (decide (remaining app_ids (scraped_ids (initial_state w)) = []))
      as [Hrem | Hrem].
    { by rewrite (emitted_noop _ _ _ (batch_scrape_apps_noop _ _ _ _ _ Hrem)). }
    destruct (batch_scrape_apps_looping app_ids include_reviews reviews_per_app
                                        save_interval w Hrem)
      as (res & w1 & evs & L & R).
    pose proof (looping_csv_writes _ _ _ _ _ _ _ _ _ _ L) as C.
    destruct res as [st|e].
    - destruct R as (w' & R). rewrite (runs_emitted _ _ _ _ _ R).
      rewrite !csv_writes_app, C. unfold final_flush.
      by destruct (scraped_data st).
    - by rewrite (runs_emitted _ _ _ _ _ R). }
  split; [done|].
  destruct (batch_scrape_apps_runs app_ids include_reviews reviews_per_app
                                   save_interval w) as (res & w' & evs & R).
  rewrite (runs_emitted _ _ _ _ _ R) in *.
  rewrite (runs_exec _ _ _ _ _ R), (ev_dir _ _ _ (proj2 R)).
  by rewrite file_writes_json.
Qed.

(** What one iteration flushes, from the outcome of its detail fetch and
    its position. *)
Lemma flush_rule (include_reviews : bool) reviews_per_app save_interval idx app_id st w :
  save_interval <> 0 ->
  let it := scrape_one include_reviews reviews_per_app save_interval idx app_id st in
  match eval (scrape_app_safely app_id 3) w with
  | Ok (Some (_ :: _)) =>
      if (idx + 1) mod save_interval =? 0
      then exists pre f record,
          let cp := mkCheckpoint (elements (scraped_ids st ∪ {[ app_id ]}))
                                 (failed_app_ids (checkpoint st)) in
          emitted it w =
            pre ++ [EvWriteJson f (map _make_serializable (scraped_data st ++ [record]));
                    EvSaveCheckpoint cp; EvSleep 1200] /\
          json_writes pre = [] /\ saved pre = [] /\
          eval it w = Ok (mkRun [] (scraped_ids st ∪ {[ app_id ]}) cp)
      else json_writes (emitted it w) = [] /\ saved (emitted it w) = []
  | _ => json_writes (emitted it w) = [] /\ saved (emitted it w) = [] /\
         eval it w = Ok st
  end.
Proof.
  intros Hsi it.
  destruct (scrape_one_iteration include_reviews reviews_per_app save_interval
                                 idx app_id st w) as (res & w' & evs & R & I).
  fold it in R.
  rewrite (runs_emitted _ _ _ _ _ R), (runs_eval _ _ _ _ _ R).
  destruct I as [r w1 fetch w' R0 F Hr C | e0 es0 w1 fetch w' R0 F Hz C
                 | e0 es0 w1 fetch w' R0 F _ Hnz C o
                 | e0 es0 w1 fetch w' s R0 F _ Hz C1 C2 o data cp];
    rewrite (runs_eval _ _ _ _ _ R0).
  - assert (json_writes (fetch ++ [EvSleep 1200]) = [] /\
            saved (fetch ++ [EvSleep 1200]) = []) as [J S].
    { by rewrite json_writes_app, saved_app, (json_writes_fetch _ _ F),
                 (saved_fetch _ _ F). }
    by destruct Hr as [-> | ->].
  - done.
  - replace ((idx + 1) mod save_interval =? 0) with false
      by (symmetry; by apply Z.eqb_neq).
    by rewrite !json_writes_app, !saved_app, (json_writes_fetch _ _ F),
               (saved_fetch _ _ F), json_writes_reviews_stage, saved_reviews_stage.
  - rewrite Hz. simpl.
    eexists (fetch ++ reviews_stage include_reviews app_id reviews_per_app o), _, _.
    rewrite <- app_assoc. repeat split.
    + by rewrite json_writes_app, (json_writes_fetch _ _ F), json_writes_reviews_stage.
    + by rewrite saved_app, (saved_fetch _ _ F), saved_reviews_stage.
Qed.

Lemma cadence_run include_reviews reviews_per_app save_interval app_ids w :
  0 < save_interval -> always_populated upstream app_ids ->
  batch_sizes (emitted (batch_scrape_apps app_ids include_reviews reviews_per_app
                                          save_interval) w)
  = cadence save_interval
            (Z.of_nat (length (remaining app_ids (scraped_ids (initial_state w))))).
Proof.
  intros Hsi Hall.
  destruct (decide (remaining app_ids (scraped_ids (initial_state w)) = []))
    as [Hrem | Hrem].
  { rewrite (emitted_noop _ _ _ (batch_scrape_apps_noop _ _ _ _ _ Hrem)), Hrem.
    unfold cadence. simpl length. change (Z.of_nat 0) with 0.
    by rewrite Zdiv_0_l, Zmod_0_l. }
  destruct (batch_scrape_apps_looping app_ids include_reviews reviews_per_app
                                      save_interval w Hrem)
    as (res & w1 & evs & L & R).
  destruct (looping_sizes _ _ _ _ _ _ _ _ _ _ L Hsi) as (st' & -> & B & A).
  { intros n i Hi. apply Hall. by apply elem_of_remaining in Hi as [? _]. }
  { simpl. by rewrite Zmod_0_l. }
  destruct R as (w' & R). rewrite (runs_emitted _ _ _ _ _ R).
  rewrite !batch_sizes_app, B. unfold cadence.
  rewrite Zdiv_0_l, Z.sub_0_r, Z.add_0_l in *. f_equal.
  unfold final_flush, batch_sizes.
  destruct (scraped_data st') as [|item data] eqn:E; simpl in *.
  - by rewrite <- A.
  - rewrite <- A. rewrite length_map. simpl. do 2 f_equal. lia.
Qed.

(** C4 (amended): the flush is decided on the position [idx] of the
    iteration (counted from 0 in the list of remaining identifiers, failed
    ones included), not on the number of successes.  An iteration whose
    detail fetch returns a populated payload flushes (writes the
    accumulator extended by the new record to a batch file, then persists
    the updated checkpoint, and clears the accumulator) exactly when
    [idx + 1] is a multiple of [save_interval]; an iteration at a position
    where [idx + 1] is no such multiple writes nothing, whatever its fetch
    does.  (What a failed fetch does at a position where [idx + 1] is a
    multiple is not part of the statement.)  Hence, when no detail fetch
    fails, the batches written by a run, the final flush included, have
    the sizes of the remaining identifiers cut into runs of
    [save_interval].  The batch files of one run have distinct names, given
    that distinct seconds are rendered differently, so that each write adds
    a file when none of the names was taken.  In particular, with
    [save_interval = 10] and 25 identifiers fetched successfully, three
    batches are written, of sizes 10, 10 and 5. *)
Theorem flush_cadence app_ids (include_reviews : bool) reviews_per_app save_interval w :
  let run := batch_scrape_apps app_ids include_reviews reviews_per_app save_interval in
  let remaining_ids :=
    remaining app_ids (list_to_set (scraped_app_ids (loaded_checkpoint w))) in
  (forall idx app_id st w0, save_interval <> 0 ->
     let it := scrape_one include_reviews reviews_per_app save_interval idx app_id st in
     match eval (scrape_app_safely app_id 3) w0 with
     | Ok (Some (_ :: _)) =>
         if (idx + 1) mod save_interval =? 0
         then exists pre f record,
             let cp := mkCheckpoint (elements (scraped_ids st ∪ {[ app_id ]}))
                                    (failed_app_ids (checkpoint st)) in
             emitted it w0 =
               pre ++ [EvWriteJson f (map _make_serializable
                                          (scraped_data st ++ [record]));
                       EvSaveCheckpoint cp; EvSleep 1200] /\
             json_writes pre = [] /\ saved pre = [] /\
             eval it w0 = Ok (mkRun [] (scraped_ids st ∪ {[ app_id ]}) cp)
         else json_writes (emitted it w0) = [] /\ saved (emitted it w0) = []
     | _ => (idx + 1) mod save_interval <> 0 ->
            json_writes (emitted it w0) = [] /\ saved (emitted it w0) = [] /\
            eval it w0 = Ok st
     end) /\
  (0 < save_interval -> always_populated upstream app_ids ->
     batch_sizes (emitted run w)
     = cadence save_interval (Z.of_nat (length remaining_ids))) /\
  ((forall s1 s2, strftime "%Y%m%d_%H%M%S" s1 = strftime "%Y%m%d_%H%M%S" s2 ->
                  s1 = s2) ->
     NoDup (json_writes (emitted run w)).*1 /\
     ((forall f, f ∈ (json_writes (emitted run w)).*1 -> output_dir w !! f = None) ->
      size (output_dir (exec run w))
      = (size (output_dir w) + length (json_writes (emitted run w)))%nat)) /\
  (save_interval = 10 -> length remaining_ids = 25%nat ->
     always_populated upstream app_ids ->
     batch_sizes (emitted run w) = [10; 10; 5]%nat).
Proof.
  intros run remaining_ids. split; [|split; [|split]].
  - intros idx app_id st w0 Hsi.
    pose proof (flush_rule include_reviews reviews_per_app save_interval idx app_id
                           st w0 Hsi) as H.
    cbv zeta in *.
    destruct (eval (scrape_app_safely app_id 3) w0) as [[[|entry entries]|]|e]; auto.
  - intros Hsi Hall. by apply cadence_run.
  - intros Hinj.
    assert (N : NoDup (json_writes (emitted run w)).*1).
    { destruct (batch_scrape_apps_stamps app_ids include_reviews reviews_per_app
                                         save_interval w) as (stamps & E & N).
      fold run in E. rewrite E. apply NoDup_fmap_2_strong; [|done].
      intros s1 s2 _ _ Heq. apply Hinj. by apply batch_filename_inj. }
    split; [done|]. intros Hfresh. unfold run in *.
    rewrite (proj2 (batch_scrape_apps_dir app_ids include_reviews reviews_per_app
                                          save_interval w)).
    rewrite size_foldl_insert, ?length_fmap; rewrite ?fst_as_json; done.
  - intros -> Hlen Hall.
    pose proof (cadence_run include_reviews reviews_per_app 10 app_ids w
                            ltac:(lia) Hall) as E.
    fold run in E. rewrite E. unfold initial_state. simpl.
    fold remaining_ids. by rewrite Hlen.
Qed.

(** ** Bounds on the retry loop *)

Lemma scrape_attempts_bounds app_id retries :
  forall (n : nat) (a : Z) w,
    0 <= a -> a + Z.of_nat n = retries ->
    exists r w' evs,
      runs (scrape_attempts app_id retries (seqZ a (Z.of_nat n))) w (Ok r) w' evs /\
      (length (app_calls evs) <= n)%nat /\
      calls_in evs = length (app_calls evs) /\
      (n <> 0%nat -> (1 <= length (app_calls evs))%nat /\
                     slept evs <= 1000 * (2 ^ (retries - 1) - 2 ^ a)) /\
      (forall d, r = Some d ->
         exists pre, evs = pre ++ [EvApp app_id true] /\ logged evs = []) /\
      (r = None -> n <> 0%nat -> exists e, logged evs = [failure_message app_id e]).
Proof.
  induction n as [|n IH]; intros a w Ha Hsum.
  - exists None, w, []. split; [apply runs_ret|]. by repeat split.
  - rewrite seqZ_S. destruct (call_app_runs app_id w) as (w1 & R1).
    assert (Hpow : 0 < 2 ^ a) by (apply Z.pow_pos_nonneg; lia).
    assert (Hmono : 2 ^ a <= 2 ^ (retries - 1)) by (apply Z.pow_le_mono_r; lia).
    destruct (app upstream (ncalls w) app_id) as [d|e] eqn:E0.
    + exists (Some d), w1, [EvApp app_id true]. split; [|repeat split].
      * eapply runs_cast; [step R1; apply runs_ret | done].
      * simpl. lia.
      * simpl. lia.
      * unfold slept. simpl. lia.
      * intros d' _. by exists [].
      * done.
    + simpl scrape_attempts. destruct (a =? retries - 1) eqn:Elast.
      * destruct (log_error_runs (failure_message app_id e) w1) as (w2 & R2).
        exists None, w2, [EvApp app_id false; EvLogError (failure_message app_id e)].
        split; [|repeat split].
        -- eapply runs_cast; [step R1; step R2; apply runs_ret | done].
        -- simpl. lia.
        -- simpl. lia.
        -- unfold slept. simpl. lia.
        -- done.
        -- intros _ _. by exists e.
      * apply Z.eqb_neq in Elast.
        destruct (sleep_runs (1000 * 2 ^ a) w1) as (w2 & R2 & _).
        destruct (IH (a + 1) w2 ltac:(lia) ltac:(lia))
          as (r & w3 & evs & R3 & B1 & B2 & B3 & B4 & B5).
        assert (Hn : n <> 0%nat) by lia.
        destruct (B3 Hn) as [B3a B3b].
        exists r, w3, ([EvApp app_id false] ++ [EvSleep (1000 * 2 ^ a)] ++ evs).
        split; [|repeat split].
        -- step R1. step R2. exact R3.
        -- simpl. lia.
        -- unfold calls_in in *. simpl. lia.
        -- simpl. lia.
        -- replace (2 ^ (a + 1)) with (2 * 2 ^ a) in B3b
             by (rewrite Z.pow_add_r by lia; lia).
           unfold slept in *. simpl. lia.
        -- intros d Hd. destruct (B4 d Hd) as (pre & -> & Hl).
           exists (EvApp app_id false :: EvSleep (1000 * 2 ^ a) :: pre). by split.
        -- intros Hr _. by apply B5.
Qed.

Lemma scrape_app_safely_some app_id retries w d w1 fetch :
  runs (scrape_app_safely app_id retries) w (Ok (Some d)) w1 fetch ->
  (exists n, app upstream n app_id = Returns d) /\
  (app_id, true) ∈ app_calls fetch /\ logged fetch = [].
Proof.
  intros R.
  destruct (scrape_attempts_total app_id retries (seqZ 0 retries) w)
    as (r0 & w0 & evs0 & R0 & _ & _ & D & _).
  destruct (runs_det _ _ _ _ _ _ _ _ R R0) as (Er0 & _ & _).
  inversion Er0; subst r0. destruct D as (j & _ & D).
  split; [by eexists|].
  destruct (Z.le_gt_cases retries 0) as [Hle | Hgt].
  { destruct R as [E _]. unfold scrape_app_safely in E.
    rewrite seqZ_nil in E by lia. by inversion E. }
  destruct (scrape_attempts_bounds app_id retries (Z.to_nat retries) 0 w)
    as (r & w' & evs' & R' & _ & _ & _ & B4 & _); [lia | lia |].
  replace (Z.of_nat (Z.to_nat retries)) with retries in R' by lia.
  destruct (runs_det _ _ _ _ _ _ _ _ R R') as (Er & _ & ->).
  destruct (B4 d) as (pre & -> & Hl); [by inversion Er|].
  split; [|done]. rewrite app_calls_app. apply elem_of_app. right. by left.
Qed.

(** ** Reviews *)

Lemma dict_get_set key v d : dict_get key (dict_set key v d) = Some v.
Proof.
  induction d as [|[k x] d IH]; simpl.
  - by rewrite String.eqb_refl.
  - destruct (String.eqb k key) eqn:E; simpl; by rewrite E.
Qed.

(** C7 (amended): when the detail fetch of an identifier returns a
    populated payload and [include_reviews] is set, the reviews fetch is
    issued exactly once, with the configured count, in a single
    try/except and not under the Retry Policy: there is no second attempt
    and no backoff (after the detail fetch the iteration waits only for
    the 1.2 s pause of the loop).  A failure of the reviews fetch is
    logged, as one line of the error log carrying its message, and does
    not invalidate the detail success: whether the reviews fetch returns
    or fails the identifier is completed and its record, carrying the
    fetched reviews or, on failure, an empty review list, is appended to
    the accumulator (and flushed with it if a flush is due). *)
Theorem reviews_fetched_once reviews_per_app save_interval idx app_id st w
    entry entries :
  save_interval <> 0 ->
  eval (scrape_app_safely app_id 3) w = Ok (Some (entry :: entries)) ->
  let w1 := exec (scrape_app_safely app_id 3) w in
  let o := reviews upstream (ncalls w1) app_id reviews_per_app in
  let it := scrape_one true reviews_per_app save_interval idx app_id st in
  let record := PDict (dict_set "scraped_reviews" (PList (reviews_result o))
                                (entry :: entries)) in
  reviews_calls (emitted it w) = [(app_id, reviews_per_app, is_ok o)] /\
  record_reviews record = Some (PList (reviews_result o)) /\
  (is_ok o = false -> reviews_result o = []) /\
  (exists st', eval it w = Ok st' /\ app_id ∈ scraped_ids st' /\
    (scraped_data st' = scraped_data st ++ [record] \/
     scraped_data st' = [] /\
     exists f, json_writes (emitted it w)
               = [(f, map _make_serializable (scraped_data st ++ [record]))])) /\
  sleeps (emitted it w) = sleeps (emitted (scrape_app_safely app_id 3) w) ++ [1200] /\
  match o with
  | Returns _ =>
      logged (emitted it w) = [] /\
      error_log_file (exec it w) = error_log_file w
  | Throws e =>
      logged (emitted it w) = [reviews_failure_message app_id e] /\
      exists line, error_log_file (exec it w) = error_log_file w ++ [line] /\
                   is_log_line line (reviews_failure_message app_id e)
  end.
Proof.
  intros Hsi Hfetch w1 o it record.
  destruct (scrape_one_iteration true reviews_per_app save_interval idx app_id st w)
    as (res & w' & evs & R & I).
  fold it in R.
  rewrite (runs_emitted _ _ _ _ _ R), (runs_eval _ _ _ _ _ R), (runs_exec _ _ _ _ _ R).
  destruct (scrape_attempts_total app_id 3 (seqZ 0 3) w)
    as (r & w1' & fetch' & R' & F' & V' & _).
  fold (scrape_app_safely app_id 3) in R'.
  rewrite (runs_emitted _ _ _ _ _ R').
  pose proof (runs_eval _ _ _ _ _ R') as Er. rewrite Hfetch in Er.
  inversion Er; subst r; clear Er.
  destruct (scrape_app_safely_some _ _ _ _ _ _ R') as (_ & _ & L').
  assert (Hshape : exists tail st',
    evs = fetch' ++ reviews_events app_id reviews_per_app o ++ tail /\
    logged tail = [] /\ reviews_calls tail = [] /\ sleeps tail = [1200] /\
    res = Ok st' /\ app_id ∈ scraped_ids st' /\
    (scraped_data st' = scraped_data st ++ [record] \/
     scraped_data st' = [] /\
     exists f, json_writes tail
               = [(f, map _make_serializable (scraped_data st ++ [record]))])).
  { destruct I as [r0 w0 fetch w' R0 F Hr C | e0 es0 w0 fetch w' R0 F Hz C
                   | e0 es0 w0 fetch w' R0 F _ Hnz C o'
                   | e0 es0 w0 fetch w' s R0 F _ Hz C1 C2 o' data cp];
      try done;
      pose proof (runs_eval _ _ _ _ _ R0) as E0; rewrite Hfetch in E0;
      try (destruct Hr as [-> | ->]; done);
      inversion E0; subst e0 es0; clear E0;
      pose proof (runs_exec _ _ _ _ _ R0) as X0; fold w1 in X0; subst w0;
      destruct (runs_det _ _ _ _ _ _ _ _ R0 R') as (_ & _ & ->).
    - eexists [EvSleep 1200], _. split; [done|]. repeat split.
      + simpl. apply elem_of_union. right. by apply elem_of_singleton.
      + by left.
    - eexists [_; _; EvSleep 1200], _. split; [done|]. repeat split.
      + simpl. apply elem_of_union. right. by apply elem_of_singleton.
      + right. split; [done|]. by eexists. }
  destruct Hshape as (tail & st' & -> & Lt & Vt & St & -> & Hin & Hdata).
  assert (Hlogged : logged (fetch' ++ reviews_events app_id reviews_per_app o ++ tail)
                    = match o with
                      | Returns _ => []
                      | Throws e => [reviews_failure_message app_id e]
                      end).
  { rewrite !logged_app, L', Lt. by destruct o. }
  split; [|split; [|split; [|split; [|split]]]].
  - rewrite !reviews_calls_app, V', Vt. by destruct o.
  - unfold record, record_reviews. apply dict_get_set.
  - by destruct o.
  - exists st'. split; [done|]. split; [done|].
    destruct Hdata as [Hd | [Hd (f & Hf)]]; [by left|].
    right. split; [done|]. exists f.
    rewrite !json_writes_app, (json_writes_fetch _ _ F'), Hf. by destruct o.
  - rewrite !sleeps_app, St. by destruct o.
  - destruct o as [result|e]; (split; [exact Hlogged|]).
    + by apply (evolves_log_nil _ _ _ (proj2 R)).
    + by apply (evolves_log_one _ _ _ _ (proj2 R)).
Qed.

(** ** Discovery *)

Lemma add_hits_spec results (all_app_ids : gset string) :
  add_hits results all_app_ids = all_app_ids ∪ list_to_set (appId <$> results).
Proof.
  revert all_app_ids. unfold add_hits.
  induction results as [|hit results IH]; intros s; simpl.
  - by rewrite (right_id_L ∅ (∪)).
  - rewrite IH. rewrite <- (assoc_L (∪)). done.
Qed.

Lemma discover_categories_runs categories apps_per_category :
  forall (all_app_ids : gset string) w,
    exists w' evs,
      runs (discover_categories categories apps_per_category all_app_ids) w
           (Ok (all_app_ids ∪ discovered (ncalls w) categories apps_per_category))
           w' evs.
Proof.
  induction categories as [|category rest IH]; intros s w.
  - exists w, []. simpl. rewrite (right_id_L ∅ (∪)). apply runs_ret.
  - destruct (call_search_runs category apps_per_category w) as (w1 & R1).
    pose proof (runs_ncalls _ _ _ _ _ R1) as N1.
    unfold calls_in in N1; simpl in N1.
    simpl discovered.
    destruct (search upstream (ncalls w) category apps_per_category)
      as [results|e] eqn:E.
    + destruct (sleep_runs 1000 w1) as (w2 & R2 & _).
      pose proof (runs_ncalls _ _ _ _ _ R2) as N2.
      unfold calls_in in N2; simpl in N2.
      destruct (IH (add_hits results s) w2) as (w3 & evs & R3).
      exists w3. eexists. simpl. step R1. step R2.
      rewrite add_hits_spec in R3.
      replace (ncalls w2) with (S (ncalls w)) in R3 by lia.
      rewrite add_hits_spec, (assoc_L (∪)). exact R3.
    + destruct (log_error_runs ("Search failed for '" +:+ category +:+ "': " +:+ e) w1)
        as (w2 & R2).
      pose proof (runs_ncalls _ _ _ _ _ R2) as N2.
      unfold calls_in in N2; simpl in N2.
      destruct (IH s w2) as (w3 & evs & R3).
      exists w3. eexists. simpl. step R1. step R2.
      replace (ncalls w2) with (S (ncalls w)) in R3 by lia.
      rewrite (left_id_L ∅ (∪)). exact R3.
Qed.

Lemma elem_of_discovered categories n_hits x :
  forall call,
    x ∈ discovered call categories n_hits <->
    exists i category results,
      categories !! i = Some category /\
      search upstream (call + i) category n_hits = Returns results /\
      x ∈ appId <$> results.
Proof.
  induction categories as [|category rest IH]; intros call; simpl.
  - split; [intros H; by apply elem_of_empty in H | by intros (i & ? & ? & ? & _)].
  - rewrite elem_of_union, IH. split.
    + intros [H | (i & c & r & Hi & Hs & Hx)].
      * exists 0%nat, category. rewrite Nat.add_0_r.
        destruct (search upstream call category n_hits) as [results|e];
          [|by apply elem_of_empty in H].
        exists results. repeat split. by apply elem_of_list_to_set in H.
      * exists (S i), c, r. repeat split; [done | | done].
        by replace (call + S i)%nat with (S call + i)%nat by lia.
    + intros ([|i] & c & r & Hi & Hs & Hx); simpl in Hi.
      * left. inversion Hi; subst c. rewrite Nat.add_0_r in Hs. rewrite Hs.
        by apply elem_of_list_to_set.
      * right. exists i, c, r. repeat split; [done | | done].
        by replace (S call + i)%nat with (call + S i)%nat by lia.
Qed.

(** C8: the Discovery Stage returns a list without repetition that holds
    exactly the identifiers found among the hits of the queries that were
    answered: an identifier returned by one or by several queries occurs
    in the output exactly once, and nothing else occurs in it. *)
Theorem discovery_deduplicates categories apps_per_category w :
  exists output,
    eval (discover_apps_by_categories categories apps_per_category) w = Ok output /\
    NoDup output /\
    forall x,
      (exists i category results,
          categories !! i = Some category /\
          search upstream (ncalls w + i) category apps_per_category = Returns results /\
          x ∈ appId <$> results)
      <-> count_occ String.string_dec output x = 1%nat.
Proof.
  destruct (discover_categories_runs categories apps_per_category ∅ w)
    as (w' & evs & R).
  rewrite (left_id_L ∅ (∪)) in R.
  set (found := discovered (ncalls w) categories apps_per_category) in *.
  exists (elements found). split; [|split].
  - unfold eval, discover_apps_by_categories, bind. by rewrite (proj1 R).
  - apply NoDup_elements.
  - intros x. rewrite <- elem_of_discovered. fold found.
    rewrite <- (elem_of_elements found x).
    pose proof (NoDup_elements found) as N. apply NoDup_ListNoDup in N.
    rewrite (List.NoDup_count_occ String.string_dec) in N.
    specialize (N x). rewrite list_elem_of_In.
    rewrite (count_occ_In String.string_dec). lia.
Qed.

(** ** Checkpoint store *)

(** C10: [save_checkpoint] leaves in the checkpoint file the text that
    [json.dump] makes of the checkpoint, and what [json.load] reads in that
    text is the checkpoint that was saved, whatever characters its
    identifiers hold: a checkpoint saved is the checkpoint loaded back.
    Without a checkpoint file [load_checkpoint] returns the state whose two
    lists are empty. *)
Theorem checkpoint_roundtrip cp w :
  checkpoint_text (exec (save_checkpoint cp) w) = Some (json_dump cp) /\
  read_checkpoint (json_dump cp) = Ok cp /\
  load_checkpoint (exec (save_checkpoint cp) w)
  = (Ok cp, exec (save_checkpoint cp) w) /\
  (checkpoint_file w = None ->
   load_checkpoint w = (Ok (mkCheckpoint [] []), w) /\
   scraped_app_ids (loaded_checkpoint w) = [] /\
   failed_app_ids (loaded_checkpoint w) = []).
Proof.
  split; [done|]. split; [apply read_checkpoint_json_dump|]. split.
  - unfold load_checkpoint. simpl. by rewrite read_checkpoint_json_dump.
  - intros H. unfold load_checkpoint, checkpoint_text, loaded_checkpoint.
    by rewrite H.
Qed.

(** ** Serialization *)

Section pyval_induction.
Variable P : pyval -> Prop.
Hypothesis HNone : P PNone.
Hypothesis HBool : forall b, P (PBool b).
Hypothesis HInt : forall n, P (PInt n).
Hypothesis HFloat : forall bits, P (PFloat bits).
Hypothesis HStr : forall s, P (PStr s).
Hypothesis HDatetime : forall t, P (PDatetime t).
Hypothesis HList : forall l, Forall P l -> P (PList l).
Hypothesis HDict : forall d, Forall (fun kv => P kv.2) d -> P (PDict d).

Fixpoint pyval_nested_ind (v : pyval) : P v :=
  match v with
  | PNone => HNone
  | PBool b => HBool b
  | PInt n => HInt n
  | PFloat bits => HFloat bits
  | PStr s => HStr s
  | PDatetime t => HDatetime t
  | PList l =>
      HList l ((fix go (l : list pyval) : Forall P l :=
                  match l with
                  | [] => @List.Forall_nil _ P
                  | x :: l' => @List.Forall_cons _ P x l' (pyval_nested_ind x) (go l')
                  end) l)
  | PDict d =>
      HDict d ((fix go (d : list (string * pyval)) : Forall (fun kv => P kv.2) d :=
                  match d with
                  | [] => @List.Forall_nil _ _
                  | (k, x) :: d' =>
                      @List.Forall_cons _ (fun kv => P kv.2) (k, x) d'
                                        (pyval_nested_ind x) (go d')
                  end) d)
  end.
End pyval_induction.

(** What [_make_serializable] returns holds no [datetime]: [json.dump]
    accepts it. *)
Lemma _make_serializable_native v : json_native (_make_serializable v) = true.
Proof.
  induction v as [| | | | | |l IH|d IH] using pyval_nested_ind; simpl; try done.
  - induction IH as [|x l Hx _ IHl]; simpl; [done|]. by rewrite Hx.
  - induction IH as [|[k x] d Hx _ IHd]; simpl in *; [done|]. by rewrite Hx.
Qed.

(** On what was loaded from a JSON file it changes nothing. *)
Lemma _make_serializable_id v : json_native v = true -> _make_serializable v = v.
Proof.
  induction v as [| | | | | |l IH|d IH] using pyval_nested_ind; simpl; try done.
  - intros H. f_equal. induction IH as [|x l Hx _ IHl]; simpl in *; [done|].
    apply andb_true_iff in H as [H1 H2]. by rewrite Hx, IHl.
  - intros H. f_equal. induction IH as [|[k x] d Hx _ IHd]; simpl in *; [done|].
    apply andb_true_iff in H as [H1 H2]. by rewrite Hx, IHd.
Qed.

Lemma map_make_serializable_id data :
  forallb json_native data = true -> map _make_serializable data = data.
Proof.
  induction data as [|v data IH]; simpl; [done|].
  intros H. apply andb_true_iff in H as [H1 H2].
  by rewrite _make_serializable_id, IH.
Qed.

(** ** The path of the CSV projection *)

Lemma csv_path_other c rest :
  c <> "."%char -> csv_path (String c rest) = String c (csv_path rest).
Proof.
  intros Hc. destruct c as [[] [] [] [] [] [] [] []]; try reflexivity. done.
Qed.

Ltac on_char c :=
  destruct c as [[] [] [] [] [] [] [] []]; try (eexists; reflexivity).

Lemma csv_path_dot rest :
  exists t, csv_path (String "."%char rest) = String "."%char t.
Proof.
  destruct rest as [|c1 r1]; [by eexists|]. on_char c1.
  destruct r1 as [|c2 r2]; [by eexists|]. on_char c2.
  destruct r2 as [|c3 r3]; [by eexists|]. on_char c3.
  destruct r3 as [|c4 r4]; [by eexists|]. on_char c4.
Qed.

(** The replacement leaves a prefix without a dot what it was. *)
Lemma prefix_csv_path p :
  forallb (fun a => negb (Ascii.eqb a "."%char)) (list_ascii_of_string p) = true ->
  forall s, String.prefix p (csv_path s) = String.prefix p s.
Proof.
  induction p as [|a p IH]; intros Hp s.
  - by destruct (csv_path s), s.
  - simpl in Hp. apply andb_true_iff in Hp as [Ha Hp].
    apply negb_true_iff, Ascii.eqb_neq in Ha.
    destruct s as [|c rest]; [done|].
    destruct (decide (c = "."%char)) as [-> | Hc].
    + destruct (csv_path_dot rest) as (t & ->). simpl.
      by destruct (ascii_dec a ".").
    + rewrite csv_path_other by done. simpl. by rewrite IH.
Qed.

Lemma is_batch_file_csv_path f : is_batch_file (csv_path f) = is_batch_file f.
Proof. by apply prefix_csv_path. Qed.

(** ** Merging *)

Lemma write_csv_runs f text w :
  exists w', runs (write_csv f text) w (Ok tt) w' [EvWriteCsv f text].
Proof. eexists. split; [reflexivity|]. prim_evolves. Qed.

Definition is_json (c : file) : bool :=
  match c with JsonFile _ => true | CsvFile _ => false end.

Definition doc_of (c : file) : list pyval :=
  match c with JsonFile data => data | CsvFile _ => [] end.

(** The batch files of a directory, with what they hold. *)
Definition batch_of (m : gmap string file) : list (string * file) :=
  List.filter (fun fc => is_batch_file fc.1) (map_to_list m).

Definition batch_entries (w : World) : list (string * file) :=
  batch_of (output_dir w).

(** What a merge that could load every batch file emits. *)
Definition merge_events (output_filename : string) (w : World) : list event :=
  EvWriteJson output_filename (map _make_serializable (merged_data w)) ::
  match to_csv (merged_data w) with
  | Returns text => [EvWriteCsv (csv_path output_filename) text]
  | Throws _ => []
  end.

(** The directory such a merge leaves. *)
Definition merged_dir (output_filename : string) (w : World) : gmap string file :=
  let d := <[output_filename := JsonFile (map _make_serializable (merged_data w))]>
             (output_dir w) in
  match to_csv (merged_data w) with
  | Returns text => <[csv_path output_filename := CsvFile text]> d
  | Throws _ => d
  end.

Lemma foldl_extend {A} (load : string -> list A) files :
  forall acc, foldl (fun all_data f => all_data ++ load f) acc files
              = acc ++ concat (load <$> files).
Proof.
  induction files as [|f files IH]; intros acc; simpl.
  - by rewrite app_nil_r.
  - by rewrite IH, app_assoc.
Qed.

Lemma merged_data_concat w :
  merged_data w = concat (document w <$> List.filter is_batch_file (os_listdir w)).
Proof. unfold merged_data. by rewrite foldl_extend. Qed.

Lemma batch_files_entries w :
  List.filter is_batch_file (os_listdir w) = (batch_entries w).*1.
Proof.
  unfold os_listdir, batch_entries, batch_of.
  induction (map_to_list (output_dir w)) as [|[f c] l IH]; [done|].
  rewrite fmap_cons. cbn [List.filter fst].
  destruct (is_batch_file f); [rewrite fmap_cons; cbn [fst]|]; by rewrite IH.
Qed.

Lemma batch_entries_lookup w :
  Forall (fun fc => output_dir w !! fc.1 = Some fc.2) (batch_entries w).
Proof.
  apply Forall_forall. intros [f c] Hin. unfold batch_entries, batch_of in Hin.
  apply list_elem_of_In, List.filter_In in Hin as [Hin _].
  apply list_elem_of_In in Hin. by apply elem_of_map_to_list in Hin.
Qed.

Lemma document_entries w (l : list (string * file)) :
  Forall (fun fc => output_dir w !! fc.1 = Some fc.2) l ->
  document w <$> l.*1 = doc_of <$> l.*2.
Proof.
  induction 1 as [|[f c] l H _ IH]; [done|].
  rewrite !fmap_cons, IH. cbn in *. unfold document. rewrite H. by destruct c.
Qed.

Lemma merged_data_entries w :
  merged_data w = concat (doc_of <$> (batch_entries w).*2).
Proof.
  rewrite merged_data_concat, batch_files_entries.
  by rewrite (document_entries _ _ (batch_entries_lookup w)).
Qed.

Lemma load_batches_json w (l : list (string * file)) :
  Forall (fun fc => output_dir w !! fc.1 = Some fc.2) l ->
  Forall (fun fc => is_json fc.2 = true) l ->
  forall all_data,
    load_batches w l.*1 all_data = Ok (all_data ++ concat (doc_of <$> l.*2)).
Proof.
  induction 1 as [|[f c] l H _ IH]; intros J all_data.
  - simpl. by rewrite app_nil_r.
  - apply Forall_cons in J as [Jc J]. rewrite !fmap_cons. cbn in *.
    unfold json_load. rewrite H. destruct c as [data|text]; [|done].
    rewrite IH by done. simpl. by rewrite app_assoc.
Qed.

Lemma load_batches_not_json w (l : list (string * file)) :
  Forall (fun fc => output_dir w !! fc.1 = Some fc.2) l ->
  Exists (fun fc => is_json fc.2 = false) l ->
  forall all_data, load_batches w l.*1 all_data = Raise JSONDecodeError.
Proof.
  induction 1 as [|[f c] l H _ IH]; intros J all_data.
  - by apply Exists_nil in J.
  - rewrite fmap_cons. cbn in *. unfold json_load. rewrite H.
    destruct c as [data|text]; [|done].
    apply Exists_cons in J as [J | J]; [done|]. by apply IH.
Qed.

(** The three ways a merge goes: nothing to merge; a batch file that is
    not a JSON document, and the exception of [json.load] before anything
    is written; or the merged document, then its CSV projection. *)
Lemma merge_batches_cases output_filename w :
  (batch_entries w = [] /\ merge_batches output_filename w = (Ok tt, w)) \/
  (Exists (fun fc => is_json fc.2 = false) (batch_entries w) /\
   merge_batches output_filename w = (Raise JSONDecodeError, w)) \/
  (batch_entries w <> [] /\
   Forall (fun fc => is_json fc.2 = true) (batch_entries w) /\
   exists w', runs (merge_batches output_filename) w (Ok tt) w'
                   (merge_events output_filename w)).
Proof.
  pose proof (batch_files_entries w) as E.
  pose proof (batch_entries_lookup w) as Hl.
  pose proof (merged_data_entries w) as Hm.
  destruct (batch_entries w) as [|fc l] eqn:Ed.
  { left. split; [done|]. unfold merge_batches. by rewrite E. }
  right.
  destruct (decide (Forall (fun fc => is_json fc.2 = true) (fc :: l))) as [J | J].
  - right. split; [done|]. split; [done|].
    pose proof (load_batches_json w _ Hl J []) as Hload. rewrite <- Hm in Hload.
    destruct (write_json_runs output_filename
                (map _make_serializable (merged_data w)) w) as (w1 & R1).
    assert (exists w', runs
              (write_json output_filename (map _make_serializable (merged_data w)) ;;;
               match to_csv (merged_data w) with
               | Returns text => write_csv (csv_path output_filename) text
               | Throws _ => ret tt
               end) w (Ok tt) w' (merge_events output_filename w))
      as (w' & [Ew V]).
    { unfold merge_events. destruct (to_csv (merged_data w)) as [text|e].
      - destruct (write_csv_runs (csv_path output_filename) text w1) as (w2 & R2).
        exists w2. change (?a :: [?b]) with ([a] ++ [b]). by step R1.
      - exists w1. change [?a] with ([a] ++ []). step R1. apply runs_ret. }
    exists w'. split; [|exact V].
    unfold merge_batches. rewrite E. rewrite fmap_cons in *. cbv zeta.
    by rewrite Hload.
  - left. apply not_Forall_Exists in J; [|apply _]. split.
    + eapply Exists_impl; [exact J|]. intros [f c] H. simpl in *.
      by destruct (is_json c).
    + pose proof (load_batches_not_json w (fc :: l) Hl) as Hload.
      unfold merge_batches. rewrite E. rewrite fmap_cons in *. cbv zeta.
      rewrite Hload; [done|].
      eapply Exists_impl; [exact J|]. intros [f c] H. simpl in *.
      by destruct (is_json c).
Qed.

Lemma merge_events_world output_filename w w' :
  evolves w (merge_events output_filename w) w' ->
  output_dir w' = merged_dir output_filename w /\
  checkpoint_file w' = checkpoint_file w /\
  error_log_file w' = error_log_file w.
Proof.
  intros V. rewrite (ev_dir _ _ _ V), (ev_checkpoint _ _ _ V).
  destruct (ev_log _ _ _ V) as (lines & -> & F).
  unfold merge_events, merged_dir in *.
  destruct (to_csv (merged_data w)); simpl in *;
    apply Forall2_nil_inv_r in F; subst lines; by rewrite app_nil_r.
Qed.

Lemma forallb_app {A} (f : A -> bool) l1 l2 :
  forallb f (l1 ++ l2) = forallb f l1 && forallb f l2.
Proof. induction l1 as [|x l1 IH]; simpl; [done|]. by rewrite IH, andb_assoc. Qed.

Lemma concat_native (docs : list (list pyval)) :
  Forall (fun data => forallb json_native data = true) docs ->
  forallb json_native (concat docs) = true.
Proof.
  induction 1 as [|d docs H _ IH]; simpl; [done|].
  rewrite forallb_app. by apply andb_true_iff.
Qed.

Lemma records_for_app x d1 d2 :
  records_for x (d1 ++ d2) = (records_for x d1 + records_for x d2)%nat.
Proof. unfold records_for. by rewrite List.filter_app, length_app. Qed.

Lemma records_for_concat x (docs : list (list pyval)) :
  records_for x (concat docs) = sum_list (records_for x <$> docs).
Proof.
  induction docs as [|d docs IH]; simpl; [done|].
  by rewrite records_for_app, IH.
Qed.

(** C1 (amended): [merge_batches] does not deduplicate.  When every batch
    artifact of the directory (the files whose name starts with
    [apps_batch_]) is a JSON document of records, it returns normally and
    the merged document is the concatenation of the records of the
    artifacts, each artifact taken once, in the order of the listing, so
    that the number of records for an identifier [x] in it is the sum of
    the numbers of records for [x] in the artifacts.  That document is
    what the output name holds afterwards when the name holds ['.json'];
    when it does not, the CSV projection is written to the same path and,
    unless [pandas] fails, replaces it.  A batch-named file that is not a
    JSON document makes the merge raise before anything is written.
    Without any batch artifact it writes nothing.  (The output name is not
    that of the checkpoint or of the error log.) *)
Theorem merge_concatenates output_filename w :
  let merge := merge_batches output_filename in
  let batch_files := List.filter is_batch_file (os_listdir w) in
  let merged := concat (document w <$> batch_files) in
  (batch_files = [] -> merge w = (Ok tt, w)) /\
  (batch_files <> [] ->
   is_reserved output_filename = false ->
   (forall f, f ∈ batch_files ->
              exists data, output_dir w !! f = Some (JsonFile data) /\
                           forallb json_native data = true) ->
   eval merge w = Ok tt /\
   json_writes (emitted merge w) = [(output_filename, merged)] /\
   (csv_path output_filename <> output_filename ->
    output_dir (exec merge w) !! output_filename = Some (JsonFile merged)) /\
   (csv_path output_filename = output_filename ->
    output_dir (exec merge w) !! output_filename
    = Some match to_csv merged with
           | Returns text => CsvFile text
           | Throws _ => JsonFile merged
           end) /\
   NoDup batch_files /\
   (forall f, f ∈ batch_files <->
              is_batch_file f = true /\ is_Some (output_dir w !! f)) /\
   forall x, records_for x merged
             = sum_list ((fun f => records_for x (document w f)) <$> batch_files)) /\
  ((exists f text, f ∈ batch_files /\ output_dir w !! f = Some (CsvFile text)) ->
   merge w = (Raise JSONDecodeError, w)).
Proof.
  intros merge batch_files merged. subst merge merged batch_files.
  rewrite <- merged_data_concat.
  pose proof (batch_files_entries w) as E.
  pose proof (batch_entries_lookup w) as Hl.
  split; [|split].
  - intros Hnil. unfold merge_batches. by rewrite Hnil.
  - intros Hne _ Hjson.
    assert (J : Forall (fun fc => is_json fc.2 = true /\
                                  forallb json_native (doc_of fc.2) = true)
                       (batch_entries w)).
    { rewrite Forall_forall in Hl. apply Forall_forall. intros fc Hin.
      destruct (Hjson fc.1) as (data & Hd & Hn).
      { rewrite E. apply list_elem_of_fmap. eauto. }
      rewrite (Hl fc Hin) in Hd. inversion Hd as [Hc]. by rewrite Hc. }
    assert (Hid : map _make_serializable (merged_data w) = merged_data w).
    { apply map_make_serializable_id. rewrite merged_data_entries.
      apply concat_native. apply Forall_fmap, Forall_fmap.
      eapply Forall_impl; [exact J|]. by intros fc [_ H]. }
    destruct (merge_batches_cases output_filename w)
      as [[Hnil _] | [[Hx _] | (_ & _ & w' & R)]].
    { rewrite E, Hnil in Hne. done. }
    { exfalso. apply Exists_exists in Hx as (fc & Hin & Hc).
      rewrite Forall_forall in J. destruct (J fc Hin) as [Hj _]. congruence. }
    destruct (merge_events_world _ _ _ (proj2 R)) as (D & _ & _).
    rewrite (runs_eval _ _ _ _ _ R), (runs_emitted _ _ _ _ _ R),
            (runs_exec _ _ _ _ _ R), D.
    unfold merge_events, merged_dir. rewrite Hid.
    split; [done|]. split; [|split; [|split; [|split; [|split]]]].
    + by destruct (to_csv (merged_data w)).
    + intros Hcsv. destruct (to_csv (merged_data w)); cbv zeta.
      * rewrite lookup_insert_ne by done. by rewrite lookup_insert_eq.
      * by rewrite lookup_insert_eq.
    + intros Hcsv. destruct (to_csv (merged_data w)); cbv zeta.
      * by rewrite Hcsv, lookup_insert_eq.
      * by rewrite lookup_insert_eq.
    + unfold os_listdir.
      apply NoDup_ListNoDup, List.NoDup_filter, NoDup_ListNoDup.
      apply NoDup_fst_map_to_list.
    + intros f. unfold os_listdir.
      rewrite list_elem_of_In, List.filter_In, <- list_elem_of_In.
      rewrite list_elem_of_fmap. split.
      * intros [([g c] & -> & Hin) Hb]. split; [done|].
        apply elem_of_map_to_list in Hin. simpl. by exists c.
      * intros [Hb [c Hc]]. split; [|done].
        exists (f, c). split; [done|]. by apply elem_of_map_to_list.
    + intros x. rewrite merged_data_concat, records_for_concat.
      by rewrite <- list_fmap_compose.
  - intros (f & text & Hin & Hf).
    assert (Hx : Exists (fun fc => is_json fc.2 = false) (batch_entries w)).
    { rewrite E in Hin. apply list_elem_of_fmap in Hin as (fc & -> & Hin).
      apply Exists_exists. exists fc. split; [done|].
      rewrite Forall_forall in Hl. rewrite (Hl fc Hin) in Hf.
      inversion Hf as [Hc]. by rewrite Hc. }
    destruct (merge_batches_cases output_filename w)
      as [[Hnil _] | [[_ Hr] | (_ & J & _)]]; [|done|].
    + rewrite Hnil in Hx. by apply Exists_nil in Hx.
    + exfalso. apply Exists_exists in Hx as (fc & Hin' & Hc).
      rewrite Forall_forall in J. rewrite (J fc Hin') in Hc. done.
Qed.

(** ** Failed identifiers *)

Lemma iteration_failed_untouched include_reviews reviews_per_app save_interval idx
    app_id st w res w' evs :
  iteration include_reviews reviews_per_app save_interval idx app_id st w res w' evs ->
  Forall (fun cp => failed_app_ids cp = failed_app_ids (checkpoint st)) (saved evs) /\
  forall st', res = Ok st' ->
              failed_app_ids (checkpoint st') = failed_app_ids (checkpoint st).
Proof.
  destruct 1 as [r w1 fetch w' R F Hr C | e0 es0 w1 fetch w' R F Hz C
                 | e0 es0 w1 fetch w' R F _ Hnz C o
                 | e0 es0 w1 fetch w' s R F _ Hz C1 C2 o data cp];
    rewrite ?saved_app, (saved_fetch _ _ F), ?saved_reviews_stage; simpl;
    (split; [by repeat constructor | intros st' E; by inversion E]).
Qed.

Lemma looping_failed_untouched include_reviews reviews_per_app save_interval idx ids
    st w res w' evs :
  looping include_reviews reviews_per_app save_interval idx ids st w res w' evs ->
  Forall (fun cp => failed_app_ids cp = failed_app_ids (checkpoint st)) (saved evs) /\
  forall st', res = Ok st' ->
              failed_app_ids (checkpoint st') = failed_app_ids (checkpoint st).
Proof.
  induction 1 as [| idx app_id rest st w st1 w1 evs1 res w2 evs2 I L IH
                  | idx app_id rest st w e w1 evs1 I].
  - split; [constructor | intros st' E; by inversion E].
  - destruct (iteration_failed_untouched _ _ _ _ _ _ _ _ _ _ I) as [F1 E1].
    destruct IH as [F2 E2]. specialize (E1 st1 eq_refl).
    rewrite saved_app. split.
    + apply Forall_app. split; [done|].
      eapply Forall_impl; [exact F2|]. intros cp Hcp. simpl in Hcp. congruence.
    + intros st' E. rewrite (E2 st' E). done.
  - by apply (iteration_failed_untouched _ _ _ _ _ _ _ _ _ _ I).
Qed.

Lemma foldl_last_saved (P : Checkpoint -> Prop) (cps : list Checkpoint) :
  forall file, Forall P cps -> P (default (mkCheckpoint [] []) file) ->
               P (default (mkCheckpoint [] [])
                          (foldl (fun _ cp => Some cp) file cps)).
Proof.
  induction cps as [|cp cps IH]; intros file F H0; simpl; [done|].
  apply Forall_cons in F as [Hcp F]. by apply IH.
Qed.

(** No run of the Batch Runner ever changes the [failed_app_ids] of the
    persisted checkpoint, whatever fails. *)
Lemma failed_app_ids_never_written app_ids (include_reviews : bool) reviews_per_app
    save_interval w :
  failed_app_ids
    (loaded_checkpoint
       (exec (batch_scrape_apps app_ids include_reviews reviews_per_app save_interval) w))
  = failed_app_ids (loaded_checkpoint w).
Proof.
  destruct (decide (remaining app_ids (scraped_ids (initial_state w)) = []))
    as [Hrem | Hrem].
  { unfold exec. by rewrite (batch_scrape_apps_noop _ _ _ _ _ Hrem). }
  destruct (batch_scrape_apps_looping app_ids include_reviews reviews_per_app
                                      save_interval w Hrem)
    as (res & w1 & evs & L & R).
  destruct (looping_failed_untouched _ _ _ _ _ _ _ _ _ _ L) as [F E].
  simpl in F, E.
  destruct res as [st|e].
  - destruct R as (w' & R). rewrite (runs_exec _ _ _ _ _ R).
    unfold loaded_checkpoint at 1. rewrite (ev_checkpoint _ _ _ (proj2 R)).
    apply (foldl_last_saved
             (fun cp => failed_app_ids cp = failed_app_ids (loaded_checkpoint w)));
      [|done].
    rewrite !saved_app. apply Forall_app. split; [done|].
    apply Forall_app. split.
    + unfold final_flush. destruct (scraped_data st); constructor.
    + repeat constructor. simpl. by apply E.
  - rewrite (runs_exec _ _ _ _ _ R).
    unfold loaded_checkpoint at 1. rewrite (ev_checkpoint _ _ _ (proj2 R)).
    by apply (foldl_last_saved
                (fun cp => failed_app_ids cp = failed_app_ids (loaded_checkpoint w))).
Qed.

(** * Further properties of the scraper *)

(** ** Serialization of what is written *)

Lemma json_native_map_make_serializable data :
  forallb json_native (map _make_serializable data) = true.
Proof.
  induction data as [|v data IH]; simpl; [done|].
  by rewrite _make_serializable_native, IH.
Qed.

Lemma iteration_writes_native include_reviews reviews_per_app save_interval idx app_id
    st w res w' evs :
  iteration include_reviews reviews_per_app save_interval idx app_id st w res w' evs ->
  Forall (fun fd => forallb json_native fd.2 = true) (json_writes evs).
Proof.
  destruct 1 as [r w1 fetch w' R F Hr C | e0 es0 w1 fetch w' R F Hz C
                 | e0 es0 w1 fetch w' R F _ Hnz C o
                 | e0 es0 w1 fetch w' s R F _ Hz C1 C2 o data cp];
    rewrite ?json_writes_app, (json_writes_fetch _ _ F), ?json_writes_reviews_stage;
    simpl; repeat constructor.
  simpl. apply json_native_map_make_serializable.
Qed.

Lemma looping_writes_native include_reviews reviews_per_app save_interval idx ids
    st w res w' evs :
  looping include_reviews reviews_per_app save_interval idx ids st w res w' evs ->
  Forall (fun fd => forallb json_native fd.2 = true) (json_writes evs).
Proof.
  induction 1 as [| idx app_id rest st w st1 w1 evs1 res w2 evs2 I L IH
                  | idx app_id rest st w e w1 evs1 I].
  - constructor.
  - rewrite json_writes_app. apply Forall_app. split; [|done].
    by apply (iteration_writes_native _ _ _ _ _ _ _ _ _ _ I).
  - by apply (iteration_writes_native _ _ _ _ _ _ _ _ _ _ I).
Qed.

(** X1: whatever the upstream source returns (reviews carry [datetime]
    values), no document written by a run of [batch_scrape_apps] holds a
    [datetime] at any depth: every batch is made of values [json.dump]
    accepts. *)
Theorem batches_hold_no_datetime app_ids (include_reviews : bool) reviews_per_app
    save_interval w :
  Forall (fun fd => forallb json_native fd.2 = true)
         (json_writes (emitted (batch_scrape_apps app_ids include_reviews
                                                  reviews_per_app save_interval) w)).
Proof.
  destruct (decide (remaining app_ids (scraped_ids (initial_state w)) = []))
    as [Hrem | Hrem].
  - rewrite (emitted_noop _ _ _ (batch_scrape_apps_noop _ _ _ _ _ Hrem)). constructor.
  - destruct (batch_scrape_apps_looping app_ids include_reviews reviews_per_app
                                        save_interval w Hrem)
      as (res & w1 & evs & L & R).
    pose proof (looping_writes_native _ _ _ _ _ _ _ _ _ _ L) as F.
    destruct res as [st|e].
    + destruct R as (w' & R). rewrite (runs_emitted _ _ _ _ _ R).
      rewrite !json_writes_app. apply Forall_app. split; [done|].
      apply Forall_app. split; [|constructor].
      unfold final_flush. destruct (scraped_data st) as [|item data];
        repeat constructor.
      apply (json_native_map_make_serializable (item :: data)).
    + by rewrite (runs_emitted _ _ _ _ _ R).
Qed.

(** X2: [_make_serializable] is idempotent, and it changes nothing in a
    value that holds no [datetime]; a [datetime] itself becomes the string
    of its ISO rendering. *)
Theorem make_serializable_idempotent v :
  _make_serializable (_make_serializable v) = _make_serializable v /\
  (json_native v = true -> _make_serializable v = v) /\
  (forall t, _make_serializable (PDatetime t) = PStr (isoformat t)).
Proof.
  split; [|split].
  - apply _make_serializable_id, _make_serializable_native.
  - apply _make_serializable_id.
  - done.
Qed.

(** ** Bounds of the retry loop *)

(** X3: [scrape_app_safely] issues nothing but detail fetches for its
    identifier, at most [retries] of them, and touches no file.  With
    [retries <= 0] it returns [None] at once, without any call.  With
    [retries >= 1] it calls at least once and waits in total at most
    [2^(retries-1) - 1] seconds. *)
Theorem retry_loop_bounds app_id retries w :
  let m := scrape_app_safely app_id retries in
  let evs := emitted m w in
  calls_in evs = length (app_calls evs) /\
  (forall i ok, (i, ok) ∈ app_calls evs -> i = app_id) /\
  (length (app_calls evs) <= Z.to_nat retries)%nat /\
  json_writes evs = [] /\ saved evs = [] /\
  (retries <= 0 -> m w = (Ok None, w)) /\
  (1 <= retries ->
   (1 <= length (app_calls evs))%nat /\
   slept evs <= 1000 * (2 ^ (retries - 1) - 1)).
Proof.
  intros m evs.
  destruct (Z.le_gt_cases retries 0) as [Hle | Hgt].
  - assert (E : m w = (Ok None, w)).
    { unfold m, scrape_app_safely. by rewrite seqZ_nil by lia. }
    unfold evs. rewrite (emitted_noop _ _ _ E).
    repeat split; try done; try (simpl; lia); try exact E.
    intros i ok Hin. by apply elem_of_nil in Hin.
  - destruct (scrape_attempts_bounds app_id retries (Z.to_nat retries) 0 w)
      as (r & w' & evs' & R & B1 & B2 & B3 & _); [lia | lia |].
    replace (Z.of_nat (Z.to_nat retries)) with retries in R by lia.
    destruct (scrape_attempts_total app_id retries (seqZ 0 retries) w)
      as (r0 & w0 & evs0 & R0 & F & _).
    destruct (runs_det _ _ _ _ _ _ _ _ R R0) as (_ & _ & <-).
    fold (scrape_app_safely app_id retries) in R. fold m in R.
    unfold evs. rewrite (runs_emitted _ _ _ _ _ R).
    destruct (B3 ltac:(lia)) as [B3a B3b].
    repeat split; try done; try lia.
    + by apply app_calls_fetch.
    + by apply (json_writes_fetch app_id).
    + by apply (saved_fetch app_id).
Qed.

(** ** Effects of the Discovery Stage *)

Lemma search_calls_app evs1 evs2 :
  search_calls (evs1 ++ evs2) = search_calls evs1 ++ search_calls evs2.
Proof. apply omap_app. Qed.

Definition quiet_search (e : event) : Prop :=
  match e with
  | EvSearch _ _ _ | EvSleep _ | EvLogError _ => True
  | _ => False
  end.

Lemma discover_categories_effects categories apps_per_category :
  forall (all_app_ids : gset string) w,
    exists r w' evs,
      runs (discover_categories categories apps_per_category all_app_ids) w
           (Ok r) w' evs /\
      search_calls evs
      = imap (fun i c => (c, apps_per_category,
                          is_ok (search upstream (ncalls w + i) c apps_per_category)))
             categories /\
      length (logged evs)
      = length (List.filter (fun c => negb c.2) (search_calls evs)) /\
      sleeps evs = replicate (length (List.filter snd (search_calls evs))) 1000 /\
      Forall quiet_search evs.
Proof.
  induction categories as [|category rest IH]; intros s w.
  - exists s, w, []. split; [apply runs_ret | by repeat split].
  - destruct (call_search_runs category apps_per_category w) as (w1 & R1).
    pose proof (runs_ncalls _ _ _ _ _ R1) as N1.
    unfold calls_in in N1; simpl in N1.
    assert (Himap : forall w2, ncalls w2 = S (ncalls w) ->
      imap (fun i c => (c, apps_per_category,
                        is_ok (search upstream (ncalls w2 + i) c apps_per_category))) rest
      = imap ((fun i c => (c, apps_per_category,
                is_ok (search upstream (ncalls w + i) c apps_per_category))) ∘ S) rest).
    { intros w2 E. apply imap_ext. intros i c _. simpl. rewrite E.
      by replace (S (ncalls w) + i)%nat with (ncalls w + S i)%nat by lia. }
    destruct (search upstream (ncalls w) category apps_per_category)
      as [results|e] eqn:E.
    + destruct (sleep_runs 1000 w1) as (w2 & R2 & _).
      pose proof (runs_ncalls _ _ _ _ _ R2) as N2.
      unfold calls_in in N2; simpl in N2.
      destruct (IH (add_hits results s) w2) as (r & w3 & evs & R3 & S3 & L3 & P3 & Q3).
      exists r, w3, ([EvSearch category apps_per_category true] ++ [EvSleep 1000] ++ evs).
      split; [|repeat split].
      * simpl discover_categories. step R1. step R2. exact R3.
      * simpl. rewrite Nat.add_0_r, E. simpl. f_equal.
        rewrite S3. apply Himap. lia.
      * simpl. exact L3.
      * simpl. by rewrite P3.
      * by repeat constructor.
    + destruct (log_error_runs ("Search failed for '" +:+ category +:+ "': " +:+ e) w1)
        as (w2 & R2).
      pose proof (runs_ncalls _ _ _ _ _ R2) as N2.
      unfold calls_in in N2; simpl in N2.
      destruct (IH s w2) as (r & w3 & evs & R3 & S3 & L3 & P3 & Q3).
      exists r, w3, ([EvSearch category apps_per_category false] ++
                     [EvLogError ("Search failed for '" +:+ category +:+ "': " +:+ e)]
                     ++ evs).
      split; [|repeat split].
      * simpl discover_categories. step R1. step R2. exact R3.
      * simpl. rewrite Nat.add_0_r, E. simpl. f_equal.
        rewrite S3. apply Himap. lia.
      * simpl. by rewrite L3.
      * simpl. exact P3.
      * by repeat constructor.
Qed.

Lemma quiet_search_readings evs :
  Forall quiet_search evs ->
  app_calls evs = [] /\ reviews_calls evs = [] /\ json_writes evs = [] /\ saved evs = [].
Proof.
  induction 1 as [|e evs He _ IH]; [done|]. by destruct e.
Qed.

Lemma quiet_search_files evs : Forall quiet_search evs -> file_writes evs = [].
Proof.
  induction 1 as [|e evs He _ IH]; [done|]. by destruct e.
Qed.

Lemma discovered_nothing categories n_hits :
  forall call,
    (forall i c, categories !! i = Some c ->
                 is_ok (search upstream (call + i) c n_hits) = false) ->
    discovered call categories n_hits = ∅.
Proof.
  induction categories as [|c rest IH]; intros call H; simpl; [done|].
  pose proof (H 0%nat c eq_refl) as H0. rewrite Nat.add_0_r in H0.
  destruct (search upstream call c n_hits); [done|].
  rewrite (left_id_L ∅ (∪)). apply IH. intros i c' Hi.
  replace (S call + i)%nat with (call + S i)%nat by lia. by apply H.
Qed.

(** X4: the Discovery Stage never raises.  It issues exactly one search
    per category, in the order given and with the configured cap; a query
    that fails costs one line of the error log and nothing else, a query
    that is answered is followed by a pause of one second.  It fetches no
    detail and no review and leaves the checkpoint and the output directory
    as they were.  When every query fails, or there is no query, the output
    is the empty list. *)
Theorem discovery_is_fault_tolerant categories apps_per_category w :
  let m := discover_apps_by_categories categories apps_per_category in
  let evs := emitted m w in
  (exists output, eval m w = Ok output) /\
  search_calls evs
  = imap (fun i c => (c, apps_per_category,
                      is_ok (search upstream (ncalls w + i) c apps_per_category)))
         categories /\
  length (logged evs) = length (List.filter (fun c => negb c.2) (search_calls evs)) /\
  sleeps evs = replicate (length (List.filter snd (search_calls evs))) 1000 /\
  app_calls evs = [] /\ reviews_calls evs = [] /\
  checkpoint_file (exec m w) = checkpoint_file w /\
  output_dir (exec m w) = output_dir w /\
  ((forall i c, categories !! i = Some c ->
                is_ok (search upstream (ncalls w + i) c apps_per_category) = false) ->
   eval m w = Ok []).
Proof.
  intros m evs.
  destruct (discover_categories_effects categories apps_per_category ∅ w)
    as (r & w' & evs' & R & S & L & P & Q).
  destruct (discover_categories_runs categories apps_per_category ∅ w)
    as (w0 & evs0 & R0).
  destruct (runs_det _ _ _ _ _ _ _ _ R R0) as (Er & _ & _).
  inversion Er; subst r; clear Er R0.
  assert (Rm : runs m w (Ok (elements (∅ ∪ discovered (ncalls w) categories
                                                       apps_per_category))) w' evs').
  { eapply runs_cast; [unfold m, discover_apps_by_categories; step R; apply runs_ret|].
    by rewrite app_nil_r. }
  unfold evs. rewrite (runs_emitted _ _ _ _ _ Rm), (runs_eval _ _ _ _ _ Rm),
    (runs_exec _ _ _ _ _ Rm).
  destruct (quiet_search_readings _ Q) as (Q1 & Q2 & Q3 & Q4).
  repeat split; try done.
  - by eexists.
  - rewrite (ev_checkpoint _ _ _ (proj2 Rm)), Q4. done.
  - by rewrite (ev_dir _ _ _ (proj2 Rm)), (quiet_search_files _ Q).
  - intros Hfail. rewrite (discovered_nothing _ _ _ Hfail).
    by rewrite (left_id_L ∅ (∪)), elements_empty.
Qed.

(** ** What a run completes and writes *)

(** One iteration that returns: either nothing is completed, or one record
    for the identifier joins the accumulator, which is then kept or written
    out whole. *)
Lemma iteration_record include_reviews reviews_per_app save_interval idx app_id
    st w st' w' evs :
  iteration include_reviews reviews_per_app save_interval idx app_id st w
            (Ok st') w' evs ->
  (st' = st /\ json_writes evs = [] /\ saved evs = []) \/
  exists record,
    fetched_record include_reviews reviews_per_app app_id record /\
    (app_id, true) ∈ app_calls evs /\
    scraped_ids st' = scraped_ids st ∪ {[ app_id ]} /\
    ((scraped_data st' = scraped_data st ++ [record] /\
      json_writes evs = [] /\ saved evs = []) \/
     (scraped_data st' = [] /\
      (json_writes evs).*2 = [map _make_serializable (scraped_data st ++ [record])] /\
      saved evs = [mkCheckpoint (elements (scraped_ids st'))
                                (failed_app_ids (checkpoint st))])).
Proof.
  intros I. inversion I as [r w1 fetch w0 R F Hr C | e0 es0 w1 fetch w0 R F Hz C
                 | e0 es0 w1 fetch w0 R F Hsi Hnz C o
                 | e0 es0 w1 fetch w0 s R F Hsi Hz C1 C2 o data cp]; subst.
  - left. by rewrite json_writes_app, saved_app, (json_writes_fetch _ _ F),
                     (saved_fetch _ _ F).
  - right. destruct (scrape_app_safely_some _ _ _ _ _ _ R) as ((n & Hn) & Hin & _).
    exists (PDict (with_reviews include_reviews o (e0 :: es0))).
    split; [by exists n, (ncalls w1), e0, es0|].
    split; [rewrite app_calls_app; apply elem_of_app; by left|].
    split; [done|]. left.
    by rewrite !json_writes_app, !saved_app, (json_writes_fetch _ _ F),
               (saved_fetch _ _ F), json_writes_reviews_stage, saved_reviews_stage.
  - right. destruct (scrape_app_safely_some _ _ _ _ _ _ R) as ((n & Hn) & Hin & _).
    exists (PDict (with_reviews include_reviews o (e0 :: es0))).
    split; [by exists n, (ncalls w1), e0, es0|].
    split; [rewrite app_calls_app; apply elem_of_app; by left|].
    split; [done|]. right.
    by rewrite !json_writes_app, !saved_app, (json_writes_fetch _ _ F),
               (saved_fetch _ _ F), json_writes_reviews_stage, saved_reviews_stage.
Qed.

Lemma looping_records include_reviews reviews_per_app save_interval idx ids
    st w res w' evs :
  looping include_reviews reviews_per_app save_interval idx ids st w res w' evs ->
  forall st', res = Ok st' ->
  exists completed records,
    sublist completed ids /\
    Forall2 (fetched_record include_reviews reviews_per_app) completed records /\
    concat (json_writes evs).*2 ++ map _make_serializable (scraped_data st')
    = map _make_serializable (scraped_data st ++ records) /\
    scraped_ids st' = scraped_ids st ∪ list_to_set completed /\
    (forall i, i ∈ completed -> (i, true) ∈ app_calls evs).
Proof.
  induction 1 as [| idx app_id rest st w st1 w1 evs1 res w2 evs2 I L IH
                  | idx app_id rest st w e w1 evs1 I]; intros st' E.
  - inversion E; subst st'. exists [], []. repeat split; try done.
    + by rewrite app_nil_r.
    + simpl. by rewrite (right_id_L ∅ (∪)).
    + intros i Hi. by apply elem_of_nil in Hi.
  - destruct (IH st' E) as (c2 & r2 & S2 & F2 & W2 & I2 & A2).
    assert (Hcalls : forall i, i ∈ c2 -> (i, true) ∈ app_calls (evs1 ++ evs2)).
    { intros i Hi. rewrite app_calls_app. apply elem_of_app. right. by apply A2. }
    rewrite json_writes_app, fmap_app, concat_app.
    destruct (iteration_record _ _ _ _ _ _ _ _ _ _ I)
      as [(-> & J & _) | (record & Hrec & Hin & Hids & [(Hd & J & _) | (Hd & J & _)])].
    + exists c2, r2. rewrite J. repeat split; try done. by apply sublist_cons.
    + exists (app_id :: c2), (record :: r2). rewrite J. repeat split.
      * by apply sublist_skip.
      * by constructor.
      * simpl. rewrite W2, Hd. by rewrite <- app_assoc.
      * rewrite I2, Hids. simpl. by rewrite (assoc_L (∪)).
      * intros i Hi. apply elem_of_cons in Hi as [-> | Hi]; [|by apply Hcalls].
        rewrite app_calls_app. apply elem_of_app. by left.
    + exists (app_id :: c2), (record :: r2). rewrite J. repeat split.
      * by apply sublist_skip.
      * by constructor.
      * simpl. rewrite app_nil_r, <- app_assoc, W2, Hd. simpl.
        rewrite !map_app. simpl. by rewrite <- app_assoc.
      * rewrite I2, Hids. simpl. by rewrite (assoc_L (∪)).
      * intros i Hi. apply elem_of_cons in Hi as [-> | Hi]; [|by apply Hcalls].
        rewrite app_calls_app. apply elem_of_app. by left.
  - done.
Qed.


(** ** Runs that raise *)

Lemma looping_raise_zero include_reviews reviews_per_app save_interval idx ids
    st w res w' evs :
  looping include_reviews reviews_per_app save_interval idx ids st w res w' evs ->
  forall e, res = Raise e -> save_interval = 0 /\ e = ZeroDivisionError.
Proof.
  induction 1 as [| idx app_id rest st w st1 w1 evs1 res w2 evs2 I L IH
                  | idx app_id rest st w e w1 evs1 I]; intros e' E.
  - done.
  - by apply IH.
  - inversion E; subst e'. by inversion I.
Qed.

Lemma looping_zero include_reviews reviews_per_app idx ids st w res w' evs :
  looping include_reviews reviews_per_app 0 idx ids st w res w' evs ->
  json_writes evs = [] /\ saved evs = [] /\ (forall st', res = Ok st' -> st' = st).
Proof.
  induction 1 as [| idx app_id rest st w st1 w1 evs1 res w2 evs2 I L IH
                  | idx app_id rest st w e w1 evs1 I].
  - repeat split. intros st' E. by inversion E.
  - destruct IH as (J2 & S2 & E2).
    inversion I as [r w0 fetch w3 R F Hr C | | |]; subst; try done.
    rewrite !json_writes_app, !saved_app, (json_writes_fetch _ _ F),
      (saved_fetch _ _ F), J2, S2. by repeat split.
  - inversion I as [| e0 es0 w0 fetch w3 R F Hz C | |]; subst.
    rewrite !json_writes_app, !saved_app, (json_writes_fetch _ _ F),
      (saved_fetch _ _ F), json_writes_reviews_stage, saved_reviews_stage.
    by repeat split.
Qed.

(** X7: with [save_interval = 0] a run never writes a batch and leaves the
    output directory as it was.  It raises [ZeroDivisionError] at the first
    remaining identifier whose detail fetch returns a populated payload,
    after that single fetch and before anything is persisted: the
    checkpoint file is unchanged and the fetched record is lost. *)
Theorem zero_interval_loses_the_first_record app_ids (include_reviews : bool)
    reviews_per_app w :
  let run := batch_scrape_apps app_ids include_reviews reviews_per_app 0 in
  let before : gset string := list_to_set (scraped_app_ids (loaded_checkpoint w)) in
  json_writes (emitted run w) = [] /\
  output_dir (exec run w) = output_dir w /\
  (eval run w = Raise ZeroDivisionError ->
   saved (emitted run w) = [] /\ checkpoint_file (exec run w) = checkpoint_file w) /\
  (forall app_id rest, remaining app_ids before = app_id :: rest ->
     always_populated upstream [app_id] ->
     eval run w = Raise ZeroDivisionError /\
     app_calls (emitted run w) = [(app_id, true)]).
Proof.
  intros run before.
  destruct (batch_scrape_apps_runs app_ids include_reviews reviews_per_app 0 w)
    as (res0 & w0 & evs0 & R0).
  fold run in R0.
  rewrite (runs_emitted _ _ _ _ _ R0), (runs_exec _ _ _ _ _ R0), (runs_eval _ _ _ _ _ R0).
  assert (J : json_writes evs0 = [] /\ (res0 = Raise ZeroDivisionError -> saved evs0 = [])).
  { destruct (decide (remaining app_ids (scraped_ids (initial_state w)) = []))
      as [Hrem | Hrem].
    { pose proof (batch_scrape_apps_noop app_ids include_reviews reviews_per_app
                                         0 w Hrem) as E.
      fold run in E. destruct R0 as [E0 V0]. rewrite E in E0. inversion E0; subst.
      pose proof (ev_trace _ _ _ V0) as T.
      assert (evs0 = []) as ->; [|done].
      apply (app_inv_head (trace w0)). by rewrite app_nil_r. }
    destruct (batch_scrape_apps_looping app_ids include_reviews reviews_per_app
                                        0 w Hrem)
      as (res & w1 & evs & L & R).
    destruct (looping_zero _ _ _ _ _ _ _ _ _ L) as (J & S & E).
    destruct res as [st|e].
    - destruct R as (w' & R). fold run in R.
      destruct (runs_det _ _ _ _ _ _ _ _ R0 R) as (-> & -> & ->).
      split; [|done].
      rewrite !json_writes_app, J. rewrite (E st eq_refl). simpl.
      unfold final_flush. by simpl.
    - fold run in R. destruct (runs_det _ _ _ _ _ _ _ _ R0 R) as (-> & -> & ->).
      by split. }
  destruct J as [J S]. split; [done|]. split; [|split].
  - pose proof (proj2 (batch_scrape_apps_dir app_ids include_reviews reviews_per_app
                                             0 w)) as D.
    fold run in D.
    by rewrite (runs_emitted _ _ _ _ _ R0), (runs_exec _ _ _ _ _ R0), J in D.
  - intros Hr. split; [by apply S|].
    by rewrite (ev_checkpoint _ _ _ (proj2 R0)), (S Hr).
  - intros app_id rest Hrem Hpop.
    assert (Hne : remaining app_ids (scraped_ids (initial_state w)) <> []).
    { unfold initial_state. simpl. fold before. by rewrite Hrem. }
    destruct (batch_scrape_apps_looping app_ids include_reviews reviews_per_app
                                        0 w Hne)
      as (res & w1 & evs & L & R).
    unfold initial_state in L at 1. simpl in L. fold before in L. rewrite Hrem in L.
    destruct (Hpop (ncalls w) app_id) as (entry & entries & Hd); [by left|].
    destruct (scrape_app_safely_first _ _ _ Hd) as (wf & Rf).
    assert (Hit : forall r wi ei,
      iteration include_reviews reviews_per_app 0 0 app_id (initial_state w) w r wi ei ->
      r = Raise ZeroDivisionError /\ app_calls ei = [(app_id, true)]).
    { intros r wi ei I.
      inversion I as [r0 w2 fetch w3 Rr F Hr C | e0 es0 w2 fetch w3 Rr F Hz C | |];
        subst; try done.
      - destruct (runs_det _ _ _ _ _ _ _ _ Rr Rf) as (Er & _ & _).
        destruct Hr as [-> | ->]; by inversion Er.
      - destruct (runs_det _ _ _ _ _ _ _ _ Rr Rf) as (_ & _ & ->).
        split; [done|]. by rewrite app_calls_app, app_calls_reviews_stage. }
    inversion L as [| ? ? ? ? ? st1 w2 evs1 ? ? evs2 I L2 | ? ? ? ? ? e w2 evs1 I]; subst.
    + by destruct (Hit _ _ _ I).
    + destruct (Hit _ _ _ I) as [_ Hcalls].
      fold run in R. destruct (runs_det _ _ _ _ _ _ _ _ R0 R) as (-> & _ & ->).
      split; [|done]. destruct (Hit _ _ _ I) as [Hr _]. by inversion Hr.
Qed.

(** ** The persisted list of completed identifiers *)

Lemma iteration_saved_nodup include_reviews reviews_per_app save_interval idx app_id
    st w res w' evs :
  iteration include_reviews reviews_per_app save_interval idx app_id st w res w' evs ->
  Forall (fun cp => NoDup (scraped_app_ids cp)) (saved evs).
Proof.
  destruct 1 as [r w1 fetch w' R F Hr C | e0 es0 w1 fetch w' R F Hz C
                 | e0 es0 w1 fetch w' R F _ Hnz C o
                 | e0 es0 w1 fetch w' s R F _ Hz C1 C2 o data cp];
    rewrite ?saved_app, (saved_fetch _ _ F), ?saved_reviews_stage; simpl;
    repeat constructor.
  simpl. apply NoDup_elements.
Qed.

Lemma looping_saved_nodup include_reviews reviews_per_app save_interval idx ids
    st w res w' evs :
  looping include_reviews reviews_per_app save_interval idx ids st w res w' evs ->
  Forall (fun cp => NoDup (scraped_app_ids cp)) (saved evs).
Proof.
  induction 1 as [| idx app_id rest st w st1 w1 evs1 res w2 evs2 I L IH
                  | idx app_id rest st w e w1 evs1 I].
  - constructor.
  - rewrite saved_app. apply Forall_app. split; [|done].
    by apply (iteration_saved_nodup _ _ _ _ _ _ _ _ _ _ I).
  - by apply (iteration_saved_nodup _ _ _ _ _ _ _ _ _ _ I).
Qed.

Lemma foldl_saved_last (P : Checkpoint -> Prop) (cps : list Checkpoint) :
  forall file, cps <> [] -> Forall P cps ->
               P (default (mkCheckpoint [] []) (foldl (fun _ cp => Some cp) file cps)).
Proof.
  induction cps as [|cp cps IH]; intros file Hne F; [done|].
  apply Forall_cons in F as [Hcp F]. simpl.
  destruct cps as [|cp' cps']; [done|]. by apply IH.
Qed.

(** X8: whatever happens during a run, the persisted list of completed
    identifiers only grows: every identifier completed before the run is
    still completed after it, and an identifier completed after it either
    was so before, or is one of the requested identifiers, was not yet
    completed, and had a detail fetch return during the run.  Once the run
    has persisted a checkpoint, the list holds no identifier twice. *)
Theorem completed_only_grows app_ids (include_reviews : bool) reviews_per_app
    save_interval w :
  let run := batch_scrape_apps app_ids include_reviews reviews_per_app save_interval in
  let before := scraped_app_ids (loaded_checkpoint w) in
  let after := scraped_app_ids (loaded_checkpoint (exec run w)) in
  (forall i, i ∈ before -> i ∈ after) /\
  (forall i, i ∈ after ->
     i ∈ before \/
     (i ∈ app_ids /\ (i ∉ before) /\ (i, true) ∈ app_calls (emitted run w))) /\
  (saved (emitted run w) <> [] -> NoDup after).
Proof.
  intros run before after.
  destruct (decide (remaining app_ids (scraped_ids (initial_state w)) = []))
    as [Hrem | Hrem].
  { pose proof (batch_scrape_apps_noop app_ids include_reviews reviews_per_app
                                       save_interval w Hrem) as E.
    fold run in E. unfold after, exec. rewrite (emitted_noop _ _ _ E), E. simpl.
    repeat split; try done. by left. }
  destruct (batch_scrape_apps_looping app_ids include_reviews reviews_per_app
                                      save_interval w Hrem)
    as (res & w1 & evs & L & R).
  pose proof (looping_saved_nodup _ _ _ _ _ _ _ _ _ _ L) as N.
  destruct res as [st|e].
  - destruct R as (w' & R). fold run in R.
    destruct (looping_records _ _ _ _ _ _ _ _ _ _ L st eq_refl)
      as (completed & records & S & F & W & I & A).
    simpl in I.
    assert (Hafter : forall i, i ∈ after <-> (i ∈ before \/ i ∈ completed)).
    { intros i. unfold after. rewrite (runs_exec _ _ _ _ _ R).
      pose proof R as R'. rewrite app_assoc in R'. unfold loaded_checkpoint at 1.
      rewrite (runs_checkpoint_saved _ _ _ _ _ _ R'). simpl.
      rewrite elem_of_elements, I, elem_of_union, !elem_of_list_to_set. done. }
    split; [|split].
    + intros i Hi. apply Hafter. by left.
    + intros i Hi. apply Hafter in Hi as [Hi | Hi]; [by left|]. right.
      assert (Hr : i ∈ remaining app_ids (scraped_ids (initial_state w))).
      { by apply (sublist_subseteq _ _ S). }
      apply elem_of_remaining in Hr as [Hr1 Hr2]. simpl in Hr2.
      rewrite elem_of_list_to_set in Hr2. repeat split; try done.
      rewrite (runs_emitted _ _ _ _ _ R), app_calls_app. apply elem_of_app.
      left. by apply A.
    + intros _. unfold after. rewrite (runs_exec _ _ _ _ _ R).
      pose proof R as R'. rewrite app_assoc in R'. unfold loaded_checkpoint at 1.
      rewrite (runs_checkpoint_saved _ _ _ _ _ _ R'). simpl. apply NoDup_elements.
  - fold run in R.
    destruct (looping_raise_zero _ _ _ _ _ _ _ _ _ _ L e eq_refl) as [-> _].
    destruct (looping_zero _ _ _ _ _ _ _ _ _ L) as (_ & S & _).
    unfold after. rewrite (runs_emitted _ _ _ _ _ R), (runs_exec _ _ _ _ _ R).
    unfold loaded_checkpoint at 1 2.
    rewrite (ev_checkpoint _ _ _ (proj2 R)), S. simpl.
    repeat split; try done. by left.
Qed.

(** ** Pacing *)

Lemma slept_nonneg_reading (evs : list event) :
  Forall (fun ms => 0 <= ms) (sleeps evs) -> 0 <= slept evs.
Proof.
  unfold slept. induction 1 as [|ms l H _ IH]; simpl; lia.
Qed.

Lemma iteration_slept include_reviews reviews_per_app save_interval idx app_id
    st w st' w' evs :
  iteration include_reviews reviews_per_app save_interval idx app_id st w
            (Ok st') w' evs ->
  1200 <= slept evs.
Proof.
  intros I.
  inversion I as [r w1 fetch w0 R F Hr C | e0 es0 w1 fetch w0 R F Hz C
                 | e0 es0 w1 fetch w0 R F Hsi Hnz C o
                 | e0 es0 w1 fetch w0 s R F Hsi Hz C1 C2 o data cp]; subst;
    rewrite !slept_app, ?slept_reviews_stage;
    pose proof (slept_fetch_nonneg _ _ F); unfold slept at 2; simpl; lia.
Qed.

Lemma looping_slept include_reviews reviews_per_app save_interval idx ids
    st w res w' evs :
  looping include_reviews reviews_per_app save_interval idx ids st w res w' evs ->
  forall st', res = Ok st' -> 1200 * Z.of_nat (length ids) <= slept evs.
Proof.
  induction 1 as [| idx app_id rest st w st1 w1 evs1 res w2 evs2 I L IH
                  | idx app_id rest st w e w1 evs1 I]; intros st' E.
  - unfold slept. simpl. lia.
  - rewrite slept_app. pose proof (iteration_slept _ _ _ _ _ _ _ _ _ _ I).
    specialize (IH st' E). simpl length. lia.
  - done.
Qed.

(** The events of one identifier in the loop: detail fetches for it and
    for no other identifier, at least one, whatever follows them in that
    iteration, and last the pause of 1.2 seconds, which is the only wait of
    that length. *)
Definition paced_segment (app_id : string) (segment : list event) : Prop :=
  exists body,
    segment = body ++ [EvSleep 1200] /\
    app_calls body <> [] /\
    (forall i ok, (i, ok) ∈ app_calls body -> i = app_id) /\
    1200 ∉ sleeps body.

(** The waits of the retry loop are whole seconds. *)
Lemma scrape_attempts_backoffs app_id retries attempts :
  forall w, exists r w' evs,
    runs (scrape_attempts app_id retries attempts) w (Ok r) w' evs /\
    Forall (fun ms => ms mod 1000 = 0) (sleeps evs).
Proof.
  induction attempts as [|attempt rest IH]; intros w.
  - exists None, w, []. split; [apply runs_ret | constructor].
  - destruct (call_app_runs app_id w) as (w1 & R1).
    destruct (app upstream (ncalls w) app_id) as [d|e] eqn:E0.
    + exists (Some d), w1, [EvApp app_id true]. split; [|constructor].
      eapply runs_cast; [step R1; apply runs_ret | done].
    + simpl scrape_attempts. destruct (attempt =? retries - 1) eqn:Elast.
      * destruct (log_error_runs (failure_message app_id e) w1) as (w2 & R2).
        exists None, w2, [EvApp app_id false; EvLogError (failure_message app_id e)].
        split; [|constructor].
        eapply runs_cast; [step R1; step R2; apply runs_ret | done].
      * destruct (sleep_runs (1000 * 2 ^ attempt) w1) as (w2 & R2 & _).
        destruct (IH w2) as (r & w3 & evs & R3 & F3).
        exists r, w3, ([EvApp app_id false] ++ [EvSleep (1000 * 2 ^ attempt)] ++ evs).
        split; [step R1; step R2; exact R3|].
        simpl. constructor; [|done].
        rewrite Z.mul_comm. apply Z_mod_mult.
Qed.

Lemma fetch_segment app_id w r w1 fetch :
  runs (scrape_app_safely app_id 3) w (Ok r) w1 fetch ->
  app_calls fetch <> [] /\ 1200 ∉ sleeps fetch.
Proof.
  intros R. unfold scrape_app_safely in R. split.
  - destruct (scrape_attempts_total app_id 3 (seqZ 0 3) w)
      as (r' & w' & evs & R' & _ & _ & _ & S).
    destruct (runs_det _ _ _ _ _ _ _ _ R R') as (_ & _ & ->).
    change (seqZ 0 3) with [0; 1; 2]%Z in S. by destruct S as (rest & ->).
  - destruct (scrape_attempts_backoffs app_id 3 (seqZ 0 3) w)
      as (r' & w' & evs & R' & F).
    destruct (runs_det _ _ _ _ _ _ _ _ R R') as (_ & _ & ->).
    intros Hin. rewrite Forall_forall in F. by specialize (F _ Hin).
Qed.

Lemma sleeps_reviews_stage include_reviews app_id count o :
  sleeps (reviews_stage include_reviews app_id count o) = [].
Proof. by destruct include_reviews, o. Qed.

Lemma iteration_paced include_reviews reviews_per_app save_interval idx app_id
    st w st' w' evs :
  iteration include_reviews reviews_per_app save_interval idx app_id st w
            (Ok st') w' evs ->
  paced_segment app_id evs.
Proof.
  intros I.
  inversion I as [r w1 fetch w0 R F Hr C | e0 es0 w1 fetch w0 R F Hz C
                 | e0 es0 w1 fetch w0 R F Hsi Hnz C o
                 | e0 es0 w1 fetch w0 s R F Hsi Hz C1 C2 o data cp]; subst;
    destruct (fetch_segment _ _ _ _ _ R) as [Hcalls Hsleeps];
    pose proof (app_calls_fetch _ _ F) as Hids.
  - exists fetch. by repeat split.
  - exists (fetch ++ reviews_stage include_reviews app_id reviews_per_app o).
    rewrite <- app_assoc. split; [done|].
    rewrite app_calls_app, sleeps_app, app_calls_reviews_stage,
            sleeps_reviews_stage, !app_nil_r.
    by repeat split.
  - eexists (fetch ++ reviews_stage include_reviews app_id reviews_per_app o
             ++ [EvWriteJson _ _; EvSaveCheckpoint _]).
    split; [by rewrite <- !app_assoc|].
    rewrite !app_calls_app, !sleeps_app, app_calls_reviews_stage,
            sleeps_reviews_stage. simpl. rewrite !app_nil_r.
    by repeat split.
Qed.

Lemma looping_paced include_reviews reviews_per_app save_interval idx ids
    st w res w' evs :
  looping include_reviews reviews_per_app save_interval idx ids st w res w' evs ->
  forall st', res = Ok st' ->
  exists segments, evs = concat segments /\ Forall2 paced_segment ids segments.
Proof.
  induction 1 as [| idx app_id rest st w st1 w1 evs1 res w2 evs2 I L IH
                  | idx app_id rest st w e w1 evs1 I]; intros st' E.
  - exists []. split; [done | constructor].
  - destruct (IH st' E) as (segments & -> & F).
    exists (evs1 :: segments). split; [done|].
    constructor; [|done]. by apply (iteration_paced _ _ _ _ _ _ _ _ _ _ I).
  - done.
Qed.

(** X9: a run that returns has paused 1.2 seconds after every remaining
    identifier, whether its fetch succeeded or not.  Its events are, for
    each remaining identifier in turn, the detail fetches of that
    identifier (at least one) with what follows them, closed by the pause
    of 1.2 seconds, the only wait of that length; then come the last flush
    and checkpoint, without any wait.  Hence the run lasts at least 1.2
    seconds times the number of remaining identifiers. *)
Theorem run_is_paced app_ids (include_reviews : bool) reviews_per_app save_interval w :
  let run := batch_scrape_apps app_ids include_reviews reviews_per_app save_interval in
  let remaining_ids :=
    remaining app_ids (list_to_set (scraped_app_ids (loaded_checkpoint w))) in
  eval run w = Ok tt ->
  (exists segments tail,
     emitted run w = concat segments ++ tail /\
     Forall2 paced_segment remaining_ids segments /\
     sleeps tail = [] /\ app_calls tail = []) /\
  1200 * Z.of_nat (length remaining_ids) <= slept (emitted run w) /\
  clock w + 1200 * Z.of_nat (length remaining_ids) <= clock (exec run w).
Proof.
  intros run remaining_ids Hok.
  assert (H : (exists segments tail,
                 emitted run w = concat segments ++ tail /\
                 Forall2 paced_segment remaining_ids segments /\
                 sleeps tail = [] /\ app_calls tail = []) /\
              1200 * Z.of_nat (length remaining_ids) <= slept (emitted run w)).
  { destruct (decide (remaining app_ids (scraped_ids (initial_state w)) = []))
      as [Hrem | Hrem].
    { pose proof (batch_scrape_apps_noop app_ids include_reviews reviews_per_app
                                         save_interval w Hrem) as E.
      fold run in E. rewrite (emitted_noop _ _ _ E).
      unfold remaining_ids. simpl in Hrem. rewrite Hrem. split.
      - exists [], []. repeat split. constructor.
      - unfold slept. simpl. lia. }
    destruct (batch_scrape_apps_looping app_ids include_reviews reviews_per_app
                                        save_interval w Hrem)
      as (res & w1 & evs & L & R).
    destruct res as [st|e].
    2: { fold run in R. by rewrite (runs_eval _ _ _ _ _ R) in Hok. }
    destruct R as (w' & R). fold run in R.
    rewrite (runs_emitted _ _ _ _ _ R). split.
    - destruct (looping_paced _ _ _ _ _ _ _ _ _ _ L st eq_refl) as (segments & -> & F).
      exists segments, (final_flush (now w1) st ++
                        [EvSaveCheckpoint (final_checkpoint st)]).
      split; [done|]. split; [exact F|].
      unfold final_flush. by destruct (scraped_data st).
    - rewrite !slept_app.
      pose proof (looping_slept _ _ _ _ _ _ _ _ _ _ L st eq_refl) as B.
      simpl in B. fold remaining_ids in B.
      assert (slept (final_flush (now w1) st) = 0)
        by (unfold final_flush; by destruct (scraped_data st)).
      unfold slept at 3. simpl. lia. }
  destruct H as [Hseg H]. split; [done|]. split; [done|].
  destruct (batch_scrape_apps_runs app_ids include_reviews reviews_per_app
                                   save_interval w) as (res & w' & evs & R).
  fold run in R. rewrite (runs_emitted _ _ _ _ _ R) in H.
  rewrite (runs_exec _ _ _ _ _ R). pose proof (runs_clock _ _ _ _ _ R). lia.
Qed.

(** ** Statistics *)

(** X10: no run of [batch_scrape_apps] changes the [failed_app_ids] of the
    persisted checkpoint, whatever fails during the run, so the [failed]
    count of [get_statistics] is after a run what it was before it;
    [get_statistics] itself changes nothing. *)
Theorem failed_statistic_never_moves app_ids (include_reviews : bool) reviews_per_app
    save_interval w :
  let run := batch_scrape_apps app_ids include_reviews reviews_per_app save_interval in
  failed_app_ids (loaded_checkpoint (exec run w)) = failed_app_ids (loaded_checkpoint w) /\
  exec get_statistics w = w /\
  exists before after,
    eval get_statistics w = Ok before /\
    eval get_statistics (exec run w) = Ok after /\
    failed after = failed before /\
    total_scraped after = length (scraped_app_ids (loaded_checkpoint (exec run w))).
Proof.
  intros run.
  pose proof (failed_app_ids_never_written app_ids include_reviews reviews_per_app
                                           save_interval w) as F.
  fold run in F. split; [done|].
  assert (G : forall w0, get_statistics w0
                = (Ok (mkStats (length (scraped_app_ids (loaded_checkpoint w0)))
                               (length (failed_app_ids (loaded_checkpoint w0)))), w0)).
  { intros w0. unfold get_statistics, bind, loaded_checkpoint.
    by rewrite (proj1 (load_checkpoint_runs w0)). }
  split; [unfold exec; by rewrite G|].
  eexists _, _. unfold eval. rewrite !G. simpl. repeat split. by rewrite F.
Qed.

(** ** Merging again *)

(** The batch artifacts of the directory: name and document. *)
Lemma filter_Permutation {A} (f : A -> bool) (l l' : list A) :
  l ≡ₚ l' -> List.filter f l ≡ₚ List.filter f l'.
Proof.
  induction 1 as [|x l l' _ IH|x y l|l l' l'' _ IH1 _ IH2]; simpl.
  - done.
  - destruct (f x); [by constructor | done].
  - destruct (f x), (f y); try done. apply perm_swap.
  - by etrans.
Qed.

Lemma concat_Permutation {A} (ls ls' : list (list A)) :
  ls ≡ₚ ls' -> concat ls ≡ₚ concat ls'.
Proof.
  induction 1 as [|x l l' _ IH|x y l|l l' l'' _ IH1 _ IH2]; simpl.
  - done.
  - by apply Permutation_app_head.
  - rewrite !app_assoc. apply Permutation_app_tail, Permutation_app_comm.
  - by etrans.
Qed.

Lemma records_for_Permutation x d d' : d ≡ₚ d' -> records_for x d = records_for x d'.
Proof.
  intros P. unfold records_for. apply Permutation_length. by apply filter_Permutation.
Qed.





(** Writing a new file under a batch name adds it to them. *)
Lemma batch_of_insert_new m f c :
  is_batch_file f = true -> m !! f = None ->
  batch_of (<[f := c]> m) ≡ₚ (f, c) :: batch_of m.
Proof.
  intros Hf Hnew. unfold batch_of.
  rewrite (filter_Permutation _ _ _ (map_to_list_insert _ _ _ Hnew)).
  simpl. by rewrite Hf.
Qed.

Lemma elem_of_batch_of m f c :
  (f, c) ∈ batch_of m <-> is_batch_file f = true /\ m !! f = Some c.
Proof.
  clear upstream elapsed strftime isoformat to_csv. unfold batch_of.
  rewrite list_elem_of_In, List.filter_In, <- list_elem_of_In, elem_of_map_to_list.
  simpl. tauto.
Qed.




(** X12: when the output name itself starts with [apps_batch_] and is not
    yet a file of the directory, whose batch files are JSON documents, the
    merge returns and what it wrote is taken for batch files from then on.
    When the CSV projection succeeds, it sits under a batch name too and
    the next merge raises on it, before writing anything.  When the CSV
    projection fails, the next merge collects every record of the
    artifacts once more, next to its copy in the first merged document. *)
Theorem merge_output_named_as_batch_is_merged_again output_filename w :
  is_batch_file output_filename = true ->
  output_dir w !! output_filename = None ->
  batch_entries w <> [] ->
  Forall (fun fc => is_json fc.2 = true) (batch_entries w) ->
  let merge := merge_batches output_filename in
  let w1 := exec merge w in
  eval merge w = Ok tt /\
  (forall text, to_csv (merged_data w) = Returns text ->
     is_batch_file (csv_path output_filename) = true /\
     output_dir w1 !! csv_path output_filename = Some (CsvFile text) /\
     merge w1 = (Raise JSONDecodeError, w1)) /\
  (forall e, to_csv (merged_data w) = Throws e ->
     batch_entries w1
     ≡ₚ (output_filename, JsonFile (map _make_serializable (merged_data w)))
        :: batch_entries w /\
     eval merge w1 = Ok tt /\
     merged_data w1 ≡ₚ map _make_serializable (merged_data w) ++ merged_data w /\
     length (merged_data w1) = (2 * length (merged_data w))%nat).
Proof.
  intros Hout Hnew Hsome J merge w1.
  destruct (merge_batches_cases output_filename w)
    as [[Hnil _] | [[Hx _] | (_ & _ & w' & R)]]; [done | |].
  { exfalso. apply Exists_exists in Hx as (fc & Hin & Hc).
    rewrite Forall_forall in J. rewrite (J fc Hin) in Hc. done. }
  unfold w1, merge. rewrite (runs_exec _ _ _ _ _ R), (runs_eval _ _ _ _ _ R).
  destruct (merge_events_world _ _ _ (proj2 R)) as (D & _ & _).
  unfold merged_dir in D. split; [done|]. split.
  - intros text Hcsv. rewrite Hcsv in D. cbv zeta in D.
    assert (Hb : is_batch_file (csv_path output_filename) = true)
      by (by rewrite is_batch_file_csv_path).
    assert (Hf : output_dir w' !! csv_path output_filename = Some (CsvFile text))
      by (by rewrite D, lookup_insert_eq).
    split; [done|]. split; [done|].
    assert (Hin : (csv_path output_filename, CsvFile text) ∈ batch_entries w')
      by (by apply elem_of_batch_of).
    destruct (merge_batches_cases output_filename w')
      as [[Hnil _] | [[_ E] | (_ & J' & _)]]; [| done |].
    + rewrite Hnil in Hin. by apply elem_of_nil in Hin.
    + rewrite Forall_forall in J'. by specialize (J' _ Hin).
  - intros e Hcsv. rewrite Hcsv in D. cbv zeta in D.
    assert (P : batch_entries w'
                ≡ₚ (output_filename, JsonFile (map _make_serializable (merged_data w)))
                   :: batch_entries w).
    { unfold batch_entries. rewrite D. by apply batch_of_insert_new. }
    assert (Q : merged_data w'
                ≡ₚ map _make_serializable (merged_data w) ++ merged_data w).
    { rewrite (merged_data_entries w').
      rewrite (concat_Permutation _ _
                 (fmap_Permutation doc_of _ _ (fmap_Permutation snd _ _ P))).
      simpl. by rewrite <- merged_data_entries. }
    split; [done|]. split; [|split; [done|]].
    + destruct (merge_batches_cases output_filename w')
        as [[Hnil _] | [[Hx _] | (_ & _ & w2 & R2)]].
      * rewrite Hnil in P. by apply Permutation_nil_l in P.
      * exfalso. rewrite P in Hx. apply Exists_cons in Hx as [Hx | Hx]; [done|].
        apply Exists_exists in Hx as (fc & Hin & Hc).
        rewrite Forall_forall in J. rewrite (J fc Hin) in Hc. done.
      * by rewrite (runs_eval _ _ _ _ _ R2).
    + rewrite (Permutation_length Q), length_app, length_map. lia.
Qed.

(** ** The whole pipeline *)

Lemma prefix_empty s : String.prefix "" s = true.
Proof. by destruct s. Qed.

Lemma is_batch_file_batch_filename t : is_batch_file (batch_filename t) = true.
Proof. unfold is_batch_file, batch_filename. cbn. apply prefix_empty. Qed.

Lemma sublist_all_NoDup {A} (l1 l2 : list A) :
  sublist l1 l2 -> NoDup l2 -> (forall x, x ∈ l2 -> x ∈ l1) -> l1 = l2.
Proof.
  induction 1 as [|x l1 l2 S IH|x l1 l2 S IH]; intros N Hall.
  - done.
  - apply NoDup_cons in N as [Hx N]. f_equal. apply IH; [done|].
    intros y Hy. assert (Hy' : y ∈ x :: l1) by (apply Hall; by right).
    apply elem_of_cons in Hy' as [-> | Hy']; done.
  - apply NoDup_cons in N as [Hx N]. exfalso. apply Hx.
    apply (sublist_subseteq _ _ S). apply Hall. by left.
Qed.

Lemma dict_get_set_ne key key' v d :
  key <> key' -> dict_get key (dict_set key' v d) = dict_get key d.
Proof.
  intros Hne. induction d as [|[k x] d IH]; simpl.
  - destruct (String.eqb key' key) eqn:E; [|done].
    apply String.eqb_eq in E. congruence.
  - destruct (String.eqb k key') eqn:E; simpl.
    + apply String.eqb_eq in E as ->.
      by replace (String.eqb key' key) with false
        by (symmetry; apply String.eqb_neq; congruence).
    + by rewrite IH.
Qed.

Lemma dict_get_serialized key d :
  dict_get key (map (fun kv : string * pyval =>
                       let '(k, value) := kv in (k, _make_serializable value)) d)
  = _make_serializable <$> dict_get key d.
Proof.
  induction d as [|[k x] d IH]; simpl; [done|].
  by destruct (String.eqb k key).
Qed.

Lemma record_id_fetched include_reviews reviews_per_app app_id record :
  answers_with_identifier upstream ->
  fetched_record include_reviews reviews_per_app app_id record ->
  record_id (_make_serializable record) = Some app_id.
Proof.
  intros Hans (n & m & entry & entries & Hd & ->).
  destruct (Hans n app_id) as (payload & Hp & Hid).
  rewrite Hd in Hp. inversion Hp; subst payload.
  simpl. rewrite dict_get_serialized.
  unfold with_reviews. destruct include_reviews.
  - rewrite dict_get_set_ne by done. by rewrite Hid.
  - by rewrite Hid.
Qed.

Lemma records_for_identified x ids (records : list pyval) :
  Forall2 (fun i r => record_id r = Some i) ids records ->
  records_for x records = count_occ String.string_dec ids x.
Proof.
  unfold records_for.
  induction 1 as [|i r ids records Hr _ IH]; simpl; [done|].
  unfold is_record_for at 1. rewrite Hr.
  destruct (String.string_dec i x) as [-> | Hne].
  - rewrite String.eqb_refl. simpl. by rewrite IH.
  - apply String.eqb_neq in Hne. by rewrite Hne.
Qed.

Lemma count_occ_NoDup (ids : list string) x :
  NoDup ids ->
  count_occ String.string_dec ids x = if decide (x ∈ ids) then 1%nat else 0%nat.
Proof.
  intros N. apply NoDup_ListNoDup in N.
  rewrite (List.NoDup_count_occ String.string_dec) in N. specialize (N x).
  destruct (decide (x ∈ ids)) as [Hin | Hout].
  - apply list_elem_of_In in Hin.
    apply (count_occ_In String.string_dec) in Hin. lia.
  - apply (count_occ_not_In String.string_dec). by rewrite <- list_elem_of_In.
Qed.

Lemma map_to_list_foldl_insert {V} (l : list (string * V)) :
  forall m : gmap string V,
    NoDup l.*1 -> (forall f, f ∈ l.*1 -> m !! f = None) ->
    map_to_list (foldl (fun d fd => <[fd.1 := fd.2]> d) m l) ≡ₚ map_to_list m ++ l.
Proof.
  induction l as [|[f d] l IH]; intros m N Hfresh; simpl.
  - by rewrite app_nil_r.
  - apply NoDup_cons in N as [Hnotin N].
    rewrite IH; [| done |].
    + rewrite map_to_list_insert by (apply Hfresh; by left).
      simpl. by rewrite Permutation_middle.
    + intros g Hg. rewrite lookup_insert_ne.
      * apply Hfresh. by right.
      * simpl. by intros ->.
Qed.

Lemma discover_runs categories apps_per_category w :
  exists w' evs,
    runs (discover_apps_by_categories categories apps_per_category) w
         (Ok (elements (discovered (ncalls w) categories apps_per_category))) w' evs /\
    Forall quiet_search evs.
Proof.
  destruct (discover_categories_effects categories apps_per_category ∅ w)
    as (r & w' & evs' & R & _ & _ & _ & Q).
  destruct (discover_categories_runs categories apps_per_category ∅ w)
    as (w0 & evs0 & R0).
  destruct (runs_det _ _ _ _ _ _ _ _ R R0) as (Er & _ & _).
  inversion Er; subst r; clear Er R0.
  rewrite (left_id_L ∅ (∪)) in R.
  exists w', evs'. split; [|done].
  eapply runs_cast;
    [unfold discover_apps_by_categories; step R; apply runs_ret | by rewrite app_nil_r].
Qed.

Lemma get_statistics_runs w :
  runs get_statistics w
       (Ok (mkStats (length (scraped_app_ids (loaded_checkpoint w)))
                    (length (failed_app_ids (loaded_checkpoint w))))) w [].
Proof.
  split; [|apply evolves_refl].
  unfold get_statistics, bind, loaded_checkpoint.
  by rewrite (proj1 (load_checkpoint_runs w)).
Qed.

Lemma remaining_empty ids : remaining ids ∅ = ids.
Proof.
  unfold remaining. induction ids as [|i ids IH]; [done|].
  rewrite filter_cons_True by apply not_elem_of_empty. by rewrite IH.
Qed.

Lemma answers_populated ids :
  answers_with_identifier upstream -> always_populated upstream ids.
Proof.
  intros Hans n i _. destruct (Hans n i) as (payload & Hp & Hid).
  destruct payload as [|entry entries]; [done|]. eauto.
Qed.

Lemma filter_all {A} (f : A -> bool) l :
  Forall (fun x => f x = true) l -> List.filter f l = l.
Proof. induction 1 as [|x l Hx _ IH]; simpl; [done|]. by rewrite Hx, IH. Qed.

(** A run over distinct identifiers in a fresh directory, every detail
    fetch being answered: one record per identifier, in batch artifacts
    that make up the whole directory. *)
Lemma fresh_run ids (include_reviews : bool) reviews_per_app save_interval w :
  (forall s1 s2, strftime "%Y%m%d_%H%M%S" s1 = strftime "%Y%m%d_%H%M%S" s2 -> s1 = s2) ->
  save_interval <> 0 ->
  output_dir w = ∅ -> checkpoint_file w = None ->
  answers_with_identifier upstream -> NoDup ids ->
  exists w' evs records,
    runs (batch_scrape_apps ids include_reviews reviews_per_app save_interval)
         w (Ok tt) w' evs /\
    Forall2 (fetched_record include_reviews reviews_per_app) ids records /\
    map_to_list (output_dir w') ≡ₚ as_json <$> json_writes evs /\
    Forall (fun fd => is_batch_file fd.1 = true) (json_writes evs) /\
    concat (json_writes evs).*2 = map _make_serializable records /\
    scraped_app_ids (loaded_checkpoint w') ≡ₚ ids /\
    failed_app_ids (loaded_checkpoint w') = [].
Proof.
  intros Hinj Hsi Hdir Hcp Hans N.
  assert (Hinit : initial_state w = mkRun [] ∅ (mkCheckpoint [] [])).
  { unfold initial_state, loaded_checkpoint. by rewrite Hcp. }
  assert (Hrem : remaining ids (scraped_ids (initial_state w)) = ids).
  { rewrite Hinit. apply remaining_empty. }
  destruct (decide (ids = [])) as [-> | Hne].
  { exists w, [], []. split.
    - split; [by apply batch_scrape_apps_noop | apply evolves_refl].
    - unfold loaded_checkpoint. rewrite Hdir, Hcp, map_to_list_empty.
      repeat split; constructor. }
  destruct (batch_scrape_apps_looping ids include_reviews reviews_per_app
                                      save_interval w)
    as (res & w1 & evs & L & R); [by rewrite Hrem|].
  rewrite Hrem in L.
  destruct (looping_succeeds _ _ _ _ _ _ _ _ _ _ L Hsi (answers_populated ids Hans))
    as (st & -> & Hids & Hfailed).
  destruct R as (w' & R).
  destruct (looping_records _ _ _ _ _ _ _ _ _ _ L st eq_refl)
    as (completed & records & S & F & W & I & _).
  assert (completed = ids) as ->.
  { apply sublist_all_NoDup; [done | done |]. intros x Hx.
    assert (Hin : x ∈ scraped_ids st).
    { rewrite Hids. apply elem_of_union. right. by apply elem_of_list_to_set. }
    rewrite I, Hinit in Hin. apply elem_of_union in Hin as [Hin | Hin].
    - by apply elem_of_empty in Hin.
    - by apply elem_of_list_to_set in Hin. }
  destruct (batch_scrape_apps_stamps ids include_reviews reviews_per_app
                                     save_interval w) as (stamps & En & Ns).
  rewrite (runs_emitted _ _ _ _ _ R) in En.
  eexists w', _, records. split; [exact R|].
  split; [exact F|]. split; [|split; [|split; [|split]]].
  - pose proof (proj2 (batch_scrape_apps_dir ids include_reviews reviews_per_app
                                             save_interval w)) as D.
    cbv zeta in D. rewrite (runs_emitted _ _ _ _ _ R), (runs_exec _ _ _ _ _ R) in D.
    rewrite D, Hdir, map_to_list_foldl_insert.
    + by rewrite map_to_list_empty.
    + rewrite fst_as_json, En. apply NoDup_fmap_2_strong; [|done].
      intros s1 s2 _ _ E. apply Hinj. by apply batch_filename_inj.
    + intros f _. apply lookup_empty.
  - apply Forall_forall. intros fd Hfd.
    assert (Hname : fd.1 ∈ (json_writes (evs ++ final_flush (now w1) st ++
                              [EvSaveCheckpoint (final_checkpoint st)])).*1).
    { apply list_elem_of_fmap. eauto. }
    rewrite En in Hname. apply list_elem_of_fmap in Hname as (s & -> & _).
    apply is_batch_file_batch_filename.
  - rewrite !json_writes_app, !fmap_app, !concat_app.
    rewrite Hinit in W. simpl in W. rewrite <- W. f_equal. unfold final_flush.
    destruct (scraped_data st); simpl; by rewrite ?app_nil_r.
  - rewrite app_assoc in R. unfold loaded_checkpoint.
    rewrite (runs_checkpoint_saved _ _ _ _ _ _ R). simpl.
    rewrite Hids, Hinit. simpl. rewrite (left_id_L ∅ (∪)).
    by apply elements_list_to_set.
  - rewrite app_assoc in R. unfold loaded_checkpoint.
    rewrite (runs_checkpoint_saved _ _ _ _ _ _ R). simpl.
    by rewrite Hfailed, Hinit.
Qed.

(** A merge over a directory that holds batch artifacts only, all of them
    JSON documents. *)
Lemma merge_of_batches_only output_filename w (l : list (string * list pyval)) :
  csv_path output_filename <> output_filename ->
  map_to_list (output_dir w) ≡ₚ as_json <$> l ->
  Forall (fun fd => is_batch_file fd.1 = true) l ->
  exists w2 evs2,
    runs (merge_batches output_filename) w (Ok tt) w2 evs2 /\
    checkpoint_file w2 = checkpoint_file w /\
    document w2 output_filename ≡ₚ map _make_serializable (concat l.*2).
Proof.
  intros Hcsv Hl Hb.
  assert (Hdocs : batch_entries w ≡ₚ as_json <$> l).
  { unfold batch_entries, batch_of. rewrite (filter_Permutation _ _ _ Hl).
    rewrite (filter_all (fun fc : string * file => is_batch_file fc.1)); [done|].
    apply Forall_fmap. eapply Forall_impl; [exact Hb|]. by intros [f d]. }
  assert (Hsnd : doc_of <$> (as_json <$> l).*2 = l.*2).
  { by rewrite <- !list_fmap_compose. }
  destruct (merge_batches_cases output_filename w)
    as [[Hnil E] | [[Hx _] | (_ & _ & w2 & R)]].
  - exists w, []. split; [split; [done | apply evolves_refl]|]. split; [done|].
    rewrite Hnil in Hdocs. apply Permutation_nil_l in Hdocs.
    symmetry in Hdocs. apply fmap_nil_inv in Hdocs. subst l.
    apply Permutation_nil_r, map_to_list_empty_iff in Hl.
    unfold document. by rewrite Hl, lookup_empty.
  - exfalso. rewrite Hdocs in Hx. apply Exists_exists in Hx as (fc & Hin & Hc).
    apply list_elem_of_fmap in Hin as (fd & -> & _). done.
  - eexists w2, _. split; [exact R|].
    destruct (merge_events_world _ _ _ (proj2 R)) as (D & K & _).
    split; [done|]. unfold document. rewrite D. unfold merged_dir.
    assert (P : merged_data w ≡ₚ concat l.*2).
    { rewrite merged_data_entries, <- Hsnd.
      by apply concat_Permutation, fmap_Permutation, fmap_Permutation. }
    destruct (to_csv (merged_data w)); cbv zeta;
      rewrite ?lookup_insert_ne by done; rewrite lookup_insert_eq;
      by apply Permutation_map.
Qed.

(** X13: the [__main__] pipeline, started in a fresh output directory
    against a source that answers every detail fetch with a payload
    carrying the identifier asked for (batch names being distinct for
    distinct seconds): it ends without an exception, the statistics count
    every discovered identifier as scraped and none as failed, and the
    merged document ['play_store_apps_complete.json'] holds exactly one
    record for each discovered identifier and none for any other. *)
Theorem pipeline_collects_each_discovered_app_once w :
  (forall s1 s2, strftime "%Y%m%d_%H%M%S" s1 = strftime "%Y%m%d_%H%M%S" s2 -> s1 = s2) ->
  output_dir w = ∅ -> checkpoint_file w = None ->
  answers_with_identifier upstream ->
  let found := discovered (ncalls w) categories 30 in
  let corpus := document (exec main w) "play_store_apps_complete.json" in
  eval main w = Ok (mkStats (size found) 0) /\
  forall x, records_for x corpus = if decide (x ∈ found) then 1%nat else 0%nat.
Proof.
  intros Hinj Hdir Hcp Hans found corpus.
  destruct (discover_runs categories 30 w) as (w0 & evs0 & R0 & Q).
  fold found in R0.
  destruct (quiet_search_readings _ Q) as (_ & _ & Hw0 & Hs0).
  assert (Hdir0 : output_dir w0 = ∅).
  { by rewrite (ev_dir _ _ _ (proj2 R0)), (quiet_search_files _ Q). }
  assert (Hcp0 : checkpoint_file w0 = None).
  { by rewrite (ev_checkpoint _ _ _ (proj2 R0)), Hs0. }
  destruct (fresh_run (elements found) true 50 20 w0 Hinj ltac:(done) Hdir0 Hcp0 Hans
                      (NoDup_elements found))
    as (w1 & evs1 & records & R1 & F & Hfiles & Hbatch & Hdocs & Hdone & Hfailed).
  destruct (merge_of_batches_only "play_store_apps_complete.json" w1 _
                                  ltac:(by vm_compute) Hfiles Hbatch)
    as (w2 & evs2 & R2 & Hcp2 & Hcorpus).
  pose proof (get_statistics_runs w2) as R3.
  assert (R : runs main w
                (Ok (mkStats (length (scraped_app_ids (loaded_checkpoint w2)))
                             (length (failed_app_ids (loaded_checkpoint w2)))))
                w2 (evs0 ++ evs1 ++ evs2 ++ [])).
  { unfold main. step R0. step R1. step R2. exact R3. }
  assert (Hload : loaded_checkpoint w2 = loaded_checkpoint w1).
  { unfold loaded_checkpoint. by rewrite Hcp2. }
  split.
  - rewrite (runs_eval _ _ _ _ _ R), Hload, Hfailed.
    by rewrite (Permutation_length Hdone).
  - intros x. unfold corpus. rewrite (runs_exec _ _ _ _ _ R).
    rewrite (records_for_Permutation _ _ _ Hcorpus), Hdocs.
    rewrite (map_make_serializable_id _ (json_native_map_make_serializable records)).
    rewrite (records_for_identified x (elements found)).
    + rewrite count_occ_NoDup by apply NoDup_elements.
      destruct (decide (x ∈ elements found)) as [Hx | Hx],
               (decide (x ∈ found)) as [Hy | Hy]; try done;
        by apply elem_of_elements in Hx || (exfalso; apply Hx, elem_of_elements, Hy).
    + apply Forall2_fmap_r. eapply Forall2_impl; [exact F|].
      intros i r Hr. by eapply record_id_fetched.
Qed.

End Properties.

(** * Concrete runs *)

Lemma decimal_time_inj s1 s2 :
  decimal_time "%Y%m%d_%H%M%S" s1 = decimal_time "%Y%m%d_%H%M%S" s2 -> s1 = s2.
Proof. unfold decimal_time. apply (inj pretty). Qed.

Lemma always_answering_populated ids : always_populated always_answering ids.
Proof. intros n app_id _. by eexists _, _. Qed.

(** ** C1 *)

(** C1, as stated, fails: two batch artifacts hold a record for the same
    identifier, and the merged output holds both records, not one. *)
Lemma merge_keeps_duplicates :
  let w' := exec (merge_batches no_delay decimal_iso csv_of_length "apps_merged.json")
                 two_batches in
  output_dir w' !! "apps_merged.json"
  = Some (JsonFile [PDict (sample_payload "com.example.app");
                    PDict [("appId", PStr "com.example.app");
                           ("title", PStr "Refetched")];
                    PDict (sample_payload "com.other")]) /\
  records_for "com.example.app" (document w' "apps_merged.json") = 2%nat /\
  ~ (records_for "com.example.app" (document w' "apps_merged.json") <= 1)%nat.
Proof. vm_compute. repeat split. lia. Qed.

(** C1 (amended) on the directory [two_batches]. *)
Lemma merge_concatenates_witness :
  let merge := merge_batches no_delay decimal_iso csv_of_length "apps_merged.json" in
  let batch_files := List.filter is_batch_file (os_listdir two_batches) in
  let merged := concat (document two_batches <$> batch_files) in
  batch_files <> [] /\
  is_reserved "apps_merged.json" = false /\
  (forall f, f ∈ batch_files ->
             exists data, output_dir two_batches !! f = Some (JsonFile data) /\
                          forallb json_native data = true) /\
  csv_path "apps_merged.json" <> "apps_merged.json" /\
  eval merge two_batches = Ok tt /\
  output_dir (exec merge two_batches) !! "apps_merged.json" = Some (JsonFile merged) /\
  forall x, records_for x merged
            = sum_list ((fun f => records_for x (document two_batches f))
                          <$> batch_files).
Proof.
  assert (Hne : List.filter is_batch_file (os_listdir two_batches) <> [])
    by (vm_compute; discriminate).
  assert (Hres : is_reserved "apps_merged.json" = false) by reflexivity.
  assert (Hjson : forall f, f ∈ List.filter is_batch_file (os_listdir two_batches) ->
                    exists data, output_dir two_batches !! f = Some (JsonFile data) /\
                                 forallb json_native data = true).
  { apply Forall_forall. vm_compute. repeat constructor; by eexists. }
  assert (Hcsv : csv_path "apps_merged.json" <> "apps_merged.json")
    by (vm_compute; discriminate).
  split; [exact Hne | split; [exact Hres | split; [exact Hjson | split;
    [exact Hcsv|]]]].
  destruct (proj1 (proj2 (merge_concatenates no_delay decimal_iso csv_of_length
                                              "apps_merged.json" two_batches))
                  Hne Hres Hjson) as (E & _ & D & _ & _ & _ & C).
  exact (conj E (conj (D Hcsv) C)).
Defined.

(** C1 (amended), on an output name without ['.json']: the CSV projection
    is written to the same path and replaces the merged document. *)
Example csv_replaces_output_without_json_suffix :
  let w' := exec (merge_batches no_delay decimal_iso csv_of_length "apps_merged")
                 two_batches in
  csv_path "apps_merged" = "apps_merged" /\
  output_dir w' !! "apps_merged" = Some (CsvFile "rows: 3") /\
  document w' "apps_merged" = [].
Proof. by vm_compute. Qed.

(** ** C2 *)

(** C2, on a failing input: the detail fetch of ["com.broken"] fails at
    each of the three attempts; the run goes on and completes the next
    identifier, ["com.broken"] is not added to the completed identifiers,
    but the checkpoint the run leaves has an empty [failed_app_ids] and the
    statistics report no failure, where the claim has the identifier
    recorded as failed. *)
Theorem failed_identifier_not_recorded :
  let run := batch_scrape_apps one_broken no_delay decimal_time decimal_iso
                               ["com.broken"; "com.example.app"] false 50 10 in
  eval run empty_world = Ok tt /\
  app_calls (emitted run empty_world)
  = [("com.broken", false); ("com.broken", false); ("com.broken", false);
     ("com.example.app", true)] /\
  checkpoint_file (exec run empty_world)
  = Some (mkCheckpoint ["com.example.app"] []) /\
  eval get_statistics (exec run empty_world) = Ok (mkStats 1 0).
Proof. vm_compute. by repeat split. Qed.

(** ** C3 *)

(** C3 on three identifiers that are all answered. *)
Lemma batch_runner_resumable_idempotent_witness :
  let run := batch_scrape_apps always_answering no_delay decimal_time decimal_iso
                               (sample_ids 3) true 50 2 in
  2 <> 0 /\ always_populated always_answering (sample_ids 3) /\
  eval run empty_world = Ok tt /\
  run (exec run empty_world) = (Ok tt, exec run empty_world) /\
  emitted run (exec run empty_world) = [].
Proof.
  assert (H2 : 2 <> 0) by lia.
  split; [exact H2 | split; [apply always_answering_populated|]].
  destruct (proj2 (proj2 (batch_runner_resumable_idempotent
                            always_answering no_delay decimal_time decimal_iso
                            (sample_ids 3) true 50 2 empty_world))
                  H2 (always_answering_populated _)) as (E & _ & N & T).
  exact (conj E (conj N T)).
Defined.

(** ** C4 *)

(** C4, as stated, fails: one identifier out of four fails, the interval
    is 2; three identifiers are fetched successfully, and the batches
    written have sizes 1 and 2, not 2 and 1. *)
Lemma flush_not_after_every_interval_successes :
  let evs := emitted (batch_scrape_apps one_broken no_delay decimal_time decimal_iso
                                        ["com.broken"; "com.a"; "com.b"; "com.c"]
                                        false 50 2) empty_world in
  successes evs = 3%nat /\
  batch_sizes evs = [1; 2]%nat /\
  cadence 2 (Z.of_nat (successes evs)) = [2; 1]%nat /\
  batch_sizes evs <> cadence 2 (Z.of_nat (successes evs)).
Proof. vm_compute. by repeat split. Qed.

(** C4 (amended) on 25 identifiers that are all answered, interval 10. *)
Lemma flush_cadence_witness :
  let run := batch_scrape_apps always_answering no_delay decimal_time decimal_iso
                               (sample_ids 25) false 50 10 in
  let remaining_ids :=
    remaining (sample_ids 25)
              (list_to_set (scraped_app_ids (loaded_checkpoint empty_world))) in
  10 = 10 /\ length remaining_ids = 25%nat /\
  always_populated always_answering (sample_ids 25) /\
  (forall s1 s2, decimal_time "%Y%m%d_%H%M%S" s1 = decimal_time "%Y%m%d_%H%M%S" s2 ->
                 s1 = s2) /\
  batch_sizes (emitted run empty_world) = [10; 10; 5]%nat /\
  NoDup (json_writes (emitted run empty_world)).*1.
Proof.
  assert (Hlen : length (remaining (sample_ids 25)
                   (list_to_set (scraped_app_ids (loaded_checkpoint empty_world))))
                 = 25%nat) by (vm_compute; reflexivity).
  split; [reflexivity | split; [exact Hlen | split;
    [apply always_answering_populated | split; [exact decimal_time_inj|]]]].
  destruct (flush_cadence always_answering no_delay decimal_time decimal_iso
                          (sample_ids 25) false 50 10 empty_world)
    as (_ & _ & Hnames & Hinst).
  split.
  - exact (Hinst eq_refl Hlen (always_answering_populated _)).
  - exact (proj1 (Hnames decimal_time_inj)).
Defined.

(** ** C5 *)

(** C5, as stated, fails: three attempts that all fail are separated by
    waits of 1 and 2 seconds, so the wait after attempt [k] is not [2^k]
    seconds. *)
Lemma backoff_not_two_to_the_k :
  sleeps (emitted (scrape_app_safely always_failing no_delay decimal_time
                                     "com.example.app" 3) empty_world)
  = [1000; 2000] /\
  ~ (forall k : nat, (1 <= k)%nat -> Z.of_nat k < 3 ->
       sleeps (emitted (scrape_app_safely always_failing no_delay decimal_time
                                          "com.example.app" 3) empty_world)
         !! (k - 1)%nat
       = Some (1000 * 2 ^ Z.of_nat k)).
Proof.
  split; [by vm_compute|].
  intros H. specialize (H 1%nat ltac:(lia) ltac:(lia)). vm_compute in H. discriminate.
Qed.

(** C5 (amended) on a source that always fails, at [k = 2]. *)
Lemma backoff_between_attempts_witness :
  let evs := emitted (scrape_app_safely always_failing no_delay decimal_time
                                        "com.example.app" 3) empty_world in
  (1 <= 2)%nat /\ Z.of_nat 2 < 3 /\
  (forall j, (j < 2)%nat ->
     is_ok (app always_failing (ncalls empty_world + j) "com.example.app") = false) /\
  evs !! (2 * 2 - 1)%nat = Some (EvSleep (1000 * 2 ^ (Z.of_nat 2 - 1))) /\
  sleeps evs !! (2 - 1)%nat = Some (1000 * 2 ^ (Z.of_nat 2 - 1)).
Proof.
  assert (H1 : (1 <= 2)%nat) by lia.
  assert (H2 : Z.of_nat 2 < 3) by lia.
  assert (H3 : forall j, (j < 2)%nat ->
     is_ok (app always_failing (ncalls empty_world + j) "com.example.app") = false)
    by (intros; reflexivity).
  split; [exact H1 | split; [exact H2 | split; [exact H3|]]].
  destruct (backoff_between_attempts always_failing no_delay decimal_time
                                     "com.example.app" 3 2 empty_world H1 H2 H3)
    as (_ & Hsleep & _ & Hnth).
  exact (conj Hsleep Hnth).
Defined.

(** ** C6 *)

(** C6, as stated, fails: the first attempt fails and the second returns;
    a failure occurred, and nothing reached the error log. *)
Lemma intermediate_failure_not_logged :
  let m := scrape_app_safely failing_once no_delay decimal_time "com.example.app" 3 in
  app_calls (emitted m empty_world)
  = [("com.example.app", false); ("com.example.app", true)] /\
  logged (emitted m empty_world) = [] /\
  error_log_file (exec m empty_world) = error_log_file empty_world.
Proof. vm_compute. by repeat split. Qed.

(** C6 (amended) on a source that fails once. *)
Lemma error_log_on_final_failure_only_witness :
  let m := scrape_app_safely failing_once no_delay decimal_time "com.example.app" 3 in
  Z.of_nat 1 < 3 /\
  (forall j, (j < 1)%nat ->
     is_ok (app failing_once (ncalls empty_world + j) "com.example.app") = false) /\
  app failing_once (ncalls empty_world + 1) "com.example.app"
  = Returns (sample_payload "com.example.app") /\
  eval m empty_world = Ok (Some (sample_payload "com.example.app")) /\
  error_log_file (exec m empty_world) = error_log_file empty_world.
Proof.
  assert (H1 : Z.of_nat 1 < 3) by lia.
  assert (H2 : forall j, (j < 1)%nat ->
     is_ok (app failing_once (ncalls empty_world + j) "com.example.app") = false).
  { intros j Hj. destruct j; [reflexivity | lia]. }
  assert (H3 : app failing_once (ncalls empty_world + 1) "com.example.app"
               = Returns (sample_payload "com.example.app")) by reflexivity.
  split; [exact H1 | split; [exact H2 | split; [exact H3|]]].
  destruct (proj1 (proj2 (error_log_on_final_failure_only
                            failing_once no_delay decimal_time "com.example.app" 3
                            empty_world)) 1%nat _ H1 H2 H3)
    as (E & _ & _ & L).
  exact (conj E L).
Defined.

(** ** C7 *)

(** C7, as stated, fails: the reviews fetch fails once and would return at
    the next call; the code issues one call and hands back the empty list,
    where the Retry Policy of the specification, with three attempts, tries
    again and returns the reviews. *)
Lemma reviews_fetch_not_retried :
  let code := scrape_reviews_safely failing_once no_delay decimal_time
                                    "com.example.app" 50 in
  let spec := spec_reviews_under_retry_policy failing_once no_delay decimal_time 3
                                              "com.example.app" 50 in
  eval code empty_world = Ok [] /\
  reviews_calls (emitted code empty_world) = [("com.example.app", 50, false)] /\
  eval spec empty_world = Ok [sample_review "com.example.app"] /\
  reviews_calls (emitted spec empty_world)
  = [("com.example.app", 50, false); ("com.example.app", 50, true)] /\
  eval code empty_world <> eval spec empty_world.
Proof. vm_compute. by repeat split. Qed.

(** C7 (amended) on a source whose reviews calls always fail. *)
Lemma reviews_fetched_once_witness :
  let st := mkRun [] ∅ (mkCheckpoint [] []) in
  let it := scrape_one reviews_failing no_delay decimal_time decimal_iso
                       true 50 10 0 "com.example.app" st in
  10 <> 0 /\
  eval (scrape_app_safely reviews_failing no_delay decimal_time "com.example.app" 3)
       empty_world
  = Ok (Some (sample_payload "com.example.app")) /\
  reviews_calls (emitted it empty_world) = [("com.example.app", 50, false)] /\
  (exists st', eval it empty_world = Ok st' /\ "com.example.app" ∈ scraped_ids st') /\
  sleeps (emitted it empty_world) = [1200] /\
  logged (emitted it empty_world)
  = [reviews_failure_message "com.example.app" "HTTP 429"] /\
  exists line, error_log_file (exec it empty_world) = [line] /\
               is_log_line line (reviews_failure_message "com.example.app" "HTTP 429").
Proof.
  assert (H1 : 10 <> 0) by lia.
  assert (H2 : eval (scrape_app_safely reviews_failing no_delay decimal_time
                                       "com.example.app" 3) empty_world
               = Ok (Some (sample_payload "com.example.app"))) by reflexivity.
  split; [exact H1 | split; [exact H2|]].
  destruct (reviews_fetched_once reviews_failing no_delay decimal_time decimal_iso
              50 10 0 "com.example.app" (mkRun [] ∅ (mkCheckpoint [] [])) empty_world
              _ _ H1 H2)
    as (Hcalls & _ & _ & (st' & E & Hin & _) & Hsleeps & Hlogged & Hline).
  split; [exact Hcalls|]. split; [exists st'; exact (conj E Hin)|].
  split; [exact Hsleeps|]. split; [exact Hlogged|]. exact Hline.
Defined.

(** ** C8 *)

(** C8 on two queries whose hits both include ["com.example.app"]: the
    output holds it once. *)
Example discovery_example :
  eval (discover_apps_by_categories always_answering no_delay decimal_time
                                    ["games"; "tools"] 30) empty_world
  = Ok ["com.games"; "com.example.app"; "com.tools"].
Proof. by vm_compute. Qed.

(** ** C10 *)

(** C10 on a checkpoint whose identifiers hold a quote, a backslash and
    a line feed, and on a world without a checkpoint file. *)
Lemma checkpoint_roundtrip_witness :
  let cp := mkCheckpoint ["com.a"; String quote (String backslash (String newline "x"))]
                         ["com.c"] in
  let w' := exec (save_checkpoint no_delay cp) empty_world in
  checkpoint_file empty_world = None /\
  load_checkpoint empty_world = (Ok (mkCheckpoint [] []), empty_world) /\
  load_checkpoint w' = (Ok cp, w').
Proof.
  assert (H : checkpoint_file empty_world = None) by reflexivity.
  split; [exact H|].
  destruct (checkpoint_roundtrip
              no_delay
              (mkCheckpoint ["com.a"; String quote (String backslash (String newline "x"))]
                            ["com.c"])
              empty_world) as (_ & _ & L & E).
  exact (conj (proj1 (E H)) L).
Defined.

(** * Further concrete runs *)

Lemma always_answering_identifies : answers_with_identifier always_answering.
Proof. intros n app_id. by eexists. Qed.

(** X2 on a payload that holds no [datetime]. *)
Lemma make_serializable_idempotent_witness :
  json_native (PDict (sample_payload "com.example.app")) = true /\
  _make_serializable decimal_iso (PDict (sample_payload "com.example.app"))
  = PDict (sample_payload "com.example.app").
Proof.
  assert (H : json_native (PDict (sample_payload "com.example.app")) = true)
    by reflexivity.
  split; [exact H|].
  exact (proj1 (proj2 (make_serializable_idempotent
                         decimal_iso (PDict (sample_payload "com.example.app")))) H).
Defined.

(** X3 on a source that always fails, with three attempts. *)
Lemma retry_loop_bounds_witness :
  let evs := emitted (scrape_app_safely always_failing no_delay decimal_time
                                        "com.example.app" 3) empty_world in
  1 <= 3 /\
  (1 <= length (app_calls evs))%nat /\
  slept evs <= 1000 * (2 ^ (3 - 1) - 1).
Proof.
  assert (H : 1 <= 3) by lia.
  split; [exact H|].
  destruct (retry_loop_bounds always_failing no_delay decimal_time
                              "com.example.app" 3 empty_world)
    as (_ & _ & _ & _ & _ & _ & B).
  exact (B H).
Defined.

(** X4 on two queries that both fail. *)
Lemma discovery_is_fault_tolerant_witness :
  (forall i c, ["games"; "tools"] !! i = Some c ->
     is_ok (search always_failing (ncalls empty_world + i) c 30) = false) /\
  eval (discover_apps_by_categories always_failing no_delay decimal_time
                                    ["games"; "tools"] 30) empty_world
  = Ok [].
Proof.
  assert (H : forall (i : nat) (c : string), ["games"; "tools"] !! i = Some c ->
     is_ok (search always_failing (ncalls empty_world + i) c 30) = false)
    by (intros; reflexivity).
  split; [exact H|].
  destruct (discovery_is_fault_tolerant always_failing no_delay decimal_time
                                        ["games"; "tools"] 30 empty_world)
    as (_ & _ & _ & _ & _ & _ & _ & _ & E).
  exact (E H).
Defined.


(** An identifier that occurs twice in [app_ids] is fetched twice and has
    two records in the batch. *)
Example repeated_identifier_is_stored_twice :
  let run := batch_scrape_apps always_answering no_delay decimal_time decimal_iso
                               ["com.a"; "com.a"; "com.b"] false 50 10 in
  app_calls (emitted run empty_world)
  = [("com.a", true); ("com.a", true); ("com.b", true)] /\
  records_for "com.a" (concat (json_writes (emitted run empty_world)).*2) = 2%nat.
Proof. by vm_compute. Qed.

(** X7 on two identifiers that are both answered. *)
Lemma zero_interval_loses_the_first_record_witness :
  let run := batch_scrape_apps always_answering no_delay decimal_time decimal_iso
                               ["com.a"; "com.b"] true 50 0 in
  remaining ["com.a"; "com.b"]
            (list_to_set (scraped_app_ids (loaded_checkpoint empty_world)))
  = "com.a" :: ["com.b"] /\
  always_populated always_answering ["com.a"] /\
  eval run empty_world = Raise ZeroDivisionError /\
  app_calls (emitted run empty_world) = [("com.a", true)] /\
  saved (emitted run empty_world) = [] /\
  checkpoint_file (exec run empty_world) = checkpoint_file empty_world.
Proof.
  assert (H1 : remaining ["com.a"; "com.b"]
                 (list_to_set (scraped_app_ids (loaded_checkpoint empty_world)))
               = "com.a" :: ["com.b"]) by (vm_compute; reflexivity).
  split; [exact H1 | split; [apply always_answering_populated|]].
  destruct (zero_interval_loses_the_first_record
              always_answering no_delay decimal_time decimal_iso
              ["com.a"; "com.b"] true 50 empty_world) as (_ & _ & S & F).
  destruct (F "com.a" ["com.b"] H1 (always_answering_populated _)) as [E C].
  destruct (S E) as [S1 S2].
  exact (conj E (conj C (conj S1 S2))).
Defined.

(** X8 on three identifiers that are all answered, interval 2. *)
Lemma completed_only_grows_witness :
  let run := batch_scrape_apps always_answering no_delay decimal_time decimal_iso
                               (sample_ids 3) true 50 2 in
  saved (emitted run empty_world) <> [] /\
  NoDup (scraped_app_ids (loaded_checkpoint (exec run empty_world))).
Proof.
  assert (H : saved (emitted (batch_scrape_apps always_answering no_delay decimal_time
                                                decimal_iso (sample_ids 3) true 50 2)
                             empty_world) <> [])
    by (vm_compute; discriminate).
  split; [exact H|].
  exact (proj2 (proj2 (completed_only_grows
                         always_answering no_delay decimal_time decimal_iso
                         (sample_ids 3) true 50 2 empty_world)) H).
Defined.

(** X9 on a run in which one identifier out of two fails. *)
Lemma run_is_paced_witness :
  let run := batch_scrape_apps one_broken no_delay decimal_time decimal_iso
                               ["com.broken"; "com.example.app"] false 50 10 in
  let remaining_ids :=
    remaining ["com.broken"; "com.example.app"]
              (list_to_set (scraped_app_ids (loaded_checkpoint empty_world))) in
  eval run empty_world = Ok tt /\
  (exists segments tail,
     emitted run empty_world = concat segments ++ tail /\
     Forall2 paced_segment remaining_ids segments /\
     sleeps tail = [] /\ app_calls tail = []) /\
  1200 * Z.of_nat (length remaining_ids) <= slept (emitted run empty_world) /\
  clock empty_world + 1200 * Z.of_nat (length remaining_ids)
  <= clock (exec run empty_world).
Proof.
  assert (H : eval (batch_scrape_apps one_broken no_delay decimal_time decimal_iso
                                      ["com.broken"; "com.example.app"] false 50 10)
                   empty_world = Ok tt) by (vm_compute; reflexivity).
  split; [exact H|].
  exact (run_is_paced one_broken no_delay decimal_time decimal_iso
           ["com.broken"; "com.example.app"] false 50 10 empty_world H).
Defined.


(** X12 on the directory [two_batches], the output being named
    ['apps_batch_all.json']: with a CSV projection that succeeds, and with
    one that fails. *)
Lemma merge_output_named_as_batch_is_merged_again_witness :
  let merge := merge_batches no_delay decimal_iso csv_of_length "apps_batch_all.json" in
  let merge' := merge_batches no_delay decimal_iso csv_failing "apps_batch_all.json" in
  is_batch_file "apps_batch_all.json" = true /\
  output_dir two_batches !! "apps_batch_all.json" = None /\
  batch_entries two_batches <> [] /\
  Forall (fun fc => is_json fc.2 = true) (batch_entries two_batches) /\
  csv_of_length (merged_data two_batches) = Returns "rows: 3" /\
  csv_failing (merged_data two_batches) = Throws "cannot normalize" /\
  merge (exec merge two_batches) = (Raise JSONDecodeError, exec merge two_batches) /\
  length (merged_data (exec merge' two_batches))
  = (2 * length (merged_data two_batches))%nat.
Proof.
  assert (H1 : is_batch_file "apps_batch_all.json" = true) by reflexivity.
  assert (H2 : output_dir two_batches !! "apps_batch_all.json" = None)
    by (vm_compute; reflexivity).
  assert (H3 : batch_entries two_batches <> []) by (vm_compute; discriminate).
  assert (H4 : Forall (fun fc => is_json fc.2 = true) (batch_entries two_batches))
    by (vm_compute; repeat constructor).
  assert (H5 : csv_of_length (merged_data two_batches) = Returns "rows: 3")
    by (vm_compute; reflexivity).
  assert (H6 : csv_failing (merged_data two_batches) = Throws "cannot normalize")
    by reflexivity.
  split; [exact H1 | split; [exact H2 | split; [exact H3 | split; [exact H4 | split;
    [exact H5 | split; [exact H6|]]]]]].
  split.
  - exact (proj2 (proj2 (proj1 (proj2 (merge_output_named_as_batch_is_merged_again
             no_delay decimal_iso csv_of_length "apps_batch_all.json" two_batches
             H1 H2 H3 H4)) _ H5))).
  - exact (proj2 (proj2 (proj2 (proj2 (proj2 (merge_output_named_as_batch_is_merged_again
             no_delay decimal_iso csv_failing "apps_batch_all.json" two_batches
             H1 H2 H3 H4)) _ H6)))).
Defined.

(** X13 on a source that answers every call, from an empty directory. *)
Lemma pipeline_collects_each_discovered_app_once_witness :
  let pipeline := main always_answering no_delay decimal_time decimal_iso
                       csv_of_length in
  let found := discovered always_answering (ncalls empty_world) categories 30 in
  (forall s1 s2, decimal_time "%Y%m%d_%H%M%S" s1 = decimal_time "%Y%m%d_%H%M%S" s2 ->
                 s1 = s2) /\
  output_dir empty_world = ∅ /\ checkpoint_file empty_world = None /\
  answers_with_identifier always_answering /\
  eval pipeline empty_world = Ok (mkStats (size found) 0) /\
  forall x,
    records_for x (document (exec pipeline empty_world)
                            "play_store_apps_complete.json")
    = if decide (x ∈ found) then 1%nat else 0%nat.
Proof.
  assert (H1 : output_dir empty_world = ∅) by reflexivity.
  assert (H2 : checkpoint_file empty_world = None) by reflexivity.
  split; [exact decimal_time_inj | split; [exact H1 | split; [exact H2 | split;
    [exact always_answering_identifies|]]]].
  exact (pipeline_collects_each_discovered_app_once
           always_answering no_delay decimal_time decimal_iso csv_of_length empty_world
           decimal_time_inj H1 H2 always_answering_identifies).
Defined.
